(** * Memory-Allocator: a shallow embedding of the free-list arena, the
      profiler, the leak detector and the adaptive controller

    Conventions of the embedding.
    - [size_t] is a 64-bit unsigned integer: a value of [N] below [2^64],
      with every addition, subtraction and multiplication of the source
      reduced modulo [2^64] ([add64], [sub64], [mul64]).
    - [std::list<MemoryBlock>] is a list of nodes.  A list iterator is the
      identity of a node: every node carries the number it received when it
      was inserted, and [addressMap] stores such numbers.  [end()] is [None].
    - [std::unordered_map] and [std::map] are finite maps ([gmap]).
    - A C++ exception is the outcome [Thrown]; behaviour the language leaves
      undefined (dereferencing a dangling iterator, [front()] of an empty
      vector) is the outcome [Undefined]. *)

From Stdlib Require Import NArith ZArith QArith Qround Lia Lqa Sorted Permutation.
From stdpp Require Import gmap strings list.

Local Open Scope N_scope.

(** ** 64-bit unsigned arithmetic *)

Definition two64 : N := 18446744073709551616.
Definition SIZE_MAX : N := 18446744073709551615.

Definition wrap (x : N) : N := x mod two64.
Definition add64 (a b : N) : N := wrap (a + b).
Definition sub64 (a b : N) : N := wrap (a + (two64 - wrap b)).
Definition mul64 (a b : N) : N := wrap (a * b).

(** ** Outcomes of a call *)

Inductive exception :=
| AllocationFailedException (what : string)
| InvalidAddressException (what : string).

Inductive outcome (S A : Type) :=
| Returned (v : A) (s : S)
| Thrown (e : exception) (s : S)
| Undefined.
Arguments Returned {S A} v s.
Arguments Thrown {S A} e s.
Arguments Undefined {S A}.

(** The spec's names of the three error kinds. *)
Definition ZeroSize : exception :=
  AllocationFailedException "Cannot allocate zero bytes".
Definition NoFit : exception :=
  AllocationFailedException "No suitable memory block found".
Definition InvalidAddress : exception :=
  InvalidAddressException "Invalid address for deallocation".

(** ** MemoryAllocator.h: the types outside the class *)

Inductive AllocationStrategy := FIRST_FIT | BEST_FIT | WORST_FIT.

Record MemoryBlock := mkBlock {
  address : N;
  size : N;
  isFree : bool
}.

(** ** double

    A finite [double] is modelled by the rational it denotes, with exact
    arithmetic (rounding to 53 bits is not modelled); the non-finite values
    that the source can produce by dividing by zero are kept apart, with the
    IEEE rules for them: every comparison with [NaN] is false.

    Where the source compares or truncates a rounded result that lies within
    one rounding error of the bound, the exact result can fall on the other
    side: [1.0 - 700.0 / 1000] is above [0.3] as a [double] and equal to it
    here, and [(1.0 / 49) * 49] truncates to 0 as a [double] and to 1 here.
    The functions concerned are marked where they are defined; what is
    proved of a [double] below is proved of the exact arithmetic. *)

Inductive double := Fin (q : Q) | PInf | NInf | NaN.

Definition of_size_t (n : N) : double := Fin (inject_Z (Z.of_N n)).
Definition of_count (z : Z) : double := Fin (inject_Z z).

Definition Qsign_inf (q : Q) : double :=
  if Qle_bool 0 q then PInf else NInf.

Definition dneg (x : double) : double :=
  match x with
  | Fin q => Fin (- q)
  | PInf => NInf
  | NInf => PInf
  | NaN => NaN
  end.

Definition dadd (x y : double) : double :=
  match x, y with
  | NaN, _ | _, NaN => NaN
  | Fin a, Fin b => Fin (a + b)
  | PInf, NInf | NInf, PInf => NaN
  | PInf, _ | _, PInf => PInf
  | NInf, _ | _, NInf => NInf
  end.

Definition dsub (x y : double) : double := dadd x (dneg y).

Definition dmul (x y : double) : double :=
  match x, y with
  | NaN, _ | _, NaN => NaN
  | Fin a, Fin b => Fin (a * b)
  | Fin a, PInf | PInf, Fin a => if Qeq_bool a 0 then NaN else Qsign_inf a
  | Fin a, NInf | NInf, Fin a => if Qeq_bool a 0 then NaN else dneg (Qsign_inf a)
  | PInf, PInf | NInf, NInf => PInf
  | PInf, NInf | NInf, PInf => NInf
  end.

Definition ddiv (x y : double) : double :=
  match x, y with
  | NaN, _ | _, NaN => NaN
  | Fin a, Fin b =>
      if Qeq_bool b 0 then (if Qeq_bool a 0 then NaN else Qsign_inf a)
      else Fin (a / b)
  | Fin _, _ => Fin 0
  | PInf, Fin b => Qsign_inf b
  | NInf, Fin b => dneg (Qsign_inf b)
  | _, _ => NaN
  end.

(** [x < y] *)
Definition dlt (x y : double) : bool :=
  match x, y with
  | NaN, _ | _, NaN => false
  | Fin a, Fin b => negb (Qle_bool b a)
  | PInf, _ | _, NInf => false
  | NInf, _ | _, PInf => true
  end.

(** [x > y] and [x >= y] *)
Definition dgt (x y : double) : bool := dlt y x.
Definition dge (x y : double) : bool :=
  match x, y with
  | NaN, _ | _, NaN => false
  | _, _ => negb (dlt x y)
  end.

(** [x <= y] *)
Definition dle (x y : double) : bool :=
  match x, y with
  | NaN, _ | _, NaN => false
  | _, _ => negb (dlt y x)
  end.

(** [static_cast<size_t>(x)]: truncation toward zero; undefined ([None]) when
    the truncated value is not a [size_t]. *)
Definition to_size_t (x : double) : option N :=
  match x with
  | Fin q =>
      let z := if Qle_bool 0 q then Qfloor q else (- Qfloor (- q))%Z in
      if (0 <=? z)%Z && (z <? Z.of_N two64)%Z then Some (Z.to_N z) else None
  | _ => None
  end.

(** ** class MemoryAllocator (MemoryAllocator.h, MemoryAllocator.cpp) *)

Module MemoryAllocator.

Definition iterator := nat.
Definition node : Type := iterator * MemoryBlock.

Record t := mkArena {
  memoryBlocks : list node;
  addressMap : gmap N iterator;
  totalMemorySize : N;
  strategy : AllocationStrategy;
  (** number given to the next list node (the node allocator) *)
  next_iterator : iterator
}.

Definition set_size (sz : N) (b : MemoryBlock) : MemoryBlock :=
  mkBlock (address b) sz (isFree b).
Definition set_isFree (f : bool) (b : MemoryBlock) : MemoryBlock :=
  mkBlock (address b) (size b) f.

(** Dereference an iterator. *)
Fixpoint deref (l : list node) (it : iterator) : option MemoryBlock :=
  match l with
  | [] => None
  | (i, b) :: r => if Nat.eqb i it then Some b else deref r it
  end.

(** Assign through an iterator: the node's block becomes [f] of itself. *)
Fixpoint update_node (it : iterator) (f : MemoryBlock -> MemoryBlock)
    (l : list node) : list node :=
  match l with
  | [] => []
  | (i, b) :: r =>
      if Nat.eqb i it then (i, f b) :: r else (i, b) :: update_node it f r
  end.

(** [memoryBlocks.insert(std::next(it), n)] *)
Fixpoint insert_after (it : iterator) (n : node) (l : list node) : list node :=
  match l with
  | [] => []
  | (i, b) :: r =>
      if Nat.eqb i it then (i, b) :: n :: r else (i, b) :: insert_after it n r
  end.

Definition with_blocks (a : t) (l : list node)
    (m : gmap N iterator) (nx : iterator) : t :=
  mkArena l m (totalMemorySize a) (strategy a) nx.

(** *** MemoryAllocator.cpp *)

(** The constructor: one free block covering the whole range. *)
Definition new (sz : N) (allocationStrategy : AllocationStrategy)
    : t :=
  mkArena [(O, mkBlock 0 sz true)] {[ 0 := O ]} sz allocationStrategy 1%nat.

Definition fits (sz : N) (b : MemoryBlock) : bool :=
  isFree b && (sz <=? size b).

Definition best_step (sz : N) (acc : option iterator * N) (n : node)
    : option iterator * N :=
  if fits sz n.2 then
    let difference := sub64 (size n.2) sz in
    if difference <? acc.2 then (Some n.1, difference) else acc
  else acc.

Definition worst_step (sz : N) (acc : option iterator * N) (n : node)
    : option iterator * N :=
  if fits sz n.2 then
    let difference := sub64 (size n.2) sz in
    if acc.2 <? difference then (Some n.1, difference) else acc
  else acc.

Definition findSuitableBlock (a : t) (sz : N) : option iterator :=
  match strategy a with
  | FIRST_FIT => fst <$> List.find (fun n => fits sz n.2) (memoryBlocks a)
  | BEST_FIT => (fold_left (best_step sz) (memoryBlocks a) (None, SIZE_MAX)).1
  | WORST_FIT => (fold_left (worst_step sz) (memoryBlocks a) (None, 0)).1
  end.

Definition splitBlock (block : iterator) (sz : N) (a : t)
    : option t :=
  match deref (memoryBlocks a) block with
  | None => None
  | Some b =>
      let remainingSize := sub64 (size b) sz in
      if 0 <? remainingSize then
        let newBlock := mkBlock (add64 (address b) sz) remainingSize true in
        let newBlockIt := next_iterator a in
        Some (with_blocks a
                (update_node block (set_size sz)
                   (insert_after block (newBlockIt, newBlock) (memoryBlocks a)))
                (<[ address newBlock := newBlockIt ]> (addressMap a))
                (S newBlockIt))
      else Some a
  end.

(** The loop of [mergeFreeBlocks], with [it] the current node and [rest] the
    nodes after it. *)
Fixpoint merge_from (it : node) (rest : list node) (m : gmap N iterator)
    : list node * gmap N iterator :=
  match rest with
  | [] => ([it], m)
  | nextIt :: rest' =>
      if isFree it.2 && isFree nextIt.2 then
        merge_from (it.1, set_size (add64 (size it.2) (size nextIt.2)) it.2)
          rest' (delete (address nextIt.2) m)
      else
        let '(l, m') := merge_from nextIt rest' m in (it :: l, m')
  end.

Definition mergeFreeBlocks (a : t) : t :=
  match memoryBlocks a with
  | [] => a
  | it :: rest =>
      let '(l, m) := merge_from it rest (addressMap a) in
      with_blocks a l m (next_iterator a)
  end.

Definition allocate (sz : N) (a : t)
    : outcome t N :=
  if sz =? 0 then Thrown ZeroSize a
  else
    match findSuitableBlock a sz with
    | None => Thrown NoFit a
    | Some blockIt =>
        match deref (memoryBlocks a) blockIt with
        | None => Undefined
        | Some b =>
            let allocatedAddress := address b in
            match (if sz <? size b then splitBlock blockIt sz a else Some a) with
            | None => Undefined
            | Some a1 =>
                Returned allocatedAddress
                  (with_blocks a1
                     (update_node blockIt (set_isFree false) (memoryBlocks a1))
                     (addressMap a1) (next_iterator a1))
            end
        end
    end.

Definition deallocate (addr : N) (a : t)
    : outcome t unit :=
  match addressMap a !! addr with
  | None => Thrown InvalidAddress a
  | Some it =>
      match deref (memoryBlocks a) it with
      | None => Undefined
      | Some _ =>
          Returned tt
            (mergeFreeBlocks
               (with_blocks a
                  (update_node it (set_isFree true) (memoryBlocks a))
                  (addressMap a) (next_iterator a)))
      end
  end.

Definition setAllocationStrategy (newStrategy : AllocationStrategy)
    (a : t) : t :=
  mkArena (memoryBlocks a) (addressMap a) (totalMemorySize a) newStrategy
    (next_iterator a).

Definition getLargestFreeBlock (a : t) : N :=
  fold_left (fun largest (n : node) =>
               if isFree n.2 && (largest <? size n.2) then size n.2 else largest)
    (memoryBlocks a) 0.

Definition getTotalFreeMemory (a : t) : N :=
  fold_left (fun total (n : node) =>
               if isFree n.2 then add64 total (size n.2) else total)
    (memoryBlocks a) 0.

Definition getFragmentationRatio (a : t) : double :=
  let totalFreeMemory := getTotalFreeMemory a in
  let largestFreeBlock := getLargestFreeBlock a in
  if totalFreeMemory =? 0 then Fin 0
  else dsub (Fin 1) (ddiv (of_size_t largestFreeBlock) (of_size_t totalFreeMemory)).

End MemoryAllocator.

(** ** std::chrono::steady_clock

    A [time_point] is the number of clock ticks (nanoseconds) since the
    clock's epoch; the default-constructed [time_point()] is the epoch.  The
    reading [now] of the clock is an argument of every operation that reads
    it. *)

Definition time_point := Z.
Bind Scope Z_scope with time_point.
Definition time_point_default : time_point := 0%Z.

(** [duration_cast<microseconds>(d).count()] and
    [duration_cast<milliseconds>(d).count()]: truncation toward zero. *)
Definition microseconds (d : Z) : Z := Z.quot d 1000.
Definition milliseconds (d : Z) : Z := Z.quot d 1000000.

(** ** Containers of the standard library *)

(** [std::sort] with the strict order [comp].  The order of equivalent
    elements is unspecified in C++, and differs between implementations of
    the library; this model keeps them in their original order, and the
    properties proved of a sorted range hold for any order of equivalent
    elements. *)
Fixpoint sort_insert {A} (comp : A -> A -> bool) (x : A) (l : list A) : list A :=
  match l with
  | [] => [x]
  | y :: r => if comp y x then y :: sort_insert comp x r else x :: y :: r
  end.
Definition std_sort {A} (comp : A -> A -> bool) (l : list A) : list A :=
  foldr (sort_insert comp) [] l.

(** The elements of a [std::map<size_t, V>] in iteration order (ascending
    keys). *)
Definition entries {V} (m : gmap N V) : list (N * V) :=
  std_sort (fun a b => a.1 <? b.1) (map_to_list m).

(** [m[k]++] on a [std::map<size_t, size_t>] *)
Definition increment (k : N) (m : gmap N N) : gmap N N :=
  <[ k := add64 (default 0 (m !! k)) 1 ]> m.

(** ** class MemoryProfiler (MemoryProfiler.h, MemoryProfiler.cpp) *)

Module MemoryProfiler.

Record AllocationRecord := mkRecord {
  size : N;
  address : N;
  allocationTime : time_point;
  deallocationTime : time_point;
  isActive : bool;
  poolId : N
}.

Record AllocationPattern := mkPattern {
  commonSizes : list N;
  averageLifetime : double;
  sizeDistribution : gmap N double;
  hotSpots : list (N * N)
}.

Record Prediction := mkPrediction {
  (** [None]: the member is left uninitialised *)
  nextLikelySize : option N;
  recommendedStrategy : AllocationStrategy;
  recommendedPoolSizes : list N;
  confidence : double
}.

Record PerformanceMetrics := mkMetrics {
  fragmentationRatio : double;
  averageAllocationTime : double;
  hitRate : double;
  failedAllocations : N;
  strategyEfficiency : list (AllocationStrategy * double)
}.

(** The member [allocator] is a pointer to the arena: the functions that
    read through it take the arena as an argument. *)
Record t := mkProfiler {
  allocationHistory : list AllocationRecord;
  lifetimeDistribution : gmap N (list double);
  sizeFrequency : gmap N N;
  strategyMetrics : list (AllocationStrategy * PerformanceMetrics)
}.

Definition new : t := mkProfiler [] ∅ ∅ [].

Definition getTotalAllocations (p : t) : N :=
  N.of_nat (length (allocationHistory p)).

Definition updateSizeFrequency (sz : N) (p : t) : t :=
  mkProfiler (allocationHistory p) (lifetimeDistribution p)
    (increment sz (sizeFrequency p)) (strategyMetrics p).

Definition updateLifetimeStats (record : AllocationRecord) (p : t) : t :=
  let duration :=
    milliseconds (deallocationTime record - allocationTime record) in
  mkProfiler (allocationHistory p)
    (<[ size record :=
          default [] (lifetimeDistribution p !! size record)
            ++ [of_count duration] ]> (lifetimeDistribution p))
    (sizeFrequency p) (strategyMetrics p).

Definition recordAllocation (sz addr : N) (pool : N) (now : time_point) (p : t)
    : t :=
  let record := mkRecord sz addr now time_point_default true pool in
  let p1 := mkProfiler (allocationHistory p ++ [record])
              (lifetimeDistribution p) (sizeFrequency p) (strategyMetrics p) in
  let p2 := updateSizeFrequency sz p1 in
  if 10000 <? N.of_nat (length (allocationHistory p2)) then
    mkProfiler (tail (allocationHistory p2)) (lifetimeDistribution p2)
      (sizeFrequency p2) (strategyMetrics p2)
  else p2.

(** The loop of [recordDeallocation]: the history after the loop, and the
    record on which the loop stopped, if any. *)
Fixpoint deactivate (addr : N) (now : time_point) (h : list AllocationRecord)
    : list AllocationRecord * option AllocationRecord :=
  match h with
  | [] => ([], None)
  | record :: rest =>
      if (address record =? addr) && isActive record then
        let record' :=
          mkRecord (size record) (address record) (allocationTime record)
            now false (poolId record) in
        (record' :: rest, Some record')
      else
        let '(rest', o) := deactivate addr now rest in (record :: rest', o)
  end.

Definition recordDeallocation (addr : N) (now : time_point) (p : t) : t :=
  let '(h, o) := deactivate addr now (allocationHistory p) in
  let p1 := mkProfiler h (lifetimeDistribution p) (sizeFrequency p)
              (strategyMetrics p) in
  match o with
  | Some record => updateLifetimeStats record p1
  | None => p1
  end.

Definition identifyHotSpots (records : list AllocationRecord) : list (N * N) :=
  let REGION_SIZE := 4096 in
  let addressFrequency :=
    fold_left (fun m record => increment (address record / REGION_SIZE) m)
      records ∅ in
  let hotSpots := std_sort (fun a b => b.2 <? a.2) (entries addressFrequency) in
  let MAX_HOTSPOTS := 10%nat in
  take MAX_HOTSPOTS hotSpots.

Definition analyzePatterns (p : t) : AllocationPattern :=
  let sizeFreqVec :=
    std_sort (fun a b => b.2 <? a.2) (entries (sizeFrequency p)) in
  let commonSizes := map fst (take 5 sizeFreqVec) in
  let '(totalLifetime, count) :=
    fold_left
      (fun (acc : double * N) (e : N * list double) =>
         match e.2 with
         | [] => acc
         | _ => (dadd acc.1 (fold_left dadd e.2 (Fin 0)),
                 add64 acc.2 (N.of_nat (length e.2)))
         end)
      (entries (lifetimeDistribution p)) (Fin 0, 0) in
  let averageLifetime :=
    if 0 <? count then ddiv totalLifetime (of_size_t count) else Fin 0 in
  let totalAllocations :=
    fold_left (fun sum (pair : N * N) => add64 sum pair.2) sizeFreqVec 0 in
  let sizeDistribution :=
    fold_left
      (fun (m : gmap N double) (e : N * N) =>
         <[ e.1 := ddiv (of_size_t e.2) (of_size_t totalAllocations) ]> m)
      sizeFreqVec ∅ in
  mkPattern commonSizes averageLifetime sizeDistribution
    (identifyHotSpots (allocationHistory p)).

Definition calculatePatternConfidence (sizes : list N) (p : t) : double :=
  match sizes with
  | [] => Fin 0
  | _ =>
      let totalAllocs :=
        fold_left (fun sum (pair : N * N) => add64 sum pair.2)
          (entries (sizeFrequency p)) 0 in
      let commonAllocs :=
        fold_left
          (fun acc sz =>
             match sizeFrequency p !! sz with
             | Some f => add64 acc f
             | None => acc
             end)
          sizes 0 in
      ddiv (of_size_t commonAllocs) (of_size_t totalAllocs)
  end.

(** [None]: [pattern.commonSizes[0]] is read although the vector is empty. *)
Definition determineOptimalStrategy (pattern : AllocationPattern)
    : option AllocationStrategy :=
  let sizeVariance :=
    fold_left
      (fun (acc : option double) (e : N * double) =>
         match acc, commonSizes pattern with
         | Some v, c0 :: _ =>
             let d := of_size_t (sub64 e.1 c0) in
             Some (dadd v (dmul (dmul d d) e.2))
         | _, _ => None
         end)
      (entries (sizeDistribution pattern)) (Some (Fin 0)) in
  match sizeVariance with
  | None => None
  | Some sizeVariance =>
      let '(firstFitScore, bestFitScore) :=
        if dlt sizeVariance (Fin 1000) then (Fin 0, Fin (5 # 10))
        else (Fin (3 # 10), Fin 0) in
      let worstFitScore :=
        if (5 <? length (hotSpots pattern))%nat then Fin (4 # 10) else Fin 0 in
      let '(firstFitScore, bestFitScore) :=
        if dlt (averageLifetime pattern) (Fin 1000)
        then (dadd firstFitScore (Fin (4 # 10)), bestFitScore)
        else (firstFitScore, dadd bestFitScore (Fin (3 # 10))) in
      Some
        (if dge firstFitScore bestFitScore && dge firstFitScore worstFitScore
         then FIRST_FIT
         else if dge bestFitScore worstFitScore then BEST_FIT
         else WORST_FIT)
  end.

Definition predictNextAllocation (p : t) : option Prediction :=
  let pattern := analyzePatterns p in
  match determineOptimalStrategy pattern with
  | None => None
  | Some strat =>
      Some (mkPrediction
              (head (commonSizes pattern))
              strat
              (map fst
                 (filter (fun e : N * double => dgt e.2 (Fin (1 # 10)) = true)
                    (entries (sizeDistribution pattern))))
              (calculatePatternConfidence (commonSizes pattern) p))
  end.

Fixpoint inter_arrival (records : list AllocationRecord) : list double :=
  match records with
  | r0 :: ((r1 :: _) as rest) =>
      of_count (microseconds (allocationTime r1 - allocationTime r0))
        :: inter_arrival rest
  | _ => []
  end.

Definition getPerformanceMetrics (allocator : MemoryAllocator.t) (p : t)
    : PerformanceMetrics :=
  let times := inter_arrival (allocationHistory p) in
  let average :=
    match times with
    | [] => Fin 0
    | _ => ddiv (fold_left dadd times (Fin 0))
             (of_size_t (N.of_nat (length times)))
    end in
  let successful :=
    fold_left
      (fun n record =>
         if isActive record
            || negb (Z.eqb (deallocationTime record) time_point_default)
         then add64 n 1 else n)
      (allocationHistory p) 0 in
  mkMetrics
    (MemoryAllocator.getFragmentationRatio allocator)
    average
    (ddiv (of_size_t successful) (of_size_t (getTotalAllocations p)))
    (sub64 (getTotalAllocations p) successful)
    (map (fun e : AllocationStrategy * PerformanceMetrics =>
            (e.1,
             dadd (dadd (dmul (hitRate e.2) (Fin (4 # 10)))
                     (dmul (dsub (Fin 1) (fragmentationRatio e.2)) (Fin (4 # 10))))
               (dmul (ddiv (Fin 1) (dadd (Fin 1) (averageAllocationTime e.2)))
                  (Fin (2 # 10)))))
       (strategyMetrics p)).

(** [None]: the cast of the product to [size_t] is undefined.  The product
    is exact here and rounded in the source, which can truncate to one less
    than the frequency; only the branch of a size without entry, which
    involves no arithmetic, is reasoned about. *)
Definition shouldCreatePoolForSize (sz threshold : N) (p : t) : option bool :=
  let pattern := analyzePatterns p in
  let totalAllocations := getTotalAllocations p in
  match sizeDistribution pattern !! sz with
  | Some share =>
      match to_size_t (dmul share (of_size_t totalAllocations)) with
      | Some n => Some (threshold <=? n)
      | None => None
      end
  | None => Some false
  end.

End MemoryProfiler.

(** ** class MemoryLeakDetector (MemoryLeakDetector.h, MemoryLeakDetector.cpp) *)

Module MemoryLeakDetector.

Record AllocationInfo := mkInfo {
  size : N;
  allocationTime : time_point;
  callStack : string;
  lineNumber : Z;
  fileName : string
}.

(** [cerr] collects the addresses reported as untracked on [std::cerr]. *)
Record t := mkDetector {
  activeAllocations : gmap N AllocationInfo;
  allocationHistory : list (N * AllocationInfo);
  cerr : list N
}.

Definition new : t := mkDetector ∅ [] [].

Definition captureCallStack : string :=
  "Call stack capture not implemented" ++ String (Ascii.ascii_of_nat 10) EmptyString.

Definition recordAllocation (addr sz : N) (file : string) (line : Z)
    (now : time_point) (d : t) : t :=
  let info := mkInfo sz now captureCallStack line file in
  mkDetector (<[ addr := info ]> (activeAllocations d))
    (allocationHistory d ++ [(addr, info)]) (cerr d).

Definition recordDeallocation (addr : N) (d : t) : t :=
  match activeAllocations d !! addr with
  | Some _ =>
      mkDetector (delete addr (activeAllocations d)) (allocationHistory d)
        (cerr d)
  | None =>
      mkDetector (activeAllocations d) (allocationHistory d) (cerr d ++ [addr])
  end.

Definition hasLeaks (d : t) : bool :=
  negb (bool_decide (activeAllocations d = ∅)).

Definition getTotalAllocations (d : t) : N :=
  N.of_nat (length (allocationHistory d)).

Definition getCurrentlyAllocated (d : t) : N :=
  fold_left (fun totalBytes (e : N * AllocationInfo) => add64 totalBytes (size e.2))
    (entries (activeAllocations d)) 0.

End MemoryLeakDetector.

(** ** Sequencing calls that may throw *)

Definition bind {S A B} (m : S -> outcome S A) (k : A -> S -> outcome S B)
    : S -> outcome S B :=
  fun s =>
    match m s with
    | Returned v s' => k v s'
    | Thrown e s' => Thrown e s'
    | Undefined => Undefined
    end.

Definition ret {S A} (v : A) : S -> outcome S A := fun s => Returned v s.
Definition modify {S} (f : S -> S) : S -> outcome S unit :=
  fun s => Returned tt (f s).

Notation "'do' x <- m ; k" := (bind m (fun x => k))
  (at level 10, x name, m at level 100, k at level 200).
Notation "'do_' m ; k" := (bind m (fun _ => k))
  (at level 10, m at level 100, k at level 200).

Fixpoint for_each {S A} (l : list A) (body : A -> S -> outcome S unit)
    : S -> outcome S unit :=
  match l with
  | [] => ret tt
  | x :: r => do_ body x; for_each r body
  end.

(** ** class AdaptiveMemoryAllocator
       (AdaptiveMemoryAllocator.h, AdaptiveMemoryAllocator.cpp) *)

Module AdaptiveMemoryAllocator.

Record MemoryPool := mkPool {
  blockSize : N;
  freeBlocks : list N;
  totalBlocks : N;
  usedBlocks : N
}.

Record AdaptiveParameters := mkParams {
  fragmentationThreshold : double;
  poolCreationThreshold : N;
  adaptationInterval : N;
  operationsSinceLastAdaptation : N
}.

(** [base] is the [MemoryAllocator] sub-object. *)
Record t := mkController {
  base : MemoryAllocator.t;
  profiler : MemoryProfiler.t;
  adaptiveMode : bool;
  memoryPools : list MemoryPool;
  params : AdaptiveParameters
}.

(** The controller together with the process-wide leak detector
    ([MemoryLeakDetector::getInstance()]). *)
Record program := mkProgram {
  this : t;
  leakDetector : MemoryLeakDetector.t
}.

Definition set_base (f : MemoryAllocator.t -> MemoryAllocator.t) (c : t) : t :=
  mkController (f (base c)) (profiler c) (adaptiveMode c) (memoryPools c)
    (params c).
Definition set_profiler (f : MemoryProfiler.t -> MemoryProfiler.t) (c : t) : t :=
  mkController (base c) (f (profiler c)) (adaptiveMode c) (memoryPools c)
    (params c).
Definition set_adaptiveMode (b : bool) (c : t) : t :=
  mkController (base c) (profiler c) b (memoryPools c) (params c).
Definition set_memoryPools (f : list MemoryPool -> list MemoryPool) (c : t) : t :=
  mkController (base c) (profiler c) (adaptiveMode c) (f (memoryPools c))
    (params c).
Definition set_params (f : AdaptiveParameters -> AdaptiveParameters) (c : t) : t :=
  mkController (base c) (profiler c) (adaptiveMode c) (memoryPools c)
    (f (params c)).
Definition set_operations (n : N) (p : AdaptiveParameters) : AdaptiveParameters :=
  mkParams (fragmentationThreshold p) (poolCreationThreshold p)
    (adaptationInterval p) n.

(** A call of a member of the base class. *)
Definition on_base {A} (f : MemoryAllocator.t -> outcome MemoryAllocator.t A)
    : t -> outcome t A :=
  fun c =>
    match f (base c) with
    | Returned v a => Returned v (set_base (fun _ => a) c)
    | Thrown e a => Thrown e (set_base (fun _ => a) c)
    | Undefined => Undefined
    end.

(** A call of a member of the controller from the program. *)
Definition on_this {A} (f : t -> outcome t A) : program -> outcome program A :=
  fun w =>
    match f (this w) with
    | Returned v c => Returned v (mkProgram c (leakDetector w))
    | Thrown e c => Thrown e (mkProgram c (leakDetector w))
    | Undefined => Undefined
    end.

Definition on_leakDetector (f : MemoryLeakDetector.t -> MemoryLeakDetector.t)
    : program -> outcome program unit :=
  modify (fun w => mkProgram (this w) (f (leakDetector w))).

(** [RECORD_ALLOCATION(addr, size)] at its only place of use. *)
Definition FILE : string := "AdaptiveMemoryAllocator.cpp".
Definition LINE : Z := 60.
Definition RECORD_ALLOCATION (addr sz : N) (now : time_point)
    : program -> outcome program unit :=
  on_leakDetector (MemoryLeakDetector.recordAllocation addr sz FILE LINE now).
Definition RECORD_DEALLOCATION (addr : N) : program -> outcome program unit :=
  on_leakDetector (MemoryLeakDetector.recordDeallocation addr).

Definition new (totalSize : N) : t :=
  mkController (MemoryAllocator.new totalSize FIRST_FIT) MemoryProfiler.new true
    [] (mkParams (Fin (3 # 10)) 100 1000 0).

Definition start (totalSize : N) : program :=
  mkProgram (new totalSize) MemoryLeakDetector.new.

Definition createMemoryPool (blockSize blockCount : N) : t -> outcome t unit :=
  let totalSize := mul64 blockSize blockCount in
  do baseAddress <- on_base (MemoryAllocator.allocate totalSize);
  if baseAddress =? 0 then ret tt
  else
    let newPool :=
      mkPool blockSize
        (map (fun i => add64 baseAddress (mul64 (N.of_nat i) blockSize))
           (seq 0 (N.to_nat blockCount)))
        blockCount 0 in
    modify (set_memoryPools (fun pools => pools ++ [newPool])).

(** The loop of [allocateFromPool]: the address taken and the pools after
    the call, or [None] when no pool is suitable. *)
Fixpoint allocateFromPool_loop (sz : N) (pools : list MemoryPool)
    : option (N * list MemoryPool) :=
  match pools with
  | [] => None
  | pool :: r =>
      if (sz <=? blockSize pool)
         && negb (bool_decide (freeBlocks pool = [])) then
        let addr := List.last (freeBlocks pool) 0 in
        Some (addr,
              mkPool (blockSize pool) (removelast (freeBlocks pool))
                (totalBlocks pool) (add64 (usedBlocks pool) 1) :: r)
      else
        match allocateFromPool_loop sz r with
        | Some (addr, r') => Some (addr, pool :: r')
        | None => None
        end
  end.

Definition allocateFromPool (sz : N) : t -> outcome t N :=
  fun c =>
    match allocateFromPool_loop sz (memoryPools c) with
    | Some (addr, pools) => Returned addr (set_memoryPools (fun _ => pools) c)
    | None => Returned 0 c
    end.

Definition updatePoolUtilization (c : t) : t :=
  set_memoryPools
    (map (fun pool =>
            let utilization :=
              ddiv (of_size_t (usedBlocks pool)) (of_size_t (totalBlocks pool)) in
            if dlt utilization (Fin (2 # 10)) then
              mkPool (blockSize pool) (freeBlocks pool) 0 (usedBlocks pool)
            else pool))
    c.

Definition shouldCreatePool (sz : N) : t -> outcome t bool :=
  fun c =>
    match MemoryProfiler.shouldCreatePoolForSize sz
            (poolCreationThreshold (params c)) (profiler c) with
    | Some b => Returned b c
    | None => Undefined
    end.

Definition cleanupUnusedPools (c : t) : t :=
  set_memoryPools
    (List.filter (fun pool => negb (totalBlocks pool =? 0))) c.

(** [x *= f] for [x] of type [size_t] and [f] of type [double]. *)
Definition scale (x : N) (f : double) : option N :=
  to_size_t (dmul (of_size_t x) f).

Definition adjustParameters : t -> outcome t unit :=
  fun c =>
    let metrics := MemoryProfiler.getPerformanceMetrics (base c) (profiler c) in
    let p := params c in
    let threshold :=
      if dlt (MemoryProfiler.hitRate metrics) (Fin (8 # 10)) then
        dmul (fragmentationThreshold p) (Fin (11 # 10))
      else if dgt (MemoryProfiler.hitRate metrics) (Fin (95 # 100)) then
        dmul (fragmentationThreshold p) (Fin (9 # 10))
      else fragmentationThreshold p in
    let poolThreshold :=
      if 100 <? MemoryProfiler.failedAllocations metrics then
        scale (poolCreationThreshold p) (Fin (9 # 10))
      else Some (poolCreationThreshold p) in
    let interval :=
      if dgt (MemoryProfiler.averageAllocationTime metrics) (Fin 1000) then
        scale (adaptationInterval p) (Fin (12 # 10))
      else scale (adaptationInterval p) (Fin (8 # 10)) in
    match poolThreshold, interval with
    | Some poolThreshold, Some interval =>
        Returned tt
          (set_params
             (fun _ => mkParams threshold poolThreshold interval
                         (operationsSinceLastAdaptation p))
             c)
    | _, _ => Undefined
    end.

Definition optimizePools : t -> outcome t unit :=
  fun c =>
    match MemoryProfiler.predictNextAllocation (profiler c) with
    | None => Undefined
    | Some prediction =>
        (do_ modify cleanupUnusedPools;
         for_each (MemoryProfiler.recommendedPoolSizes prediction)
           (fun sz c' =>
              let poolExists :=
                existsb (fun pool => blockSize pool =? sz) (memoryPools c') in
              if poolExists then Returned tt c'
              else
                match to_size_t
                        (dmul (MemoryProfiler.confidence prediction) (Fin 20))
                with
                | Some n => createMemoryPool sz (N.max 5 n) c'
                | None => Undefined
                end))
          c
    end.

(** The comparison of the fragmentation ratio with the threshold is exact
    here and between rounded values in the source; it is not reasoned about
    (with the adaptive mode off the function returns before it). *)
Definition adaptStrategy : t -> outcome t unit :=
  fun c =>
    if negb (adaptiveMode c) then Returned tt c
    else
      let metrics := MemoryProfiler.getPerformanceMetrics (base c) (profiler c) in
      match MemoryProfiler.predictNextAllocation (profiler c) with
      | None => Undefined
      | Some prediction =>
          (do_ (if dgt (MemoryProfiler.fragmentationRatio metrics)
                     (fragmentationThreshold (params c))
                then modify
                       (set_base
                          (MemoryAllocator.setAllocationStrategy
                             (MemoryProfiler.recommendedStrategy prediction)))
                else ret tt);
           do_ optimizePools;
           do_ adjustParameters;
           modify (set_params (set_operations 0)))
            c
      end.

Definition allocate (sz : N) (now : time_point) : program -> outcome program N :=
  let from_pool (addr : N) : program -> outcome program N :=
    do_ on_this
          (modify (set_profiler (MemoryProfiler.recordAllocation sz addr 0 now)));
    ret addr in
  let regular : program -> outcome program N :=
    do addr <- on_this (on_base (MemoryAllocator.allocate sz));
    do_ on_this
          (modify (set_profiler (MemoryProfiler.recordAllocation sz addr 0 now)));
    do_ on_this
          (modify
             (set_params
                (fun p =>
                   set_operations (add64 (operationsSinceLastAdaptation p) 1) p)));
    do_ on_this
          (fun c =>
             if adaptationInterval (params c)
                <=? operationsSinceLastAdaptation (params c)
             then adaptStrategy c
             else Returned tt c);
    do_ RECORD_ALLOCATION addr sz now;
    ret addr in
  fun w =>
    if adaptiveMode (this w) then
      (do addr <- on_this (allocateFromPool sz);
       if negb (addr =? 0) then from_pool addr
       else
         do create <- on_this (shouldCreatePool sz);
         if create then
           do_ on_this (createMemoryPool sz 10);
           do addr <- on_this (allocateFromPool sz);
           if negb (addr =? 0) then from_pool addr else regular
         else regular)
        w
    else regular w.

(** The loop of [deallocate] over the pools.  [None]: [front()] is called on
    an empty vector.  [Some None]: no pool took the address.
    [Some (Some pools)]: a pool took it and [pools] are the pools after. *)
Fixpoint deallocate_loop (addr : N) (pools : list MemoryPool)
    : option (option (list MemoryPool)) :=
  match pools with
  | [] => Some None
  | pool :: r =>
      match freeBlocks pool with
      | [] => None
      | poolStart :: _ =>
          let poolEnd :=
            add64 poolStart (mul64 (totalBlocks pool) (blockSize pool)) in
          if (poolStart <=? addr) && (addr <? poolEnd) then
            Some (Some (mkPool (blockSize pool) (freeBlocks pool ++ [addr])
                          (totalBlocks pool) (sub64 (usedBlocks pool) 1) :: r))
          else
            match deallocate_loop addr r with
            | Some (Some r') => Some (Some (pool :: r'))
            | other => other
            end
      end
  end.

Definition deallocate (addr : N) (now : time_point)
    : program -> outcome program unit :=
  do_ RECORD_DEALLOCATION addr;
  fun w =>
    match deallocate_loop addr (memoryPools (this w)) with
    | None => Undefined
    | Some (Some pools) =>
        on_this
          (do_ modify (set_memoryPools (fun _ => pools));
           modify (set_profiler (MemoryProfiler.recordDeallocation addr now)))
          w
    | Some None =>
        on_this
          (do_ on_base (MemoryAllocator.deallocate addr);
           do_ modify (set_profiler (MemoryProfiler.recordDeallocation addr now));
           modify updatePoolUtilization)
          w
    end.

Definition enableAdaptiveMode (enable : bool) : t -> outcome t unit :=
  do_ modify (set_adaptiveMode enable);
  if enable then
    do_ modify (set_params (set_operations 0));
    adaptStrategy
  else ret tt.

End AdaptiveMemoryAllocator.

(** * Properties of the arena: definitions *)

Import MemoryAllocator.

(** From [start], every block begins where its predecessor ends, and the last
    one ends at [stop] (no gap, no overlap, no wrap-around). *)
Fixpoint contiguous (start : N) (l : list node) (stop : N) : Prop :=
  match l with
  | [] => start = stop
  | n :: r => address n.2 = start /\ contiguous (start + size n.2) r stop
  end.

(** No two neighbouring blocks are both free. *)
Fixpoint no_adjacent_free (l : list node) : bool :=
  match l with
  | [] => true
  | n1 :: r =>
      match r with
      | [] => true
      | n2 :: _ => negb (isFree n1.2 && isFree n2.2)
      end && no_adjacent_free r
  end.

(** The pairs (node, base address) of the blocks, in list order. *)
Definition index (l : list node) : list (iterator * N) :=
  map (fun n : node => (n.1, address n.2)) l.
Arguments index : simpl never.

(** The block invariants of the arena, but for coalescing: the blocks tile
    [0, totalMemorySize) in address order, no two blocks share a node or a
    base address, and [addressMap] sends exactly the base address of every
    block of the list to its node. *)
Record arena_wf (a : t) : Prop := mk_arena_wf {
  inv_bound : totalMemorySize a < two64;
  inv_layout : contiguous 0 (memoryBlocks a) (totalMemorySize a);
  inv_addresses : NoDup (index (memoryBlocks a)).*2;
  inv_iterators : NoDup (index (memoryBlocks a)).*1;
  inv_fresh :
    Forall (fun n : node => (n.1 < next_iterator a)%nat) (memoryBlocks a);
  inv_lookup : forall addr it,
    addressMap a !! addr = Some it <-> (it, addr) ∈ index (memoryBlocks a)
}.

(** The block invariants of the arena. *)
Definition arena_inv (a : t) : Prop :=
  arena_wf a /\ no_adjacent_free (memoryBlocks a) = true.

(** The state after [allocate sz] has chosen the block [b] of the node [it],
    which lies between [l1] and [l2]: split when larger than [sz], then
    marked as allocated. *)
Definition allocated (a : t) (l1 : list node) (it : iterator) (b : MemoryBlock)
    (l2 : list node) (sz : N) : t :=
  if sz <? size b then
    with_blocks a
      (l1 ++ (it, mkBlock (address b) sz false)
          :: (next_iterator a, mkBlock (address b + sz) (size b - sz) true)
          :: l2)
      (<[ address b + sz := next_iterator a ]> (addressMap a))
      (S (next_iterator a))
  else
    with_blocks a (l1 ++ (it, mkBlock (address b) (size b) false) :: l2)
      (addressMap a) (next_iterator a).

(** The state in which a call ends, whether it returns or throws. *)
Definition ends_in {S A} (o : outcome S A) (s : S) : Prop :=
  match o with
  | Returned _ s' | Thrown _ s' => s' = s
  | Undefined => False
  end.

(** The arena states that the public operations can produce. *)
Inductive reachable : t -> Prop :=
| reach_new sz strat :
    sz < two64 -> reachable (new sz strat)
| reach_allocate a sz a' :
    reachable a -> ends_in (allocate sz a) a' -> reachable a'
| reach_deallocate a addr a' :
    reachable a -> ends_in (deallocate addr a) a' -> reachable a'
| reach_setAllocationStrategy a strat :
    reachable a -> reachable (setAllocationStrategy strat a).

(** The state in which a call ends; [d] where the behaviour is undefined. *)
Definition final {S A} (o : outcome S A) (d : S) : S :=
  match o with
  | Returned _ s | Thrown _ s => s
  | Undefined => d
  end.

(** Example states: the first seed scenario of the spec, on an arena of 1024
    bytes under FIRST_FIT. *)
Definition arena0 : t := new 1024 FIRST_FIT.
Definition arena1 : t := final (allocate 100 arena0) arena0.
Definition arena2 : t := final (allocate 200 arena1) arena1.
Definition arena3 : t := final (deallocate 0 arena2) arena2.
Definition arena4 : t := final (allocate 50 arena3) arena3.

(** * Properties of the profiler and of the controller: definitions *)

(** [r] is an active record of the address [addr]. *)
Definition active_at (addr : N) (r : MemoryProfiler.AllocationRecord) : bool :=
  (MemoryProfiler.address r =? addr) && MemoryProfiler.isActive r.

(** The position in a history (oldest record first) of the oldest active
    record of an address, and of its most recent active record. *)
Fixpoint oldest_active (addr : N) (h : list MemoryProfiler.AllocationRecord)
    : option nat :=
  match h with
  | [] => None
  | r :: rest =>
      if active_at addr r then Some O else S <$> oldest_active addr rest
  end.

Fixpoint most_recent_active (addr : N)
    (h : list MemoryProfiler.AllocationRecord) : option nat :=
  match h with
  | [] => None
  | r :: rest =>
      match most_recent_active addr rest with
      | Some i => Some (S i)
      | None => if active_at addr r then Some O else None
      end
  end.

(** A record once its deallocation at [now] is recorded. *)
Definition deactivated (now : time_point) (r : MemoryProfiler.AllocationRecord)
    : MemoryProfiler.AllocationRecord :=
  MemoryProfiler.mkRecord (MemoryProfiler.size r) (MemoryProfiler.address r)
    (MemoryProfiler.allocationTime r) now false (MemoryProfiler.poolId r).

(** The lifetime statistics once the deallocation of [r] at [now] is
    recorded. *)
Definition with_lifetime (now : time_point) (r : MemoryProfiler.AllocationRecord)
    (d : gmap N (list double)) : gmap N (list double) :=
  <[ MemoryProfiler.size r :=
       default [] (d !! MemoryProfiler.size r)
         ++ [of_count (milliseconds (now - MemoryProfiler.allocationTime r))] ]> d.

(** The sentence of the spec about [recordDeallocation]: the record modified
    is the most recent active record of the address. *)
Definition modifies_most_recent_active (addr : N) (now : time_point)
    (p : MemoryProfiler.t) : Prop :=
  forall i r,
    most_recent_active addr (MemoryProfiler.allocationHistory p) = Some i ->
    MemoryProfiler.allocationHistory p !! i = Some r ->
    MemoryProfiler.allocationHistory (MemoryProfiler.recordDeallocation addr now p)
    = <[ i := deactivated now r ]> (MemoryProfiler.allocationHistory p).

(** A history with two active records of the address 100, recorded at the
    clock readings 1 and 2. *)
Definition profiler2 : MemoryProfiler.t :=
  MemoryProfiler.recordAllocation 8 100 0 2
    (MemoryProfiler.recordAllocation 8 100 0 1 MemoryProfiler.new).

(** Example states of the program: a controller over 4096 bytes
    ([program0]); 16 bytes allocated from the arena at the clock reading 5
    ([program1]); then a pool of five slots of 64 bytes, carved at address 16
    ([program2]), with all its slots handed out ([program_full]); or a pool
    of ten slots ([program10]) with one slot handed out ([program11]) and the
    arena block at 0 released ([program12]). *)
Definition program0 : AdaptiveMemoryAllocator.program :=
  AdaptiveMemoryAllocator.start 4096.
Definition program1 : AdaptiveMemoryAllocator.program :=
  final (AdaptiveMemoryAllocator.allocate 16 5 program0) program0.
Definition program2 : AdaptiveMemoryAllocator.program :=
  final (AdaptiveMemoryAllocator.on_this
           (AdaptiveMemoryAllocator.createMemoryPool 64 5) program1) program1.
Definition program_full : AdaptiveMemoryAllocator.program :=
  Nat.iter 5 (fun w => final (AdaptiveMemoryAllocator.allocate 64 7 w) w) program2.
Definition program10 : AdaptiveMemoryAllocator.program :=
  final (AdaptiveMemoryAllocator.on_this
           (AdaptiveMemoryAllocator.createMemoryPool 64 10) program1) program1.
Definition program11 : AdaptiveMemoryAllocator.program :=
  final (AdaptiveMemoryAllocator.allocate 64 7 program10) program10.
Definition program12 : AdaptiveMemoryAllocator.program :=
  final (AdaptiveMemoryAllocator.deallocate 0 9 program11) program11.

(** * Further properties: definitions *)

(** The bytes of all the blocks of a list, and of its free blocks (exact
    sums). *)
Definition total_bytes (l : list node) : N :=
  foldr (fun (n : node) acc => size n.2 + acc) 0 l.
Definition free_bytes (l : list node) : N :=
  foldr (fun (n : node) acc => if isFree n.2 then size n.2 + acc else acc) 0 l.

(** Calls of the profiler, and the profiler after a sequence of calls on a
    fresh one. *)
Inductive profiler_call :=
| RecordAllocation (sz addr pool : N) (now : time_point)
| RecordDeallocation (addr : N) (now : time_point).

Definition profiler_step (p : MemoryProfiler.t) (c : profiler_call)
    : MemoryProfiler.t :=
  match c with
  | RecordAllocation sz addr pool now =>
      MemoryProfiler.recordAllocation sz addr pool now p
  | RecordDeallocation addr now => MemoryProfiler.recordDeallocation addr now p
  end.

Definition profiler_run (calls : list profiler_call) : MemoryProfiler.t :=
  fold_left profiler_step calls MemoryProfiler.new.

(** An example: two allocations, the release of the first and a third
    allocation at the address released. *)
Definition calls4 : list profiler_call :=
  [RecordAllocation 8 100 0 1; RecordAllocation 16 200 0 2;
   RecordDeallocation 100 3; RecordAllocation 8 100 0 4].



Definition is_allocation (c : profiler_call) : bool :=
  match c with RecordAllocation _ _ _ _ => true | _ => false end.
Definition is_allocation_of (sz : N) (c : profiler_call) : bool :=
  match c with RecordAllocation sz' _ _ _ => sz' =? sz | _ => false end.

(** The frequency recorded for a size (0 when the size has no entry), and
    the number of [recordAllocation] calls of a sequence of calls. *)
Definition frequency (p : MemoryProfiler.t) (sz : N) : N :=
  default 0 (MemoryProfiler.sizeFrequency p !! sz).
Definition recorded_allocations (calls : list profiler_call) : N :=
  N.of_nat (length (List.filter is_allocation calls)).

(** A record that [getPerformanceMetrics] counts as a successful allocation:
    it is active, or its deallocation time is not the epoch. *)
Definition counted_successful (r : MemoryProfiler.AllocationRecord) : bool :=
  MemoryProfiler.isActive r
  || negb (Z.eqb (MemoryProfiler.deallocationTime r) time_point_default).

(** The size variance that [determineOptimalStrategy] computes from a
    pattern ([None] when [commonSizes[0]] is read from an empty vector). *)
Definition size_variance (pattern : MemoryProfiler.AllocationPattern)
    : option double :=
  fold_left
    (fun (acc : option double) (e : N * double) =>
       match acc, MemoryProfiler.commonSizes pattern with
       | Some v, c0 :: _ =>
           let d := of_size_t (sub64 e.1 c0) in
           Some (dadd v (dmul (dmul d d) e.2))
       | _, _ => None
       end)
    (entries (MemoryProfiler.sizeDistribution pattern)) (Some (Fin 0)).

(** The sum of a quantity over a range, without wrap-around. *)
Definition sum_of {A} (g : A -> N) (k : list A) : N :=
  foldr (fun e acc => g e + acc) 0 k.

(** * Properties of the arena: proofs *)

Section Arithmetic.

Lemma wrap_small x : x < two64 -> wrap x = x.
Proof. intros H. unfold wrap. by apply N.mod_small. Qed.

Lemma add64_small a b : a + b < two64 -> add64 a b = a + b.
Proof. apply wrap_small. Qed.

Lemma sub64_small a b : b <= a -> a < two64 -> sub64 a b = a - b.
Proof.
  intros Hle Hlt. unfold sub64. rewrite (wrap_small b) by lia.
  replace (a + (two64 - b)) with ((a - b) + 1 * two64) by lia.
  unfold wrap. rewrite N.Div0.mod_add. apply N.mod_small. lia.
Qed.

End Arithmetic.

Section Nodes.

Implicit Types (l : list node) (it : iterator) (b : MemoryBlock).

Lemma deref_app_skip l1 l2 it :
  it ∉ l1.*1 -> deref (l1 ++ l2) it = deref l2 it.
Proof.
  induction l1 as [|[i b] l1 IH]; simpl; [done|].
  intros Hn. apply not_elem_of_cons in Hn as [Hne Hn].
  destruct (Nat.eqb_spec i it); [congruence | auto].
Qed.

Lemma deref_here l1 l2 it b :
  it ∉ l1.*1 -> deref (l1 ++ (it, b) :: l2) it = Some b.
Proof.
  intros Hn. rewrite deref_app_skip by done. simpl. by rewrite Nat.eqb_refl.
Qed.

Lemma deref_Some_split l it b :
  deref l it = Some b ->
  exists l1 l2, l = l1 ++ (it, b) :: l2 /\ it ∉ l1.*1.
Proof.
  induction l as [|[i b'] l IH]; simpl; [done|].
  destruct (Nat.eqb_spec i it) as [->|Hne].
  - intros [= ->]. exists [], l. split; [done|]. simpl. apply not_elem_of_nil.
  - intros H. destruct (IH H) as (l1 & l2 & -> & Hn).
    exists ((i, b') :: l1), l2. split; [done|].
    simpl. apply not_elem_of_cons. split; [congruence | done].
Qed.

Lemma deref_elem l it b :
  NoDup l.*1 -> (it, b) ∈ l -> deref l it = Some b.
Proof.
  induction l as [|[i b'] l IH]; simpl; intros Hnd Hin.
  - by apply elem_of_nil in Hin.
  - apply NoDup_cons in Hnd as [Hni Hnd].
    apply elem_of_cons in Hin as [[= -> ->]|Hin].
    + by rewrite Nat.eqb_refl.
    + destruct (Nat.eqb_spec i it) as [->|Hne]; [|auto].
      exfalso. apply Hni. apply list_elem_of_fmap. by exists (it, b).
Qed.

Lemma update_node_here f l1 l2 it b :
  it ∉ l1.*1 ->
  update_node it f (l1 ++ (it, b) :: l2) = l1 ++ (it, f b) :: l2.
Proof.
  induction l1 as [|[i b'] l1 IH]; simpl; intros Hn.
  - by rewrite Nat.eqb_refl.
  - apply not_elem_of_cons in Hn as [Hne Hn].
    destruct (Nat.eqb_spec i it); [congruence|]. by rewrite IH.
Qed.

Lemma insert_after_here n l1 l2 it b :
  it ∉ l1.*1 ->
  insert_after it n (l1 ++ (it, b) :: l2) = l1 ++ (it, b) :: n :: l2.
Proof.
  induction l1 as [|[i b'] l1 IH]; simpl; intros Hn.
  - by rewrite Nat.eqb_refl.
  - apply not_elem_of_cons in Hn as [Hne Hn].
    destruct (Nat.eqb_spec i it); [congruence|]. by rewrite IH.
Qed.

End Nodes.
Section Placement.

Lemma fold_best_fits sz l acc it :
  (fold_left (best_step sz) l acc).1 = Some it ->
  acc.1 = Some it \/ exists b, (it, b) ∈ l /\ fits sz b = true.
Proof.
  revert acc. induction l as [|[i b] l IH]; intros acc H; simpl in *.
  - by left.
  - apply IH in H as [H|(b' & Hin & Hf)].
    + unfold best_step in H. simpl in H.
      destruct (fits sz b) eqn:Hf; [|by left].
      destruct (_ <? _); [|by left].
      simpl in H. injection H as ->. right. exists b. split; [left|done].
    + right. exists b'. split; [by right|done].
Qed.

Lemma fold_worst_fits sz l acc it :
  (fold_left (worst_step sz) l acc).1 = Some it ->
  acc.1 = Some it \/ exists b, (it, b) ∈ l /\ fits sz b = true.
Proof.
  revert acc. induction l as [|[i b] l IH]; intros acc H; simpl in *.
  - by left.
  - apply IH in H as [H|(b' & Hin & Hf)].
    + unfold worst_step in H. simpl in H.
      destruct (fits sz b) eqn:Hf; [|by left].
      destruct (_ <? _); [|by left].
      simpl in H. injection H as ->. right. exists b. split; [left|done].
    + right. exists b'. split; [by right|done].
Qed.

Lemma findSuitableBlock_fits a sz it :
  findSuitableBlock a sz = Some it ->
  exists b, (it, b) ∈ memoryBlocks a /\ fits sz b = true.
Proof.
  unfold findSuitableBlock. destruct (strategy a).
  - destruct (List.find _ _) as [[i b]|] eqn:Hf; [|done].
    intros [= ->]. apply find_some in Hf as [Hin Hfit].
    exists b. split; [by apply list_elem_of_In|done].
  - intros H. by apply fold_best_fits in H as [H|H].
  - intros H. by apply fold_worst_fits in H as [H|H].
Qed.

End Placement.

Section Layout.

Implicit Types (l : list node) (n : node).

Lemma contiguous_app s l1 l2 e :
  contiguous s (l1 ++ l2) e <->
  exists m, contiguous s l1 m /\ contiguous m l2 e.
Proof.
  revert s. induction l1 as [|n l1 IH]; intros s; simpl.
  - split; [intros H; by exists s|intros (m & -> & H); done].
  - rewrite IH. split.
    + intros (Ha & m & H1 & H2). by exists m.
    + intros (m & [Ha H1] & H2). split; [done|by exists m].
Qed.

Lemma contiguous_le s l e : contiguous s l e -> s <= e.
Proof.
  revert s. induction l as [|n l IH]; intros s; simpl.
  - intros ->. lia.
  - intros [_ H]. apply IH in H. lia.
Qed.

Lemma contiguous_elem s l e n :
  contiguous s l e -> n ∈ l ->
  s <= address n.2 /\ address n.2 + size n.2 <= e.
Proof.
  revert s. induction l as [|n' l IH]; intros s; simpl.
  - intros _ H. by apply elem_of_nil in H.
  - intros [Ha Hc] Hin. apply elem_of_cons in Hin as [->|Hin].
    + apply contiguous_le in Hc. lia.
    + destruct (IH _ Hc Hin). lia.
Qed.

Lemma naf_app_cons l1 n l2 :
  no_adjacent_free (l1 ++ n :: l2)
  = no_adjacent_free (l1 ++ [n]) && no_adjacent_free (n :: l2).
Proof.
  induction l1 as [|n1 l1 IH].
  - done.
  - change ((n1 :: l1) ++ n :: l2) with (n1 :: (l1 ++ n :: l2)).
    change ((n1 :: l1) ++ [n]) with (n1 :: (l1 ++ [n])).
    cbn [no_adjacent_free]. rewrite IH.
    destruct l1; simpl; rewrite ?andb_true_r, ?andb_assoc; reflexivity.
Qed.

Lemma naf_snoc_flag l1 n n' :
  isFree n'.2 = isFree n.2 ->
  no_adjacent_free (l1 ++ [n']) = no_adjacent_free (l1 ++ [n]).
Proof.
  intros Hf. induction l1 as [|n1 l1 IH]; [done|].
  change ((n1 :: l1) ++ [n']) with (n1 :: (l1 ++ [n'])).
  change ((n1 :: l1) ++ [n]) with (n1 :: (l1 ++ [n])).
  cbn [no_adjacent_free]. rewrite IH.
  destruct l1; simpl; by rewrite ?Hf.
Qed.

Lemma naf_snoc_allocated l1 n n' :
  isFree n'.2 = false ->
  no_adjacent_free (l1 ++ [n]) = true ->
  no_adjacent_free (l1 ++ [n']) = true.
Proof.
  intros Hf. induction l1 as [|n1 l1 IH]; [done|].
  change ((n1 :: l1) ++ [n']) with (n1 :: (l1 ++ [n'])).
  change ((n1 :: l1) ++ [n]) with (n1 :: (l1 ++ [n])).
  cbn [no_adjacent_free]. intros [H1 H2]%andb_true_iff.
  rewrite IH by done. rewrite andb_true_r.
  destruct l1; simpl in *; [by rewrite Hf, andb_false_r|done].
Qed.

End Layout.
Section Allocate.

Implicit Types (l : list node) (a : t).

Lemma block_bound a n :
  arena_wf a -> n ∈ memoryBlocks a ->
  address n.2 + size n.2 <= totalMemorySize a /\ totalMemorySize a < two64.
Proof.
  intros Hwf Hin. split; [|apply Hwf].
  by destruct (contiguous_elem _ _ _ _ (inv_layout _ Hwf) Hin).
Qed.

Lemma allocate_Thrown a sz e a' : allocate sz a = Thrown e a' -> a' = a.
Proof.
  unfold allocate. destruct (sz =? 0); [congruence|].
  destruct (findSuitableBlock a sz); [|congruence].
  destruct (deref _ _); [|done].
  by destruct (if sz <? size m then _ else _).
Qed.

Lemma allocate_eval a sz it b l1 l2 :
  arena_wf a -> sz <> 0 ->
  findSuitableBlock a sz = Some it ->
  memoryBlocks a = l1 ++ (it, b) :: l2 -> it ∉ l1.*1 -> sz <= size b ->
  allocate sz a = Returned (address b) (allocated a l1 it b l2 sz).
Proof.
  intros Hwf Hsz Hfind Hl Hn Hle.
  assert (Hb : address b + size b <= totalMemorySize a /\ totalMemorySize a < two64).
  { apply (block_bound a (it, b)); [done|]. rewrite Hl.
    apply elem_of_app. right. left. }
  unfold allocate, allocated.
  destruct (N.eqb_spec sz 0); [done|]. rewrite Hfind.
  rewrite Hl, deref_here by done.
  destruct (N.ltb_spec sz (size b)) as [Hlt|Hge].
  - unfold splitBlock. rewrite Hl, deref_here by done.
    rewrite sub64_small by lia.
    destruct (N.ltb_spec 0 (size b - sz)); [|lia].
    rewrite add64_small by lia. cbn [memoryBlocks with_blocks addressMap next_iterator].
    rewrite insert_after_here, !update_node_here by done.
    reflexivity.
  - cbv beta iota. rewrite Hl, update_node_here by done. reflexivity.
Qed.

Lemma allocate_Returned a sz addr a' :
  arena_wf a -> allocate sz a = Returned addr a' ->
  exists it l1 b l2,
    memoryBlocks a = l1 ++ (it, b) :: l2 /\ (it ∉ l1.*1) /\
    isFree b = true /\ sz <> 0 /\ sz <= size b /\
    findSuitableBlock a sz = Some it /\
    addr = address b /\ a' = allocated a l1 it b l2 sz.
Proof.
  intros Hwf H.
  destruct (N.eq_dec sz 0) as [->|Hsz]; [done|].
  destruct (findSuitableBlock a sz) as [it|] eqn:Hfind; cycle 1.
  { unfold allocate in H. rewrite Hfind in H.
    by destruct (sz =? 0). }
  destruct (findSuitableBlock_fits _ _ _ Hfind) as (b & Hin & Hfit).
  apply andb_true_iff in Hfit as [Hfree Hle]. apply N.leb_le in Hle.
  assert (Hd : deref (memoryBlocks a) it = Some b).
  { apply deref_elem; [|done]. pose proof (inv_iterators _ Hwf) as Hnd.
    unfold index in Hnd. by rewrite <- list_fmap_compose in Hnd. }
  destruct (deref_Some_split _ _ _ Hd) as (l1 & l2 & Hl & Hn).
  rewrite (allocate_eval a sz it b l1 l2) in H by done.
  injection H as <- <-. by exists it, l1, b, l2.
Qed.

Lemma allocate_defined a sz : arena_wf a -> allocate sz a <> Undefined.
Proof.
  intros Hwf.
  destruct (N.eq_dec sz 0) as [->|Hsz]; [done|].
  destruct (findSuitableBlock a sz) as [it|] eqn:Hfind; cycle 1.
  { unfold allocate. rewrite Hfind. by destruct (sz =? 0). }
  destruct (findSuitableBlock_fits _ _ _ Hfind) as (b & Hin & Hfit).
  apply andb_true_iff in Hfit as [Hfree Hle]. apply N.leb_le in Hle.
  assert (Hd : deref (memoryBlocks a) it = Some b).
  { apply deref_elem; [|done]. pose proof (inv_iterators _ Hwf) as Hnd.
    unfold index in Hnd. by rewrite <- list_fmap_compose in Hnd. }
  destruct (deref_Some_split _ _ _ Hd) as (l1 & l2 & Hl & Hn).
  by rewrite (allocate_eval a sz it b l1 l2).
Qed.

End Allocate.
Section AllocatePreserves.

Implicit Types (l : list node) (n : node) (a : t).

Lemma index_app l1 l2 : index (l1 ++ l2) = index l1 ++ index l2.
Proof. unfold index. apply fmap_app. Qed.

Lemma index_elem l it addr :
  (it, addr) ∈ index l <-> exists b, (it, b) ∈ l /\ address b = addr.
Proof.
  unfold index. rewrite list_elem_of_fmap. split.
  - intros ([i b] & [= -> ->] & Hin). by exists b.
  - intros (b & Hin & <-). by exists (it, b).
Qed.

Lemma index_cons n l : index (n :: l) = (n.1, address n.2) :: index l.
Proof. done. Qed.

Lemma index_fst l : (index l).*1 = l.*1.
Proof. unfold index. rewrite <- list_fmap_compose. done. Qed.

Lemma fresh_iterator a : arena_wf a -> next_iterator a ∉ (index (memoryBlocks a)).*1.
Proof.
  intros Hwf Hin. rewrite index_fst in Hin.
  apply list_elem_of_fmap in Hin as (n & Hn & Hin).
  pose proof (inv_fresh _ Hwf) as Hf. rewrite Forall_forall in Hf.
  apply Hf in Hin. lia.
Qed.

Lemma fresh_address a l1 it b l2 sz :
  arena_wf a -> memoryBlocks a = l1 ++ (it, b) :: l2 ->
  sz <> 0 -> sz < size b ->
  address b + sz ∉ (index (memoryBlocks a)).*2.
Proof.
  intros Hwf Hl Hsz Hlt Hin.
  apply list_elem_of_fmap in Hin as ([i addr] & Heq & Hin). simpl in Heq. subst addr.
  apply index_elem in Hin as (b' & Hin & Hb').
  pose proof (inv_layout _ Hwf) as Hc. rewrite Hl in Hc, Hin.
  apply contiguous_app in Hc as (m & Hc1 & Hc2). destruct Hc2 as [Ha Hc2].
  simpl in Ha, Hc2.
  apply elem_of_app in Hin as [Hin|Hin].
  - destruct (contiguous_elem _ _ _ _ Hc1 Hin) as [_ H]. simpl in H. lia.
  - apply elem_of_cons in Hin as [[= -> ->]|Hin]; [lia|].
    destruct (contiguous_elem _ _ _ _ Hc2 Hin) as [H _]. simpl in H. lia.
Qed.

Lemma allocated_wf a l1 it b l2 sz :
  arena_wf a -> memoryBlocks a = l1 ++ (it, b) :: l2 ->
  sz <> 0 -> sz <= size b ->
  arena_wf (allocated a l1 it b l2 sz).
Proof.
  intros Hwf Hl Hsz Hle. unfold allocated.
  pose proof (fresh_iterator _ Hwf) as Hfi.
  pose proof (inv_layout _ Hwf) as Hc.
  pose proof (inv_addresses _ Hwf) as Hna.
  pose proof (inv_iterators _ Hwf) as Hni.
  pose proof (inv_fresh _ Hwf) as Hfr.
  pose proof (inv_lookup _ Hwf) as Hlk.
  destruct (N.ltb_spec sz (size b)) as [Hlt|Hge].
  - pose proof (fresh_address _ _ _ _ _ _ Hwf Hl Hsz Hlt) as Hfa.
    rewrite Hl in Hc, Hna, Hni, Hfr, Hlk, Hfi, Hfa.
    rewrite index_app, index_cons in Hna, Hni, Hlk, Hfi, Hfa.
    rewrite fmap_app, fmap_cons in Hna. rewrite fmap_app, fmap_cons in Hni.
    rewrite fmap_app, fmap_cons in Hfi. rewrite fmap_app, fmap_cons in Hfa.
    cbn [fst snd] in Hna, Hni, Hlk, Hfi, Hfa.
    split; cbn [with_blocks totalMemorySize memoryBlocks addressMap next_iterator].
    + apply Hwf.
    + apply contiguous_app in Hc as (m & Hc1 & Ha & Hc2). simpl in Ha, Hc2.
      apply contiguous_app. exists m. split; [done|]. simpl.
      split; [done|]. split; [lia|].
      by replace (m + sz + (size b - sz)) with (m + size b) by lia.
    + rewrite index_app, !index_cons, fmap_app, !fmap_cons.
      cbn [fst snd address].
      apply NoDup_app in Hna as (Hn1 & Hn12 & Hn2).
      apply NoDup_cons in Hn2 as [Hb2 Hn2].
      apply not_elem_of_app in Hfa as [Hfa1 Hfa2].
      apply not_elem_of_cons in Hfa2 as [Hfab Hfa2].
      apply NoDup_app. split; [done|]. split.
      * intros x Hx Hx'. apply elem_of_cons in Hx' as [->|Hx'].
        { apply (Hn12 _ Hx). left. }
        apply elem_of_cons in Hx' as [->|Hx']; [done|].
        apply (Hn12 _ Hx). by right.
      * apply NoDup_cons. split.
        { apply not_elem_of_cons. split; [lia|done]. }
        apply NoDup_cons. by split.
    + rewrite index_app, !index_cons, fmap_app, !fmap_cons.
      cbn [fst snd address].
      apply NoDup_app in Hni as (Hn1 & Hn12 & Hn2).
      apply NoDup_cons in Hn2 as [Hb2 Hn2].
      apply not_elem_of_app in Hfi as [Hfi1 Hfi2].
      apply not_elem_of_cons in Hfi2 as [Hfib Hfi2].
      apply NoDup_app. split; [done|]. split.
      * intros x Hx Hx'. apply elem_of_cons in Hx' as [->|Hx'].
        { apply (Hn12 _ Hx). left. }
        apply elem_of_cons in Hx' as [->|Hx']; [done|].
        apply (Hn12 _ Hx). by right.
      * apply NoDup_cons. split.
        { apply not_elem_of_cons. split; [congruence|done]. }
        apply NoDup_cons. by split.
    + apply Forall_app in Hfr as [Hf1 Hf2]. apply Forall_cons in Hf2 as [Hfb Hf2].
      apply Forall_app. split.
      * eapply Forall_impl; [exact Hf1|]. simpl. lia.
      * apply Forall_cons_2; [simpl in *; lia|].
        apply Forall_cons_2; [simpl; lia|].
        eapply Forall_impl; [exact Hf2|]. simpl. lia.
    + intros addr i. rewrite index_app, !index_cons. cbn [fst snd address].
      destruct (decide (addr = address b + sz)) as [->|Hne].
      * rewrite lookup_insert_eq. split.
        { intros [= <-]. apply elem_of_app. right. right. left. }
        intros Hin. apply elem_of_app in Hin as [Hin|Hin].
        { exfalso. apply Hfa. apply elem_of_app. left.
          apply list_elem_of_fmap. by exists (i, address b + sz). }
        apply elem_of_cons in Hin as [Heq|Hin]; [injection Heq; lia|].
        apply elem_of_cons in Hin as [Heq|Hin]; [by injection Heq as ->|].
        exfalso. apply Hfa. apply elem_of_app. right. right.
        apply list_elem_of_fmap. by exists (i, address b + sz).
      * rewrite lookup_insert_ne by done. rewrite Hlk.
        rewrite !elem_of_app, !elem_of_cons. split.
        { intros [?|[?|?]]; auto. }
        intros [?|[?|[[= _ ?]|?]]]; auto. done.
  - assert (Hidx : index (l1 ++ (it, mkBlock (address b) (size b) false) :: l2)
                   = index (memoryBlocks a)).
    { by rewrite Hl, !index_app, !index_cons. }
    split; cbn [with_blocks totalMemorySize memoryBlocks addressMap next_iterator];
      rewrite ?Hidx; try apply Hwf.
    + rewrite Hl in Hc. apply contiguous_app in Hc as (m & Hc1 & Ha & Hc2).
      apply contiguous_app. exists m. by split.
    + rewrite Hl in Hfr. apply Forall_app in Hfr as [Hf1 Hf2].
      apply Forall_cons in Hf2 as [Hfb Hf2].
      apply Forall_app. split; [done|]. by apply Forall_cons.
Qed.

Lemma naf_cons_allocated n l :
  isFree n.2 = false -> no_adjacent_free (n :: l) = no_adjacent_free l.
Proof. intros H. simpl. destruct l; simpl; [done|]. by rewrite H. Qed.

Lemma allocated_naf a l1 it b l2 sz :
  memoryBlocks a = l1 ++ (it, b) :: l2 -> isFree b = true ->
  no_adjacent_free (memoryBlocks a) = true ->
  no_adjacent_free (memoryBlocks (allocated a l1 it b l2 sz)) = true.
Proof.
  intros Hl Hfree Hnaf. rewrite Hl in Hnaf.
  rewrite naf_app_cons in Hnaf. apply andb_true_iff in Hnaf as [H1 H2].
  unfold allocated. destruct (sz <? size b); cbn [memoryBlocks with_blocks].
  - rewrite naf_app_cons. apply andb_true_iff. split.
    + by apply (naf_snoc_allocated l1 (it, b)).
    + rewrite naf_cons_allocated by done.
      simpl in *. rewrite Hfree in H2. destruct l2; simpl in *; done.
  - rewrite naf_app_cons. apply andb_true_iff. split.
    + by apply (naf_snoc_allocated l1 (it, b)).
    + rewrite naf_cons_allocated by done.
      simpl in H2. destruct l2; [done|]. by apply andb_true_iff in H2 as [_ H2].
Qed.

End AllocatePreserves.
Section Merge.

Implicit Types (l rest : list node) (it n : node) (m : gmap N iterator) (a : t).

Lemma sublist_fmap {A B} (f : A -> B) (l1 l2 : list A) :
  l1 `sublist_of` l2 -> f <$> l1 `sublist_of` f <$> l2.
Proof. apply fmap_sublist. Qed.

Lemma sublist_elem_of {A} (l1 l2 : list A) x :
  l1 `sublist_of` l2 -> x ∈ l1 -> x ∈ l2.
Proof. intros Hs Hx. by eapply elem_of_sublist. Qed.

Lemma merge_from_head it rest m :
  exists b tl, (merge_from it rest m).1 = (it.1, b) :: tl /\
    isFree b = isFree it.2 /\ address b = address it.2.
Proof.
  revert it m. induction rest as [|nx rest IH]; intros it m; simpl.
  - exists it.2, []. by destruct it.
  - destruct (isFree it.2 && isFree nx.2).
    + destruct (IH (it.1, set_size (add64 (size it.2) (size nx.2)) it.2)
                  (delete (address nx.2) m)) as (b & tl & H & Hf & Ha).
      by exists b, tl.
    + destruct (merge_from nx rest m) as [l m']. exists it.2, l. by destruct it.
Qed.

Lemma merge_from_naf it rest m :
  no_adjacent_free (merge_from it rest m).1 = true.
Proof.
  revert it m. induction rest as [|nx rest IH]; intros it m; simpl; [done|].
  destruct (isFree it.2 && isFree nx.2) eqn:E; [apply IH|].
  pose proof (IH nx m) as Hn.
  destruct (merge_from_head nx rest m) as (b & tl & Hhd & Hf & _).
  destruct (merge_from nx rest m) as [l m']. cbn [fst] in *. subst l.
  change (no_adjacent_free (it :: (nx.1, b) :: tl))
    with (negb (isFree it.2 && isFree b) && no_adjacent_free ((nx.1, b) :: tl)).
  by rewrite Hn, Hf, E.
Qed.

Lemma merge_from_index it rest m :
  index (merge_from it rest m).1 `sublist_of` index (it :: rest).
Proof.
  revert it m. induction rest as [|nx rest IH]; intros it m; simpl; [done|].
  destruct (isFree it.2 && isFree nx.2).
  - etrans; [apply IH|]. rewrite !index_cons. simpl.
    apply sublist_skip, sublist_cons. done.
  - pose proof (IH nx m) as Hn.
    destruct (merge_from nx rest m) as [l m']. simpl in *.
    rewrite !index_cons in *. by apply sublist_skip.
Qed.

Lemma merge_from_contiguous it rest m s e :
  contiguous s (it :: rest) e -> e < two64 ->
  contiguous s (merge_from it rest m).1 e.
Proof.
  revert it m s. induction rest as [|nx rest IH]; intros it m s Hc He; [done|].
  simpl. destruct (isFree it.2 && isFree nx.2).
  - apply IH; [|done]. destruct Hc as (Ha & Hb & Hc).
    pose proof (contiguous_le _ _ _ Hc). simpl.
    split; [done|]. rewrite add64_small by lia. by rewrite N.add_assoc.
  - destruct Hc as [Ha Hc]. pose proof (IH nx m _ Hc He) as Hn.
    destruct (merge_from nx rest m) as [l m']. by split.
Qed.

Lemma merge_from_map it rest m addr :
  NoDup (index (it :: rest)).*2 ->
  (addr ∈ (index (merge_from it rest m).1).*2 \/ addr ∉ (index (it :: rest)).*2 ->
   (merge_from it rest m).2 !! addr = m !! addr) /\
  (addr ∈ (index (it :: rest)).*2 ->
   addr ∉ (index (merge_from it rest m).1).*2 ->
   (merge_from it rest m).2 !! addr = None).
Proof.
  revert it m. induction rest as [|nx rest IH]; intros it m Hnd.
  { simpl. split; [done|]. intros H1 H2. done. }
  cbn [merge_from]. rewrite !index_cons, !fmap_cons in Hnd. cbn [snd] in Hnd.
  apply NoDup_cons in Hnd as [Hit Hnd]. apply not_elem_of_cons in Hit as [Hne Hit].
  pose proof Hnd as Hnd'. apply NoDup_cons in Hnd' as [Hnx Hrest].
  rewrite !index_cons, !fmap_cons. cbn [snd].
  destruct (isFree it.2 && isFree nx.2).
  - set (it' := (it.1, set_size (add64 (size it.2) (size nx.2)) it.2)) in *.
    assert (Hnd2 : NoDup (index (it' :: rest)).*2).
    { rewrite index_cons, fmap_cons. simpl. by apply NoDup_cons. }
    destruct (IH it' (delete (address nx.2) m) Hnd2) as [IH1 IH2].
    rewrite index_cons, fmap_cons in IH1, IH2. cbn [snd fst it' address set_size] in IH1, IH2.
    assert (Hsub2 : forall x, x ∈ (index (merge_from it' rest (delete (address nx.2) m)).1).*2 ->
                      x ∈ address it.2 :: (index rest).*2).
    { intros x Hx. pose proof (merge_from_index it' rest (delete (address nx.2) m)) as Hs.
      apply (sublist_fmap snd) in Hs. rewrite index_cons, fmap_cons in Hs.
      by apply (sublist_elem_of _ _ _ Hs) in Hx. }
    split.
    + intros H. assert (addr <> address nx.2) as Hneq.
      { destruct H as [H|H].
        - apply Hsub2 in H. intros ->.
          apply elem_of_cons in H as [H|H]; [congruence|done].
        - intros ->. apply H. right. left. }
      rewrite IH1, lookup_delete_ne; [done|congruence|].
      destruct H as [H|H]; [by left|right].
      intros H'. apply H. apply elem_of_cons in H' as [->|H']; [left|by right; right].
    + intros Hin Hout. destruct (decide (addr = address nx.2)) as [->|Hneq].
      * rewrite IH1, lookup_delete_eq; [done|]. right.
        intros H'. apply elem_of_cons in H' as [H'|H']; [congruence|done].
      * apply IH2; [|done].
        apply elem_of_cons in Hin as [->|Hin]; [left|].
        apply elem_of_cons in Hin as [->|Hin]; [done|by right].
  - destruct (IH nx m Hnd) as [IH1 IH2].
    pose proof (merge_from_index nx rest m) as Hs.
    destruct (merge_from nx rest m) as [l m'] eqn:E. cbn [fst snd] in *.
    rewrite !index_cons, !fmap_cons in *. cbn [snd] in *.
    assert (Hsub2 : forall x, x ∈ (index l).*2 -> x ∈ address nx.2 :: (index rest).*2).
    { intros x Hx. apply (sublist_fmap snd) in Hs. rewrite fmap_cons in Hs.
      by apply (sublist_elem_of _ _ _ Hs) in Hx. }
    split.
    + intros [H|H].
      * apply elem_of_cons in H as [->|H]; [|by apply IH1; left].
        apply IH1. right. intros H'.
        apply elem_of_cons in H' as [H'|H']; [congruence|done].
      * apply IH1. right. intros H'. apply H. by right.
    + intros Hin Hout. apply not_elem_of_cons in Hout as [Hne' Hout].
      apply IH2; [|done]. by apply elem_of_cons in Hin as [->|Hin].
Qed.

Lemma mergeFreeBlocks_inv a : arena_wf a -> arena_inv (mergeFreeBlocks a).
Proof.
  intros Hwf. unfold mergeFreeBlocks.
  destruct (memoryBlocks a) as [|it rest] eqn:Hl.
  { split; [done|]. by rewrite Hl. }
  pose proof (merge_from_naf it rest (addressMap a)) as Hnaf.
  pose proof (merge_from_index it rest (addressMap a)) as Hidx.
  pose proof (inv_layout _ Hwf) as Hc. rewrite Hl in Hc.
  pose proof (merge_from_contiguous it rest (addressMap a) _ _ Hc (inv_bound _ Hwf)) as Hc'.
  pose proof (inv_addresses _ Hwf) as Hna. rewrite Hl in Hna.
  pose proof (fun addr => merge_from_map it rest (addressMap a) addr Hna) as Hmap.
  pose proof (inv_iterators _ Hwf) as Hni. rewrite Hl in Hni.
  pose proof (inv_fresh _ Hwf) as Hfr. rewrite Hl in Hfr.
  pose proof (inv_lookup _ Hwf) as Hlk. rewrite Hl in Hlk.
  destruct (merge_from it rest (addressMap a)) as [l m'].
  cbn [fst snd] in *.
  split; [|done].
  split; cbn [with_blocks totalMemorySize memoryBlocks addressMap next_iterator].
  - apply Hwf.
  - done.
  - eapply sublist_NoDup; [exact Hna|]. by apply sublist_fmap.
  - eapply sublist_NoDup; [exact Hni|]. by apply sublist_fmap.
  - apply Forall_forall. intros n Hn.
    assert (n.1 ∈ (index (it :: rest)).*1) as Hin.
    { eapply sublist_elem_of; [apply sublist_fmap, Hidx|].
      rewrite index_fst. by apply list_elem_of_fmap_2. }
    rewrite index_fst in Hin. apply list_elem_of_fmap in Hin as (n' & -> & Hin).
    rewrite Forall_forall in Hfr. by apply Hfr.
  - intros addr i. destruct (Hmap addr) as [H1 H2]. split.
    + intros Hm. destruct (decide (addr ∈ (index l).*2)) as [Hin|Hout].
      * apply list_elem_of_fmap in Hin as ([i' addr'] & Heq & Hin). simpl in Heq. subst addr'.
        assert ((i', addr) ∈ index (it :: rest)) as Hold
          by (by eapply sublist_elem_of).
        apply Hlk in Hold. rewrite H1 in Hm by (by left; apply list_elem_of_fmap; exists (i', addr)).
        congruence.
      * destruct (decide (addr ∈ (index (it :: rest)).*2)) as [Hin|Hout'].
        { rewrite H2 in Hm by done. done. }
        rewrite H1 in Hm by (by right). apply Hlk in Hm.
        exfalso. apply Hout'. apply list_elem_of_fmap. by exists (i, addr).
    + intros Hin. rewrite H1.
      * apply Hlk. by eapply sublist_elem_of.
      * left. apply list_elem_of_fmap. by exists (i, addr).
Qed.

End Merge.
Section Deallocate.

Implicit Types (l : list node) (a : t).

Lemma reflag_wf a l1 it b l2 f :
  arena_wf a -> memoryBlocks a = l1 ++ (it, b) :: l2 ->
  arena_wf (with_blocks a (l1 ++ (it, set_isFree f b) :: l2) (addressMap a)
              (next_iterator a)).
Proof.
  intros Hwf Hl.
  assert (Hidx : index (l1 ++ (it, set_isFree f b) :: l2) = index (memoryBlocks a)).
  { by rewrite Hl, !index_app, !index_cons. }
  split; cbn [with_blocks totalMemorySize memoryBlocks addressMap next_iterator];
    rewrite ?Hidx; try apply Hwf.
  - pose proof (inv_layout _ Hwf) as Hc. rewrite Hl in Hc.
    apply contiguous_app in Hc as (m & Hc1 & Ha & Hc2).
    apply contiguous_app. exists m. by split.
  - pose proof (inv_fresh _ Hwf) as Hfr. rewrite Hl in Hfr.
    apply Forall_app in Hfr as [Hf1 Hf2].
    apply Forall_cons in Hf2 as [Hfb Hf2].
    apply Forall_app. split; [done|]. by apply Forall_cons.
Qed.

Lemma lookup_split a addr it :
  arena_wf a -> addressMap a !! addr = Some it ->
  exists l1 b l2,
    memoryBlocks a = l1 ++ (it, b) :: l2 /\ (it ∉ l1.*1) /\ address b = addr.
Proof.
  intros Hwf Hm. apply (inv_lookup _ Hwf) in Hm.
  apply index_elem in Hm as (b & Hin & Hb).
  assert (Hd : deref (memoryBlocks a) it = Some b).
  { apply deref_elem; [|done]. rewrite <- index_fst. apply Hwf. }
  destruct (deref_Some_split _ _ _ Hd) as (l1 & l2 & Hl & Hn).
  by exists l1, b, l2.
Qed.

Lemma deallocate_Thrown a addr e a' :
  deallocate addr a = Thrown e a' ->
  e = InvalidAddress /\ a' = a /\ addressMap a !! addr = None.
Proof.
  unfold deallocate. destruct (addressMap a !! addr) as [it|].
  - by destruct (deref _ _).
  - by intros [= <- <-].
Qed.

Lemma deallocate_eval a addr it l1 b l2 :
  addressMap a !! addr = Some it ->
  memoryBlocks a = l1 ++ (it, b) :: l2 -> it ∉ l1.*1 ->
  deallocate addr a =
  Returned tt
    (mergeFreeBlocks
       (with_blocks a (l1 ++ (it, set_isFree true b) :: l2) (addressMap a)
          (next_iterator a))).
Proof.
  intros Hm Hl Hn. unfold deallocate.
  by rewrite Hm, Hl, deref_here, update_node_here.
Qed.

Lemma deallocate_defined a addr : arena_wf a -> deallocate addr a <> Undefined.
Proof.
  intros Hwf. destruct (addressMap a !! addr) as [it|] eqn:Hm.
  - destruct (lookup_split _ _ _ Hwf Hm) as (l1 & b & l2 & Hl & Hn & _).
    by rewrite (deallocate_eval _ _ _ _ _ _ Hm Hl Hn).
  - unfold deallocate. by rewrite Hm.
Qed.

Lemma deallocate_inv a addr a' :
  arena_inv a -> ends_in (deallocate addr a) a' -> arena_inv a'.
Proof.
  intros [Hwf Hnaf] H.
  destruct (deallocate addr a) as [[] s|e s|] eqn:Hd; simpl in H; [| |done]; subst s.
  - destruct (addressMap a !! addr) as [it|] eqn:Hm; cycle 1.
    { unfold deallocate in Hd. by rewrite Hm in Hd. }
    destruct (lookup_split _ _ _ Hwf Hm) as (l1 & b & l2 & Hl & Hn & _).
    rewrite (deallocate_eval _ _ _ _ _ _ Hm Hl Hn) in Hd. injection Hd as <-.
    by apply mergeFreeBlocks_inv, reflag_wf.
  - apply deallocate_Thrown in Hd as (_ & -> & _). by split.
Qed.

Lemma allocate_inv a sz a' :
  arena_inv a -> ends_in (allocate sz a) a' -> arena_inv a'.
Proof.
  intros [Hwf Hnaf] H.
  destruct (allocate sz a) as [addr s|e s|] eqn:Ha; simpl in H; [| |done]; subst s.
  - apply allocate_Returned in Ha
      as (it & l1 & b & l2 & Hl & Hn & Hfree & Hsz & Hle & _ & _ & ->); [|done].
    split; [by apply allocated_wf|by apply allocated_naf].
  - apply allocate_Thrown in Ha as ->. by split.
Qed.

Lemma new_inv sz strat : sz < two64 -> arena_inv (new sz strat).
Proof.
  intros Hsz. split; [|done].
  split; cbn [new totalMemorySize memoryBlocks addressMap next_iterator].
  - done.
  - simpl. split; [done|lia].
  - apply NoDup_singleton.
  - apply NoDup_singleton.
  - apply Forall_singleton. simpl. lia.
  - intros addr it. rewrite lookup_singleton_Some.
    change (index [(0%nat, mkBlock 0 sz true)]) with [(0%nat, 0)].
    rewrite list_elem_of_singleton. split; [by intros [<- <-]|by intros [= -> ->]].
Qed.

Lemma setAllocationStrategy_inv a strat :
  arena_inv a -> arena_inv (setAllocationStrategy strat a).
Proof. intros [[] Hnaf]. by split. Qed.

Lemma reachable_inv a : reachable a -> arena_inv a.
Proof.
  induction 1 as [sz strat Hsz|a sz a' _ IH H|a addr a' _ IH H|a strat _ IH].
  - by apply new_inv.
  - by eapply allocate_inv.
  - by eapply deallocate_inv.
  - by apply setAllocationStrategy_inv.
Qed.

End Deallocate.
Section Queries.

Implicit Types (l : list node) (a : t).

Lemma largest_le_total_fold l :
  forall s e accL accT,
    contiguous s l e -> accL <= accT -> accT + (e - s) < two64 ->
    fold_left
      (fun largest (n : node) =>
         if isFree n.2 && (largest <? size n.2) then size n.2 else largest)
      l accL
    <= fold_left
         (fun total (n : node) =>
            if isFree n.2 then add64 total (size n.2) else total)
         l accT.
Proof.
  induction l as [|n l IH]; intros s e accL accT Hc Hle Hb; simpl; [done|].
  destruct Hc as [Ha Hc]. pose proof (contiguous_le _ _ _ Hc).
  destruct (isFree n.2); simpl.
  - rewrite add64_small by lia.
    destruct (N.ltb_spec accL (size n.2)); apply (IH _ _ _ _ Hc); lia.
  - apply (IH _ _ _ _ Hc); lia.
Qed.

Lemma largest_le_total a :
  arena_wf a -> getLargestFreeBlock a <= getTotalFreeMemory a.
Proof.
  intros Hwf. unfold getLargestFreeBlock, getTotalFreeMemory.
  eapply largest_le_total_fold; [apply (inv_layout _ Hwf)|done|].
  pose proof (inv_bound _ Hwf). lia.
Qed.

Lemma ratio_bounds (L T : N) :
  L <= T -> T <> 0 ->
  (0 <= 1 - inject_Z (Z.of_N L) / inject_Z (Z.of_N T) <= 1)%Q.
Proof.
  intros Hle Hne.
  assert (Hl : (0 <= inject_Z (Z.of_N L))%Q) by (rewrite <- (Zle_Qle 0); lia).
  assert (Ht : (0 < inject_Z (Z.of_N T))%Q) by (rewrite <- (Zlt_Qlt 0); lia).
  assert (Hlt : (inject_Z (Z.of_N L) <= inject_Z (Z.of_N T))%Q)
    by (rewrite <- Zle_Qle; lia).
  assert (H0 : (0 <= inject_Z (Z.of_N L) / inject_Z (Z.of_N T))%Q).
  { apply Qle_shift_div_l; [done|]. lra. }
  assert (H1 : (inject_Z (Z.of_N L) / inject_Z (Z.of_N T) <= 1)%Q).
  { apply Qle_shift_div_r; [done|]. lra. }
  split; lra.
Qed.

Lemma getFragmentationRatio_finite a :
  arena_wf a ->
  exists q, getFragmentationRatio a = Fin q /\ (0 <= q)%Q /\ (q <= 1)%Q /\
    (getTotalFreeMemory a = 0 -> q = 0%Q) /\
    (getTotalFreeMemory a <> 0 ->
     q = (1 - inject_Z (Z.of_N (getLargestFreeBlock a))
              / inject_Z (Z.of_N (getTotalFreeMemory a)))%Q).
Proof.
  intros Hwf. pose proof (largest_le_total _ Hwf) as Hle.
  unfold getFragmentationRatio.
  destruct (N.eqb_spec (getTotalFreeMemory a) 0) as [H0|Hne].
  - exists 0%Q. repeat split; done.
  - destruct (ratio_bounds _ _ Hle Hne) as [Hq0 Hq1].
    eexists. split; [|split; [exact Hq0|split; [exact Hq1|split; [done|]]]].
    + unfold of_size_t, ddiv, dsub, dadd, dneg.
      destruct (Qeq_bool _ 0) eqn:E; [|reflexivity].
      apply Qeq_bool_iff in E. unfold Qeq in E. simpl in E. lia.
    + done.
Qed.

Lemma dle_refl q : dle (Fin q) (Fin q) = true.
Proof.
  unfold dle, dlt. rewrite negb_involutive. apply Qle_bool_iff, Qle_refl.
Qed.

End Queries.

Section RoundTrip.

Implicit Types (l rest : list node) (it n : node) (m : gmap N iterator) (a : t).

Lemma merge_from_id it rest m :
  no_adjacent_free (it :: rest) = true -> merge_from it rest m = (it :: rest, m).
Proof.
  revert it. induction rest as [|nx rest IH]; intros it Hnaf; [done|].
  change (no_adjacent_free (it :: nx :: rest))
    with (negb (isFree it.2 && isFree nx.2) && no_adjacent_free (nx :: rest)) in Hnaf.
  apply andb_true_iff in Hnaf as [H1 H2]. apply negb_true_iff in H1.
  cbn [merge_from]. by rewrite H1, IH.
Qed.

Lemma mergeFreeBlocks_id a :
  no_adjacent_free (memoryBlocks a) = true -> mergeFreeBlocks a = a.
Proof.
  intros Hnaf. unfold mergeFreeBlocks. destruct a as [l m tot st nx].
  cbn [memoryBlocks addressMap next_iterator] in *.
  destruct l as [|it rest]; [done|]. by rewrite merge_from_id.
Qed.

Lemma merge_from_rejoin l1 x i b l2 sz nx m :
  no_adjacent_free ((x :: l1) ++ (i, b) :: l2) = true ->
  isFree b = true -> sz <= size b -> size b < two64 ->
  merge_from x
    (l1 ++ (i, mkBlock (address b) sz true)
        :: (nx, mkBlock (address b + sz) (size b - sz) true) :: l2) m
  = ((x :: l1) ++ (i, b) :: l2, delete (address b + sz) m).
Proof.
  intros Hnaf Hfree Hle Hb. revert x Hnaf.
  induction l1 as [|y l1 IH]; intros x Hnaf.
  - change (no_adjacent_free ([x] ++ (i, b) :: l2))
      with (negb (isFree x.2 && isFree b) && no_adjacent_free ((i, b) :: l2)) in Hnaf.
    apply andb_true_iff in Hnaf as [H1 H2]. apply negb_true_iff in H1.
    rewrite Hfree, andb_true_r in H1.
    cbn [app merge_from fst snd isFree address size set_size].
    rewrite H1. cbn [andb].
    rewrite add64_small by lia.
    replace (sz + (size b - sz)) with (size b) by lia.
    unfold set_size. cbn [address size isFree].
    replace (mkBlock (address b) (size b) true) with b by (by destruct b; simpl in *; subst).
    by rewrite merge_from_id.
  - change (no_adjacent_free ((x :: y :: l1) ++ (i, b) :: l2))
      with (negb (isFree x.2 && isFree y.2)
            && no_adjacent_free ((y :: l1) ++ (i, b) :: l2)) in Hnaf.
    apply andb_true_iff in Hnaf as [H1 H2]. apply negb_true_iff in H1.
    change ((y :: l1) ++ ?k) with (y :: (l1 ++ k)).
    cbn [merge_from]. rewrite H1, IH by done. done.
Qed.

Lemma mergeFreeBlocks_rejoin l1 i b l2 sz nx m tot st nx' :
  no_adjacent_free (l1 ++ (i, b) :: l2) = true ->
  isFree b = true -> sz <= size b -> size b < two64 ->
  mergeFreeBlocks
    (mkArena
       (l1 ++ (i, mkBlock (address b) sz true)
           :: (nx, mkBlock (address b + sz) (size b - sz) true) :: l2)
       m tot st nx')
  = mkArena (l1 ++ (i, b) :: l2) (delete (address b + sz) m) tot st nx'.
Proof.
  intros Hnaf Hfree Hle Hb. unfold mergeFreeBlocks, with_blocks.
  cbn [memoryBlocks addressMap next_iterator totalMemorySize strategy].
  destruct l1 as [|x l1].
  - cbn [app merge_from fst snd isFree address size set_size andb].
    rewrite add64_small by lia.
    replace (sz + (size b - sz)) with (size b) by lia.
    unfold set_size. cbn [address size isFree].
    replace (mkBlock (address b) (size b) true) with b
      by (by destruct b; simpl in *; subst).
    by rewrite merge_from_id.
  - change ((x :: l1) ++ ?k) with (x :: (l1 ++ k)) at 1.
    cbv beta iota. by rewrite merge_from_rejoin.
Qed.

Lemma round_trip a sz addr a1 :
  arena_inv a -> allocate sz a = Returned addr a1 ->
  exists a2, deallocate addr a1 = Returned tt a2 /\
    memoryBlocks a2 = memoryBlocks a /\ addressMap a2 = addressMap a.
Proof.
  intros [Hwf Hnaf] Ha.
  apply allocate_Returned in Ha
    as (it & l1 & b & l2 & Hl & Hn & Hfree & Hsz & Hle & _ & -> & ->); [|done].
  pose proof (allocated_wf _ _ _ _ _ _ Hwf Hl Hsz Hle) as Hwf1.
  assert (Hb : address b + size b <= totalMemorySize a /\ totalMemorySize a < two64).
  { apply (block_bound a (it, b)); [done|]. rewrite Hl.
    apply elem_of_app. right. left. }
  assert (Hb_eq : mkBlock (address b) (size b) true = b)
    by (by destruct b; simpl in *; subst).
  assert (Hnaf' : no_adjacent_free (l1 ++ (it, b) :: l2) = true)
    by (by rewrite <- Hl).
  unfold allocated in *. destruct (N.ltb_spec sz (size b)) as [Hlt|Hge].
  - assert (Hm : (<[address b + sz := next_iterator a]> (addressMap a)) !! address b
                 = Some it).
    { apply (inv_lookup _ Hwf1). cbn [memoryBlocks with_blocks].
      rewrite index_app, index_cons. apply elem_of_app. right. left. }
    eexists. split.
    + erewrite deallocate_eval; [reflexivity|exact Hm|reflexivity|exact Hn].
    + unfold with_blocks, set_isFree.
      cbn [memoryBlocks addressMap totalMemorySize strategy next_iterator
             address size isFree].
      rewrite (mergeFreeBlocks_rejoin l1 it b l2) by (done || lia).
      cbn [memoryBlocks addressMap]. split; [done|].
      rewrite delete_insert_eq. apply delete_id.
      destruct (addressMap a !! (address b + sz)) as [i|] eqn:E; [|done].
      exfalso. apply (fresh_address _ _ _ _ _ _ Hwf Hl Hsz Hlt).
      apply (inv_lookup _ Hwf) in E. apply list_elem_of_fmap.
      by exists (i, address b + sz).
  - assert (Hm : addressMap a !! address b = Some it).
    { apply (inv_lookup _ Hwf). rewrite Hl, index_app, index_cons.
      apply elem_of_app. right. left. }
    eexists. split.
    + erewrite deallocate_eval; [reflexivity|exact Hm|reflexivity|exact Hn].
    + unfold with_blocks, set_isFree.
      cbn [memoryBlocks addressMap totalMemorySize strategy next_iterator
             address size isFree].
      rewrite Hb_eq. rewrite mergeFreeBlocks_id by done.
      cbn [memoryBlocks addressMap]. done.
Qed.

End RoundTrip.
Section WorstFit.

Implicit Types (l : list node) (a : t).

(** The scan of WORST_FIT over a list of blocks: it ends without a block
    exactly when no fitting block is larger than the request, and otherwise
    on the first block of largest remainder. *)
Lemma worst_fit_scan sz l :
  Forall (fun n : node => size n.2 < two64) l ->
  match (fold_left (worst_step sz) l (None, 0)).1 with
  | None =>
      (fold_left (worst_step sz) l (None, 0)).2 = 0 /\
      forall n, n ∈ l -> fits sz n.2 = true -> size n.2 = sz
  | Some it =>
      exists l1 b l2,
        l = l1 ++ (it, b) :: l2 /\ fits sz b = true /\
        (fold_left (worst_step sz) l (None, 0)).2 = size b - sz /\
        sz < size b /\
        (forall n, n ∈ l1 -> fits sz n.2 = true -> size n.2 < size b) /\
        (forall n, n ∈ l2 -> fits sz n.2 = true -> size n.2 <= size b)
  end.
Proof.
  induction l as [|n l IH] using rev_ind; intros Hb.
  { simpl. split; [done|]. intros n Hn. by apply elem_of_nil in Hn. }
  apply Forall_app in Hb as [Hb Hn]. rewrite Forall_singleton in Hn.
  specialize (IH Hb). rewrite fold_left_app. cbn [fold_left].
  destruct (fold_left (worst_step sz) l (None, 0)) as [o d]. cbn [fst snd] in IH.
  unfold worst_step. cbn [fst snd].
  destruct (fits sz n.2) eqn:Hfit; cycle 1.
  { cbn [fst snd]. destruct o as [it|].
    - destruct IH as (l1 & b & l2 & -> & Hf & Hd & Hlt & H1 & H2).
      exists l1, b, (l2 ++ [n]). rewrite <- app_assoc. repeat split; try done.
      intros n' Hn' Hf'. apply elem_of_app in Hn' as [Hn'|Hn']; [by apply H2|].
      apply list_elem_of_singleton in Hn' as ->. congruence.
    - destruct IH as [Hd Hall]. split; [done|].
      intros n' Hn' Hf'. apply elem_of_app in Hn' as [Hn'|Hn']; [by apply Hall|].
      apply list_elem_of_singleton in Hn' as ->. congruence. }
  pose proof Hfit as Hfit'. apply andb_true_iff in Hfit' as [_ Hle].
  apply N.leb_le in Hle. rewrite sub64_small by done.
  destruct (N.ltb_spec d (size n.2 - sz)) as [Hlt|Hge]; cbn [fst snd].
  - exists l, n.2, []. destruct n as [i b]. cbn [fst snd] in *.
    repeat split; try done; [lia| |].
    + intros n' Hn' Hf'. destruct o as [it|].
      * destruct IH as (l1 & b0 & l2 & -> & Hf & Hd & Hlt0 & H1 & H2).
        apply elem_of_app in Hn' as [Hn'|Hn'].
        { specialize (H1 _ Hn' Hf'). lia. }
        apply elem_of_cons in Hn' as [->|Hn']; [simpl; lia|].
        specialize (H2 _ Hn' Hf'). lia.
      * destruct IH as [Hd Hall]. rewrite (Hall _ Hn' Hf'). lia.
    + intros n' Hn'. by apply elem_of_nil in Hn'.
  - destruct o as [it|].
    + destruct IH as (l1 & b & l2 & -> & Hf & Hd & Hlt & H1 & H2).
      exists l1, b, (l2 ++ [n]). rewrite <- app_assoc. repeat split; try done.
      intros n' Hn' Hf'. apply elem_of_app in Hn' as [Hn'|Hn']; [by apply H2|].
      apply list_elem_of_singleton in Hn' as ->. lia.
    + destruct IH as [Hd Hall]. split; [done|].
      intros n' Hn' Hf'. apply elem_of_app in Hn' as [Hn'|Hn']; [by apply Hall|].
      apply list_elem_of_singleton in Hn' as ->. lia.
Qed.

Lemma block_sizes_bounded a :
  arena_wf a -> Forall (fun n : node => size n.2 < two64) (memoryBlocks a).
Proof.
  intros Hwf. apply Forall_forall. intros n Hn.
  destruct (block_bound _ _ Hwf Hn). lia.
Qed.

(** Under WORST_FIT the block found is the first one, in address order, with
    the largest remainder, provided that remainder is positive. *)
Lemma worst_fit_selects a sz it :
  arena_wf a -> strategy a = WORST_FIT ->
  findSuitableBlock a sz = Some it ->
  exists l1 b l2,
    memoryBlocks a = l1 ++ (it, b) :: l2 /\ fits sz b = true /\ sz < size b /\
    (forall n, n ∈ l1 -> fits sz n.2 = true -> size n.2 < size b) /\
    (forall n, n ∈ l2 -> fits sz n.2 = true -> size n.2 <= size b).
Proof.
  intros Hwf Hs Hf. unfold findSuitableBlock in Hf. rewrite Hs in Hf.
  pose proof (worst_fit_scan sz _ (block_sizes_bounded _ Hwf)) as H.
  rewrite Hf in H. destruct H as (l1 & b & l2 & Hl & Hfit & _ & Hlt & H1 & H2).
  by exists l1, b, l2.
Qed.

(** Under WORST_FIT no block is found exactly when every fitting block has
    the size of the request. *)
Lemma worst_fit_none a sz :
  arena_wf a -> strategy a = WORST_FIT ->
  findSuitableBlock a sz = None <->
  forall n, n ∈ memoryBlocks a -> fits sz n.2 = true -> size n.2 = sz.
Proof.
  intros Hwf Hs. unfold findSuitableBlock. rewrite Hs.
  pose proof (worst_fit_scan sz _ (block_sizes_bounded _ Hwf)) as H.
  destruct (fold_left (worst_step sz) (memoryBlocks a) (None, 0)).1 as [it|].
  - split; [done|]. intros Hall.
    destruct H as (l1 & b & l2 & Hl & Hfit & _ & Hlt & _).
    assert (size b = sz); [|lia].
    apply (Hall (it, b)); [|done]. rewrite Hl. apply elem_of_app. right. left.
  - split; [|done]. intros _. apply H.
Qed.

End WorstFit.

(** * The claims about the arena *)

(** The example state [arena3] is reachable: each call is evaluated. *)
Ltac arena3_is_reachable :=
  apply reach_deallocate with (a := arena2) (addr := 0);
    [apply reach_allocate with (a := arena1) (sz := 200);
       [apply reach_allocate with (a := arena0) (sz := 100);
          [apply reach_new; reflexivity|vm_compute; reflexivity]
       |vm_compute; reflexivity]
    |vm_compute; reflexivity].

(** The arena rejects exactly the addresses that are not the base of a block
    of its list, whether that block is free or allocated. *)
Lemma deallocate_throws_iff a addr :
  reachable a ->
  deallocate addr a = Thrown InvalidAddress a <->
  addr ∉ (index (memoryBlocks a)).*2.
Proof.
  intros Hr. destruct (reachable_inv _ Hr) as [Hwf _]. split.
  - intros Hd Hin. apply deallocate_Thrown in Hd as (_ & _ & Hm).
    apply list_elem_of_fmap in Hin as ([i x] & Heq & Hin). simpl in Heq. subst x.
    apply (inv_lookup _ Hwf) in Hin. congruence.
  - intros Hout. unfold deallocate.
    destruct (addressMap a !! addr) as [it|] eqn:Hm; [|done].
    exfalso. apply Hout. apply (inv_lookup _ Hwf) in Hm.
    apply list_elem_of_fmap. by exists (it, addr).
Qed.

(** In a state that satisfies the block invariants, [deallocate] of the base
    address of a block that is already free returns normally and changes
    nothing. *)
Lemma deallocate_free_block a it b :
  arena_inv a -> (it, b) ∈ memoryBlocks a -> isFree b = true ->
  deallocate (address b) a = Returned tt a.
Proof.
  intros [Hwf Hnaf] Hin Hfree.
  assert (Hm : addressMap a !! address b = Some it).
  { apply (inv_lookup _ Hwf). apply index_elem. by exists b. }
  destruct (lookup_split _ _ _ Hwf Hm) as (l1 & b' & l2 & Hl & Hn & Hb').
  assert (b' = b) as ->.
  { assert (Hd : deref (memoryBlocks a) it = Some b).
    { apply deref_elem; [|done]. rewrite <- index_fst. apply Hwf. }
    rewrite Hl, deref_here in Hd by done. congruence. }
  rewrite (deallocate_eval _ _ _ _ _ _ Hm Hl Hn).
  replace (set_isFree true b) with b by (by destruct b; simpl in *; subst).
  rewrite <- Hl. rewrite mergeFreeBlocks_id by done. by destruct a.
Qed.

(** C1 (the code departs from the claim).  On a fresh arena of 1024 bytes,
    [allocate(100)] returns 0 and [deallocate(0)] frees it; a second
    [deallocate(0)], of an address that was already freed, returns normally
    and leaves the state as it was instead of throwing
    InvalidAddressException.  So does [deallocate(0)] on the fresh arena,
    whose block at 0 was never allocated. *)
Theorem deallocate_accepts_freed_address :
  allocate 100 arena0 = Returned 0 arena1 /\
  (exists a, deallocate 0 arena1 = Returned tt a /\
     memoryBlocks a = [(0%nat, mkBlock 0 1024 true)] /\
     deallocate 0 a = Returned tt a) /\
  deallocate 0 arena0 = Returned tt arena0.
Proof.
  split; [by vm_compute|]. split; [|by vm_compute].
  eexists. split; [by vm_compute|]. split; by vm_compute.
Qed.

(** C2.  After every public operation of the arena no two adjacent blocks of
    the ordered block list are both free.  The property holds in every
    reachable state; from such a state [allocate] and [deallocate] are
    defined, and the state in which they end (returning or throwing) has the
    property again: the split of [allocate] leaves the trailing free
    remainder between non-free neighbours, and the coalescing pass of
    [deallocate] restores it.  [setAllocationStrategy] keeps the block list,
    and the queries do not change the state. *)
Theorem no_adjacent_free_after_every_operation a :
  reachable a ->
  no_adjacent_free (memoryBlocks a) = true /\
  (forall sz, allocate sz a <> Undefined) /\
  (forall sz a', ends_in (allocate sz a) a' ->
     no_adjacent_free (memoryBlocks a') = true) /\
  (forall addr, deallocate addr a <> Undefined) /\
  (forall addr a', ends_in (deallocate addr a) a' ->
     no_adjacent_free (memoryBlocks a') = true) /\
  (forall strat,
     no_adjacent_free (memoryBlocks (setAllocationStrategy strat a)) = true).
Proof.
  intros Hr. pose proof (reachable_inv _ Hr) as Hinv.
  split; [apply Hinv|]. split; [intros sz; apply allocate_defined, Hinv|].
  split; [intros sz a' H; by apply (allocate_inv a sz a')|].
  split; [intros addr; apply deallocate_defined, Hinv|].
  split; [intros addr a' H; by apply (deallocate_inv a addr a')|].
  intros strat. apply Hinv.
Qed.

Lemma no_adjacent_free_after_every_operation_witness :
  no_adjacent_free (memoryBlocks arena3) = true /\
  (forall sz, allocate sz arena3 <> Undefined) /\
  (forall sz a', ends_in (allocate sz arena3) a' ->
     no_adjacent_free (memoryBlocks a') = true) /\
  (forall addr, deallocate addr arena3 <> Undefined) /\
  (forall addr a', ends_in (deallocate addr arena3) a' ->
     no_adjacent_free (memoryBlocks a') = true) /\
  (forall strat,
     no_adjacent_free (memoryBlocks (setAllocationStrategy strat arena3)) = true).
Proof.
  apply (no_adjacent_free_after_every_operation arena3).
  arena3_is_reachable.
Defined.

(** C3 (the code departs from the claim).  Under WORST_FIT, on an arena of
    100 bytes whose only block is free and has size 100, [allocate(100)] throws
    "No suitable memory block found" and leaves the state as it was, although
    the block fits the request: the scan starts from a largest difference of
    0 and keeps a block only when its difference is strictly larger.  FIRST_FIT
    and BEST_FIT return address 0 on the same arena. *)
Theorem worst_fit_rejects_exact_fit :
  fits 100 (mkBlock 0 100 true) = true /\
  allocate 100 (new 100 WORST_FIT) = Thrown NoFit (new 100 WORST_FIT) /\
  (exists a, allocate 100 (new 100 FIRST_FIT) = Returned 0 a) /\
  (exists a, allocate 100 (new 100 BEST_FIT) = Returned 0 a).
Proof.
  split; [done|]. split; [by vm_compute|].
  split; eexists; by vm_compute.
Qed.

(** C4.  From a state that satisfies the block invariants, when [allocate n]
    returns an address, [deallocate] of that address returns normally, and in
    the state it yields the total free memory is that of the state before the
    [allocate] and the fragmentation ratio is at most the one before. *)
Theorem deallocate_allocate_round_trip a n addr a1 :
  arena_inv a -> allocate n a = Returned addr a1 ->
  exists a2, deallocate addr a1 = Returned tt a2 /\
    getTotalFreeMemory a2 = getTotalFreeMemory a /\
    dle (getFragmentationRatio a2) (getFragmentationRatio a) = true.
Proof.
  intros Hinv Ha.
  destruct (round_trip _ _ _ _ Hinv Ha) as (a2 & Hd & Hblocks & _).
  exists a2. split; [done|].
  assert (Ht : getTotalFreeMemory a2 = getTotalFreeMemory a)
    by (unfold getTotalFreeMemory; by rewrite Hblocks).
  assert (Hg : getLargestFreeBlock a2 = getLargestFreeBlock a)
    by (unfold getLargestFreeBlock; by rewrite Hblocks).
  split; [done|].
  unfold getFragmentationRatio at 1. rewrite Ht, Hg.
  fold (getFragmentationRatio a).
  destruct (getFragmentationRatio_finite a) as (q & -> & _); [apply Hinv|].
  apply dle_refl.
Qed.

Lemma deallocate_allocate_round_trip_witness :
  exists a2, deallocate 0 arena4 = Returned tt a2 /\
    getTotalFreeMemory a2 = getTotalFreeMemory arena3 /\
    dle (getFragmentationRatio a2) (getFragmentationRatio arena3) = true.
Proof.
  apply (deallocate_allocate_round_trip arena3 50 0 arena4).
  - apply reachable_inv. arena3_is_reachable.
  - vm_compute. reflexivity.
Defined.

(** C10.  In every reachable state of the arena [getFragmentationRatio]
    returns a finite number between 0 and 1: 0 when the total free memory is
    zero, and otherwise one minus the largest free block over the total free
    memory (the division is only evaluated with a non-zero divisor). *)
Theorem getFragmentationRatio_total a :
  reachable a ->
  exists q, getFragmentationRatio a = Fin q /\ (0 <= q)%Q /\ (q <= 1)%Q /\
    (getTotalFreeMemory a = 0 -> q = 0%Q) /\
    (getTotalFreeMemory a <> 0 ->
     q = (1 - inject_Z (Z.of_N (getLargestFreeBlock a))
              / inject_Z (Z.of_N (getTotalFreeMemory a)))%Q).
Proof.
  intros Hr. apply getFragmentationRatio_finite. by apply reachable_inv.
Qed.

Lemma getFragmentationRatio_total_witness :
  exists q, getFragmentationRatio arena3 = Fin q /\ (0 <= q)%Q /\ (q <= 1)%Q /\
    (getTotalFreeMemory arena3 = 0 -> q = 0%Q) /\
    (getTotalFreeMemory arena3 <> 0 ->
     q = (1 - inject_Z (Z.of_N (getLargestFreeBlock arena3))
              / inject_Z (Z.of_N (getTotalFreeMemory arena3)))%Q).
Proof.
  apply (getFragmentationRatio_total arena3).
  arena3_is_reachable.
Defined.

(** * The profiler *)

Section Profiler.

Import MemoryProfiler.

Implicit Types (h : list AllocationRecord) (r : AllocationRecord) (p : t).

Lemma oldest_active_spec addr h i :
  oldest_active addr h = Some i ->
  exists r, h !! i = Some r /\ active_at addr r = true /\
    forall j r', (j < i)%nat -> h !! j = Some r' -> active_at addr r' = false.
Proof.
  revert i. induction h as [|r h IH]; intros i; simpl; [done|].
  destruct (active_at addr r) eqn:E.
  - intros [= <-]. exists r. split; [done|]. split; [done|]. intros j r' Hj. lia.
  - destruct (oldest_active addr h) as [k|]; [|done]. intros [= <-].
    destruct (IH k eq_refl) as (r0 & Hk & Ha & Hbefore).
    exists r0. split; [done|]. split; [done|].
    intros [|j] r' Hj; simpl; [by intros [= <-]|].
    apply Hbefore. lia.
Qed.

Lemma most_recent_active_spec addr h i :
  most_recent_active addr h = Some i ->
  exists r, h !! i = Some r /\ active_at addr r = true /\
    forall j r', (i < j)%nat -> h !! j = Some r' -> active_at addr r' = false.
Proof.
  revert i. induction h as [|r h IH]; intros i; simpl; [done|].
  destruct (most_recent_active addr h) as [k|] eqn:Hk.
  - intros [= <-]. destruct (IH k eq_refl) as (r0 & Hr0 & Ha & Hafter).
    exists r0. split; [done|]. split; [done|].
    intros [|j] r' Hj; [lia|]. simpl. apply Hafter. lia.
  - destruct (active_at addr r) eqn:E; [|done]. intros [= <-].
    exists r. split; [done|]. split; [done|].
    intros [|j] r' Hj; [lia|]. simpl. intros Hj'.
    destruct (active_at addr r') eqn:E'; [|done]. exfalso.
    clear -Hk Hj' E'. revert j Hj'. induction h as [|r1 h IH]; intros j Hj'; [done|].
    simpl in Hk. destruct (most_recent_active addr h); [done|].
    destruct j; simpl in Hj'; [injection Hj' as ->; by rewrite E' in Hk|].
    by apply (IH eq_refl j).
Qed.

Lemma deactivate_oldest addr now h :
  deactivate addr now h =
  match oldest_active addr h with
  | Some i =>
      match h !! i with
      | Some r => (<[ i := deactivated now r ]> h, Some (deactivated now r))
      | None => (h, None)
      end
  | None => (h, None)
  end.
Proof.
  induction h as [|r h IH]; simpl; [done|].
  unfold active_at at 1.
  destruct ((address r =? addr) && isActive r); [done|].
  rewrite IH. destruct (oldest_active addr h) as [i|]; simpl; [|done].
  by destruct (h !! i).
Qed.

(** C7 (as the code has it).  [recordDeallocation addr] stops at the oldest
    active record of the address, the first one in history order: it sets
    the deallocation time of that record, flips it to inactive and appends
    its lifetime to the statistics of its size; every other record, also a
    more recent active record of the same address, is left as it is.  When
    the history has no active record of the address, nothing changes. *)
Theorem recordDeallocation_modifies_oldest_active addr now p :
  match oldest_active addr (allocationHistory p) with
  | Some i =>
      exists r, allocationHistory p !! i = Some r /\ active_at addr r = true /\
        (forall j r', (j < i)%nat -> allocationHistory p !! j = Some r' ->
           active_at addr r' = false) /\
        recordDeallocation addr now p
        = mkProfiler (<[ i := deactivated now r ]> (allocationHistory p))
            (with_lifetime now r (lifetimeDistribution p))
            (sizeFrequency p) (strategyMetrics p)
  | None => recordDeallocation addr now p = p
  end.
Proof.
  unfold recordDeallocation. rewrite deactivate_oldest.
  destruct (oldest_active addr (allocationHistory p)) as [i|] eqn:Hi.
  - destruct (oldest_active_spec _ _ _ Hi) as (r & Hr & Ha & Hbefore).
    exists r. rewrite Hr. by repeat split.
  - by destruct p.
Qed.

(** C7 as the spec states it fails: with two active records of the address
    100, the most recent one is at position 1, and [recordDeallocation]
    leaves it active (it modifies the record at position 0). *)
Lemma recordDeallocation_not_most_recent :
  ~ modifies_most_recent_active 100 3 profiler2.
Proof.
  intros H.
  specialize (H 1%nat (mkRecord 8 100 2 0 true 0) eq_refl eq_refl).
  vm_compute in H. discriminate H.
Qed.

End Profiler.

(** * The controller *)

Section Controller.

Import AdaptiveMemoryAllocator.

(** Whenever the first pool has no free slot, [deallocate] calls [front()] on
    its empty vector, whatever the address. *)
Lemma deallocate_exhausted_pool addr now w pool rest :
  memoryPools (this w) = pool :: rest -> freeBlocks pool = [] ->
  deallocate addr now w = Undefined.
Proof.
  intros Hpools Hfree. unfold deallocate, bind, RECORD_DEALLOCATION,
    on_leakDetector, modify.
  cbn [this]. by rewrite Hpools; cbn [deallocate_loop]; rewrite Hfree.
Qed.

(** C5 (the code departs from the claim).  The pool of [program2] was carved
    at address 16 with five slots of 64 bytes, so its region is [16, 336).
    Once all five slots are handed out ([program_full]) the free-slot vector
    is empty, and [deallocate] of the slot 272, inside the region, calls
    [front()] on the empty vector: the behaviour is undefined, the address is
    not routed to the pool.  And once [updatePoolUtilization] has overwritten
    [totalBlocks] of a pool with 0 ([program12], a pool of ten slots carved
    at 16 of which the slot 592 is in use), [deallocate] of 592, inside the
    region [16, 656), is sent to the arena, which throws
    InvalidAddressException. *)
Theorem deallocate_misroutes_pool_addresses :
  memoryPools (this program2) = [mkPool 64 [16; 80; 144; 208; 272] 5 0] /\
  memoryPools (this program_full) = [mkPool 64 [] 5 5] /\
  (16 <= 272 < 16 + 5 * 64) /\
  deallocate 272 9 program_full = Undefined /\
  memoryPools (this program10)
    = [mkPool 64 [16; 80; 144; 208; 272; 336; 400; 464; 528; 592] 10 0] /\
  memoryPools (this program12)
    = [mkPool 64 [16; 80; 144; 208; 272; 336; 400; 464; 528] 0 1] /\
  (16 <= 592 < 16 + 10 * 64) /\
  exists w, deallocate 592 11 program12 = Thrown InvalidAddress w.
Proof.
  split; [by vm_compute|]. split; [by vm_compute|]. split; [lia|].
  split; [by vm_compute|]. split; [by vm_compute|]. split; [by vm_compute|].
  split; [lia|]. eexists. by vm_compute.
Qed.

(** C6 (the code departs from the claim).  In adaptive mode, when a pool
    serves the request, [allocate] returns the slot at once: the allocation
    is recorded in the profiler, and the leak detector is left as it was
    ([RECORD_ALLOCATION] is only reached on the arena path). *)
Theorem pool_allocation_bypasses_leak_detector sz now w addr pools :
  adaptiveMode (this w) = true ->
  allocateFromPool_loop sz (memoryPools (this w)) = Some (addr, pools) ->
  addr <> 0 ->
  allocate sz now w
  = Returned addr
      (mkProgram
         (set_profiler (MemoryProfiler.recordAllocation sz addr 0 now)
            (set_memoryPools (fun _ => pools) (this w)))
         (leakDetector w)).
Proof.
  intros Hmode Hpool Hne. unfold allocate. rewrite Hmode.
  unfold bind at 1. unfold on_this at 1. unfold allocateFromPool at 1.
  rewrite Hpool. destruct (N.eqb_spec addr 0) as [|_]; [done|].
  reflexivity.
Qed.

Lemma pool_allocation_bypasses_leak_detector_witness :
  allocate 64 7 program2
  = Returned 272
      (mkProgram
         (set_profiler (MemoryProfiler.recordAllocation 64 272 0 7)
            (set_memoryPools (fun _ => [mkPool 64 [16; 80; 144; 208] 5 1])
               (this program2)))
         (leakDetector program2)).
Proof.
  apply (pool_allocation_bypasses_leak_detector 64 7 program2 272
           [mkPool 64 [16; 80; 144; 208] 5 1]).
  - vm_compute. reflexivity.
  - vm_compute. reflexivity.
  - lia.
Defined.

(** Without the adaptive mode a request of zero bytes reaches the arena,
    which rejects it and leaves every state as it was. *)
Lemma allocate_zero_not_adaptive now w :
  adaptiveMode (this w) = false -> allocate 0 now w = Thrown ZeroSize w.
Proof.
  destruct w as [[a p m pools ps] d]. cbn [this adaptiveMode]. intros ->.
  reflexivity.
Qed.

(** C8 (the code departs from the claim).  In adaptive mode, with the pool of
    [program2] (slots of 64 bytes, five of them free), [allocate(0)] does not
    throw: it returns the slot 272 of the pool, which loses a free slot, and
    records an allocation of size 0 in the profiler.  The arena itself
    rejects the request with "Cannot allocate zero bytes". *)
Theorem allocate_zero_served_by_pool :
  adaptiveMode (this program2) = true /\
  memoryPools (this program2) = [mkPool 64 [16; 80; 144; 208; 272] 5 0] /\
  (exists w, allocate 0 7 program2 = Returned 272 w /\
     memoryPools (this w) = [mkPool 64 [16; 80; 144; 208] 5 1] /\
     last (MemoryProfiler.allocationHistory (profiler (this w)))
     = Some (MemoryProfiler.mkRecord 0 272 7 0 true 0)) /\
  MemoryAllocator.allocate 0 (base (this program2))
  = Thrown ZeroSize (base (this program2)).
Proof.
  split; [done|]. split; [by vm_compute|]. split; [|done].
  eexists. split; [by vm_compute|]. split; by vm_compute.
Qed.


End Controller.

(** * Further properties of the arena *)

Section Accounting.

Implicit Types (l rest : list node) (it n : node) (m : gmap N iterator) (a : t).

Lemma contiguous_total s l e : contiguous s l e -> s + total_bytes l = e.
Proof.
  revert s. induction l as [|n l IH]; intros s; simpl.
  - intros <-. lia.
  - intros [_ H]. apply IH in H. lia.
Qed.

Lemma free_le_total l : free_bytes l <= total_bytes l.
Proof. induction l as [|n l IH]; simpl; [done|]. destruct (isFree n.2); lia. Qed.

Lemma free_bytes_app l1 l2 : free_bytes (l1 ++ l2) = free_bytes l1 + free_bytes l2.
Proof.
  induction l1 as [|n l1 IH]; simpl; [done|]. rewrite IH.
  destruct (isFree n.2); lia.
Qed.

Lemma total_bytes_app l1 l2 :
  total_bytes (l1 ++ l2) = total_bytes l1 + total_bytes l2.
Proof. induction l1 as [|n l1 IH]; simpl; [done|]. rewrite IH. lia. Qed.

Lemma total_free_fold l :
  forall acc, acc + free_bytes l < two64 ->
    fold_left
      (fun total (n : node) =>
         if isFree n.2 then add64 total (size n.2) else total) l acc
    = acc + free_bytes l.
Proof.
  induction l as [|n l IH]; intros acc Hb; simpl in *; [lia|].
  destruct (isFree n.2).
  - rewrite add64_small by lia. rewrite IH by lia. lia.
  - by rewrite IH.
Qed.

Lemma getTotalFreeMemory_exact a :
  arena_wf a -> getTotalFreeMemory a = free_bytes (memoryBlocks a).
Proof.
  intros Hwf. unfold getTotalFreeMemory. rewrite total_free_fold; [done|].
  pose proof (free_le_total (memoryBlocks a)).
  pose proof (contiguous_total _ _ _ (inv_layout _ Hwf)).
  pose proof (inv_bound _ Hwf). lia.
Qed.

Lemma merge_from_bytes it rest m :
  total_bytes (it :: rest) < two64 ->
  total_bytes (merge_from it rest m).1 = total_bytes (it :: rest) /\
  free_bytes (merge_from it rest m).1 = free_bytes (it :: rest).
Proof.
  revert it m. induction rest as [|nx rest IH]; intros it m Hb; [done|].
  cbn [merge_from]. destruct (isFree it.2 && isFree nx.2) eqn:E.
  - apply andb_true_iff in E as [E1 E2].
    cbn [total_bytes free_bytes foldr] in *.
    fold (total_bytes rest) in *. fold (free_bytes rest) in *.
    destruct (IH (it.1, set_size (add64 (size it.2) (size nx.2)) it.2)
                (delete (address nx.2) m)) as [IH1 IH2].
    { cbn [total_bytes foldr snd set_size size]. fold (total_bytes rest).
      rewrite add64_small by lia. lia. }
    rewrite IH1, IH2. cbn [total_bytes free_bytes foldr snd set_size size isFree].
    fold (total_bytes rest). fold (free_bytes rest).
    rewrite E1, E2, add64_small by lia. lia.
  - destruct (IH nx m) as [IH1 IH2].
    { cbn [total_bytes foldr] in *. lia. }
    destruct (merge_from nx rest m) as [l m']. cbn [fst] in *.
    cbn [total_bytes free_bytes foldr] in *.
    fold (total_bytes l) (total_bytes rest) (free_bytes l) (free_bytes rest) in *.
    split; [lia|]. destruct (isFree it.2); lia.
Qed.

Lemma mergeFreeBlocks_free_bytes a :
  arena_wf a ->
  free_bytes (memoryBlocks (mergeFreeBlocks a)) = free_bytes (memoryBlocks a).
Proof.
  intros Hwf. unfold mergeFreeBlocks.
  destruct (memoryBlocks a) as [|it rest] eqn:Hl; [by rewrite Hl|].
  pose proof (contiguous_total _ _ _ (inv_layout _ Hwf)) as Ht. rewrite Hl in Ht.
  pose proof (inv_bound _ Hwf).
  destruct (merge_from_bytes it rest (addressMap a)) as [_ H2]; [lia|].
  by destruct (merge_from it rest (addressMap a)).
Qed.

End Accounting.

Section ArenaExtras.

Implicit Types (l : list node) (a : t).

Lemma block_split a it b :
  arena_wf a -> (it, b) ∈ memoryBlocks a ->
  exists l1 l2,
    memoryBlocks a = l1 ++ (it, b) :: l2 /\ (it ∉ l1.*1) /\
    addressMap a !! address b = Some it.
Proof.
  intros Hwf Hin.
  assert (Hm : addressMap a !! address b = Some it).
  { apply (inv_lookup _ Hwf). apply index_elem. by exists b. }
  assert (Hd : deref (memoryBlocks a) it = Some b).
  { apply deref_elem; [|done]. rewrite <- index_fst. apply Hwf. }
  destruct (deref_Some_split _ _ _ Hd) as (l1 & l2 & Hl & Hn).
  by exists l1, l2.
Qed.

Lemma mergeFreeBlocks_totalMemorySize a :
  totalMemorySize (mergeFreeBlocks a) = totalMemorySize a.
Proof.
  unfold mergeFreeBlocks. destruct (memoryBlocks a) as [|x r]; [done|].
  by destruct (merge_from x r (addressMap a)).
Qed.

(** X1.  In every reachable state the blocks tile the arena: the first block
    starts at 0, every block starts where its predecessor ends, the sizes add
    up to the configured total, no two blocks have the same base address, and
    the free memory reported is at most the total. *)
Theorem blocks_tile_the_arena a :
  reachable a ->
  contiguous 0 (memoryBlocks a) (totalMemorySize a) /\
  total_bytes (memoryBlocks a) = totalMemorySize a /\
  NoDup (map (fun n : node => address n.2) (memoryBlocks a)) /\
  getTotalFreeMemory a = free_bytes (memoryBlocks a) /\
  getTotalFreeMemory a <= totalMemorySize a.
Proof.
  intros Hr. destruct (reachable_inv _ Hr) as [Hwf _].
  pose proof (contiguous_total _ _ _ (inv_layout _ Hwf)) as Ht.
  pose proof (free_le_total (memoryBlocks a)).
  rewrite (getTotalFreeMemory_exact _ Hwf).
  split; [apply Hwf|]. split; [lia|]. split; [|split; [done|lia]].
  pose proof (inv_addresses _ Hwf) as Hn. unfold index in Hn.
  by rewrite <- list_fmap_compose in Hn.
Qed.

Lemma blocks_tile_the_arena_witness :
  contiguous 0 (memoryBlocks arena3) (totalMemorySize arena3) /\
  total_bytes (memoryBlocks arena3) = totalMemorySize arena3 /\
  NoDup (map (fun n : node => address n.2) (memoryBlocks arena3)) /\
  getTotalFreeMemory arena3 = free_bytes (memoryBlocks arena3) /\
  getTotalFreeMemory arena3 <= totalMemorySize arena3.
Proof.
  apply (blocks_tile_the_arena arena3).
  arena3_is_reachable.
Defined.

(** X2.  In every reachable state [addressMap] is exactly the table of the
    blocks of the list: an address has an entry if and only if it is the base
    address of a block, free or allocated, and the entry is an iterator that
    dereferences to that block. *)
Theorem addressMap_tracks_every_block a addr it :
  reachable a ->
  addressMap a !! addr = Some it <->
  exists b, deref (memoryBlocks a) it = Some b /\ address b = addr.
Proof.
  intros Hr. destruct (reachable_inv _ Hr) as [Hwf _].
  rewrite (inv_lookup _ Hwf), index_elem. split.
  - intros (b & Hin & Hb). exists b. split; [|done].
    apply deref_elem; [|done]. rewrite <- index_fst. apply Hwf.
  - intros (b & Hd & Hb). exists b. split; [|done].
    destruct (deref_Some_split _ _ _ Hd) as (l1 & l2 & -> & _).
    apply elem_of_app. right. left.
Qed.

Lemma addressMap_tracks_every_block_witness :
  addressMap arena3 !! 100 = Some 1%nat <->
  exists b, deref (memoryBlocks arena3) 1%nat = Some b /\ address b = 100.
Proof.
  apply (addressMap_tracks_every_block arena3 100 1%nat).
  arena3_is_reachable.
Defined.

(** X3.  When [allocate sz] returns an address in a reachable state, that
    address was the base of a free block of at least [sz] bytes, the range
    [addr, addr + sz) lies inside the arena, the new state has an allocated
    block of exactly [sz] bytes at that address, and the total free memory
    has dropped by exactly [sz]. *)
Theorem allocate_takes_exactly_the_request a sz addr a' :
  reachable a -> allocate sz a = Returned addr a' ->
  (exists it b, (it, b) ∈ memoryBlocks a /\ address b = addr /\
     isFree b = true /\ sz <= size b /\
     (it, mkBlock addr sz false) ∈ memoryBlocks a') /\
  0 < sz /\ addr + sz <= totalMemorySize a /\
  getTotalFreeMemory a' + sz = getTotalFreeMemory a.
Proof.
  intros Hr Ha. destruct (reachable_inv _ Hr) as [Hwf _].
  apply allocate_Returned in Ha
    as (it & l1 & b & l2 & Hl & Hn & Hfree & Hsz & Hle & _ & -> & ->); [|done].
  pose proof (allocated_wf _ _ _ _ _ _ Hwf Hl Hsz Hle) as Hwf'.
  assert (Hin : (it, b) ∈ memoryBlocks a).
  { rewrite Hl. apply elem_of_app. right. left. }
  destruct (block_bound _ _ Hwf Hin) as [Hb _]. cbn [snd] in Hb.
  rewrite (getTotalFreeMemory_exact _ Hwf), (getTotalFreeMemory_exact _ Hwf').
  rewrite Hl. unfold allocated in *.
  destruct (N.ltb_spec sz (size b)) as [Hlt|Hge];
    cbn [memoryBlocks with_blocks]; rewrite !free_bytes_app;
    cbn [free_bytes foldr snd isFree size]; fold (free_bytes l2); rewrite Hfree.
  - split; [|split; [lia|split; lia]].
    exists it, b. split; [by rewrite <- Hl|]. do 3 (split; [done|]).
    apply elem_of_app. right. left.
  - assert (size b = sz) as Heq by lia.
    split; [|split; [lia|split; lia]].
    exists it, b. split; [by rewrite <- Hl|]. do 3 (split; [done|]).
    apply elem_of_app. right. rewrite Heq. left.
Qed.

Lemma allocate_takes_exactly_the_request_witness :
  (exists it b, (it, b) ∈ memoryBlocks arena3 /\ address b = 0 /\
     isFree b = true /\ 50 <= size b /\
     (it, mkBlock 0 50 false) ∈ memoryBlocks arena4) /\
  0 < 50 /\ 0 + 50 <= totalMemorySize arena3 /\
  getTotalFreeMemory arena4 + 50 = getTotalFreeMemory arena3.
Proof.
  apply (allocate_takes_exactly_the_request arena3 50 0 arena4).
  - arena3_is_reachable.
  - vm_compute. reflexivity.
Defined.

(** X4.  In a reachable state, [deallocate] of the base address of an
    allocated block returns normally, and the total free memory grows by
    exactly the size of that block. *)
Theorem deallocate_returns_the_block a it b :
  reachable a -> (it, b) ∈ memoryBlocks a -> isFree b = false ->
  exists a', deallocate (address b) a = Returned tt a' /\
    getTotalFreeMemory a' = getTotalFreeMemory a + size b /\
    totalMemorySize a' = totalMemorySize a.
Proof.
  intros Hr Hin Hfree. destruct (reachable_inv _ Hr) as [Hwf _].
  destruct (block_split _ _ _ Hwf Hin) as (l1 & l2 & Hl & Hn & Hm).
  rewrite (deallocate_eval _ _ _ _ _ _ Hm Hl Hn). eexists. split; [reflexivity|].
  pose proof (reflag_wf _ _ _ _ _ true Hwf Hl) as Hwf1.
  destruct (mergeFreeBlocks_inv _ Hwf1) as [Hwf2 _].
  rewrite (getTotalFreeMemory_exact _ Hwf2), (getTotalFreeMemory_exact _ Hwf).
  rewrite (mergeFreeBlocks_free_bytes _ Hwf1). cbn [memoryBlocks with_blocks].
  rewrite Hl, !free_bytes_app. cbn [free_bytes foldr snd isFree size set_isFree].
  fold (free_bytes l2). rewrite Hfree. split; [lia|].
  by rewrite mergeFreeBlocks_totalMemorySize.
Qed.

Lemma deallocate_returns_the_block_witness :
  exists a', deallocate 100 arena3 = Returned tt a' /\
    getTotalFreeMemory a' = getTotalFreeMemory arena3 + 200 /\
    totalMemorySize a' = totalMemorySize arena3.
Proof.
  apply (deallocate_returns_the_block arena3 1%nat (mkBlock 100 200 false)).
  - arena3_is_reachable.
  - vm_compute. right. left.
  - reflexivity.
Defined.

End ArenaExtras.

Section PlacementExtras.

Implicit Types (l : list node) (n : node) (a : t).

Lemma find_first {A} (f : A -> bool) (k : list A) x :
  List.find f k = Some x ->
  exists k1 k2, k = k1 ++ x :: k2 /\ f x = true /\
    forall y, y ∈ k1 -> f y = false.
Proof.
  induction k as [|y k IH]; simpl; [done|].
  destruct (f y) eqn:E.
  - intros [= ->]. exists [], k. split; [done|]. split; [done|].
    intros z Hz. by apply elem_of_nil in Hz.
  - intros H. destruct (IH H) as (k1 & k2 & -> & Hx & Hb).
    exists (y :: k1), k2. split; [done|]. split; [done|].
    intros z Hz. apply elem_of_cons in Hz as [->|Hz]; [done|by apply Hb].
Qed.

Lemma find_none {A} (f : A -> bool) (k : list A) :
  List.find f k = None <-> forall y, y ∈ k -> f y = false.
Proof.
  induction k as [|y k IH]; simpl.
  - split; [|done]. intros _ z Hz. by apply elem_of_nil in Hz.
  - destruct (f y) eqn:E.
    + split; [done|]. intros H. specialize (H y). rewrite E in H.
      discriminate H. left.
    + rewrite IH. split.
      * intros H z Hz. apply elem_of_cons in Hz as [->|Hz]; [done|by apply H].
      * intros H z Hz. apply H. by right.
Qed.

(** The scan of BEST_FIT over a list of blocks, for a request that is not
    zero: it ends without a block exactly when no block fits, and otherwise
    on the first block of smallest size among the fitting ones. *)
Lemma best_fit_scan sz l :
  Forall (fun n : node => size n.2 < two64) l -> sz <> 0 ->
  match (fold_left (best_step sz) l (None, SIZE_MAX)).1 with
  | None =>
      (fold_left (best_step sz) l (None, SIZE_MAX)).2 = SIZE_MAX /\
      forall n, n ∈ l -> fits sz n.2 = false
  | Some it =>
      exists l1 b l2,
        l = l1 ++ (it, b) :: l2 /\ fits sz b = true /\
        (fold_left (best_step sz) l (None, SIZE_MAX)).2 = size b - sz /\
        (forall n, n ∈ l1 -> fits sz n.2 = true -> size b < size n.2) /\
        (forall n, n ∈ l2 -> fits sz n.2 = true -> size b <= size n.2)
  end.
Proof.
  intros Hb Hsz. induction l as [|n l IH] using rev_ind.
  { simpl. split; [done|]. intros n Hn. by apply elem_of_nil in Hn. }
  apply Forall_app in Hb as [Hb Hn]. rewrite Forall_singleton in Hn.
  specialize (IH Hb). rewrite fold_left_app. cbn [fold_left].
  destruct (fold_left (best_step sz) l (None, SIZE_MAX)) as [o d].
  cbn [fst snd] in IH. unfold best_step. cbn [fst snd].
  destruct (fits sz n.2) eqn:Hfit; cycle 1.
  { cbn [fst snd]. destruct o as [it|].
    - destruct IH as (l1 & b & l2 & -> & Hf & Hd & H1 & H2).
      exists l1, b, (l2 ++ [n]). rewrite <- app_assoc. repeat split; try done.
      intros n' Hn' Hf'. apply elem_of_app in Hn' as [Hn'|Hn']; [by apply H2|].
      apply list_elem_of_singleton in Hn' as ->. congruence.
    - destruct IH as [Hd Hall]. split; [done|].
      intros n' Hn'. apply elem_of_app in Hn' as [Hn'|Hn']; [by apply Hall|].
      by apply list_elem_of_singleton in Hn' as ->. }
  pose proof Hfit as Hfit'. apply andb_true_iff in Hfit' as [_ Hle].
  apply N.leb_le in Hle. rewrite sub64_small by done.
  destruct (N.ltb_spec (size n.2 - sz) d) as [Hlt|Hge]; cbn [fst snd].
  - exists l, n.2, []. destruct n as [i b]. cbn [fst snd] in *.
    split; [done|]. split; [done|]. split; [done|]. split.
    + intros n' Hn' Hf'. destruct o as [it|].
      * destruct IH as (l1 & b0 & l2 & -> & Hf & Hd & H1 & H2).
        apply andb_true_iff in Hf as [_ Hle0]. apply N.leb_le in Hle0.
        apply elem_of_app in Hn' as [Hn'|Hn'].
        { specialize (H1 _ Hn' Hf'). lia. }
        apply elem_of_cons in Hn' as [->|Hn']; [simpl; lia|].
        specialize (H2 _ Hn' Hf'). lia.
      * destruct IH as [Hd Hall]. rewrite (Hall _ Hn') in Hf'. done.
    + intros n' Hn'. by apply elem_of_nil in Hn'.
  - destruct o as [it|].
    + destruct IH as (l1 & b & l2 & -> & Hf & Hd & H1 & H2).
      exists l1, b, (l2 ++ [n]). rewrite <- app_assoc. repeat split; try done.
      intros n' Hn' Hf'. apply elem_of_app in Hn' as [Hn'|Hn']; [by apply H2|].
      apply list_elem_of_singleton in Hn' as ->.
      apply andb_true_iff in Hf as [_ Hle0]. apply N.leb_le in Hle0. lia.
    + destruct IH as [Hd Hall]. exfalso. unfold SIZE_MAX, two64 in *. lia.
Qed.

Lemma largest_fold l :
  forall acc,
    let r := fold_left
               (fun largest (n : node) =>
                  if isFree n.2 && (largest <? size n.2) then size n.2 else largest)
               l acc in
    acc <= r /\
    (forall n, n ∈ l -> isFree n.2 = true -> size n.2 <= r) /\
    (r = acc \/ exists n, n ∈ l /\ isFree n.2 = true /\ size n.2 = r).
Proof.
  induction l as [|n l IH]; intros acc; cbn [fold_left].
  { cbv zeta. split; [done|]. split; [|by left].
    intros n Hn. by apply elem_of_nil in Hn. }
  cbv zeta.
  destruct (isFree n.2 && (acc <? size n.2)) eqn:E.
  - apply andb_true_iff in E as [E1 E2]. apply N.ltb_lt in E2.
    destruct (IH (size n.2)) as (H1 & H2 & H3). split; [lia|]. split.
    + intros n' Hn' Hf. apply elem_of_cons in Hn' as [->|Hn']; [done|by apply H2].
    + right. destruct H3 as [->|(n' & Hn' & Hf & Hs)].
      * exists n. split; [left|done].
      * exists n'. split; [by right|done].
  - destruct (IH acc) as (H1 & H2 & H3). split; [done|]. split.
    + intros n' Hn' Hf. apply elem_of_cons in Hn' as [->|Hn']; [|by apply H2].
      rewrite Hf in E. simpl in E. apply N.ltb_ge in E. lia.
    + destruct H3 as [->|(n' & Hn' & Hf & Hs)]; [by left|].
      right. exists n'. split; [by right|done].
Qed.

Lemma fits_iff_largest a sz :
  sz <> 0 ->
  (exists n, n ∈ memoryBlocks a /\ fits sz n.2 = true) <->
  sz <= getLargestFreeBlock a.
Proof.
  intros Hsz. unfold getLargestFreeBlock.
  destruct (largest_fold (memoryBlocks a) 0) as (_ & H2 & H3). split.
  - intros (n & Hn & Hf). apply andb_true_iff in Hf as [Hf Hle].
    apply N.leb_le in Hle. specialize (H2 _ Hn Hf). lia.
  - intros Hle. destruct H3 as [H0|(n & Hn & Hf & Hs)]; [lia|].
    exists n. split; [done|]. unfold fits. rewrite Hf. simpl.
    apply N.leb_le. lia.
Qed.

Lemma larger_iff_largest a sz :
  (exists n, n ∈ memoryBlocks a /\ fits sz n.2 = true /\ size n.2 <> sz) <->
  sz < getLargestFreeBlock a.
Proof.
  unfold getLargestFreeBlock.
  destruct (largest_fold (memoryBlocks a) 0) as (_ & H2 & H3). split.
  - intros (n & Hn & Hf & Hne). apply andb_true_iff in Hf as [Hf Hle].
    apply N.leb_le in Hle. specialize (H2 _ Hn Hf). lia.
  - intros Hlt. destruct H3 as [H0|(n & Hn & Hf & Hs)]; [lia|].
    exists n. split; [done|]. unfold fits. rewrite Hf. simpl.
    split; [apply N.leb_le|]; lia.
Qed.

Lemma findSuitableBlock_none a sz :
  arena_wf a -> sz <> 0 ->
  findSuitableBlock a sz = None <->
  match strategy a with
  | WORST_FIT => ~ sz < getLargestFreeBlock a
  | _ => ~ sz <= getLargestFreeBlock a
  end.
Proof.
  intros Hwf Hsz. destruct (strategy a) eqn:Hs.
  - rewrite <- (fits_iff_largest a sz Hsz). unfold findSuitableBlock. rewrite Hs.
    destruct (List.find _ _) as [x|] eqn:Hf; simpl.
    + split; [done|]. intros H. exfalso. apply H.
      apply find_first in Hf as (l1 & l2 & Hl & Hx & _).
      exists x. split; [|done]. rewrite Hl. apply elem_of_app. right. left.
    + split; [|done]. intros _ (n & Hn & Hfit).
      rewrite find_none in Hf. rewrite (Hf n Hn) in Hfit. done.
  - rewrite <- (fits_iff_largest a sz Hsz). unfold findSuitableBlock. rewrite Hs.
    pose proof (best_fit_scan sz _ (block_sizes_bounded _ Hwf) Hsz) as H.
    destruct (fold_left (best_step sz) (memoryBlocks a) (None, SIZE_MAX)).1
      as [it|].
    + split; [done|]. intros Hno. exfalso. apply Hno.
      destruct H as (l1 & b & l2 & Hl & Hfit & _).
      exists (it, b). split; [|done]. rewrite Hl. apply elem_of_app. right. left.
    + split; [|done]. intros _ (n & Hn & Hfit). destruct H as [_ H].
      rewrite (H n Hn) in Hfit. done.
  - rewrite <- (larger_iff_largest a sz). rewrite (worst_fit_none a sz Hwf Hs).
    split.
    + intros Hall (n & Hn & Hfit & Hne). by apply Hne, Hall.
    + intros Hno n Hn Hfit. destruct (N.eq_dec (size n.2) sz); [done|].
      exfalso. apply Hno. by exists n.
Qed.

(** X5.  [getLargestFreeBlock] returns the size of a largest free block:
    no free block is larger, and the value is the size of some free block
    unless it is 0 (as it is when no block is free). *)
Theorem getLargestFreeBlock_is_maximum a :
  (forall n, n ∈ memoryBlocks a -> isFree n.2 = true ->
     size n.2 <= getLargestFreeBlock a) /\
  (getLargestFreeBlock a = 0 \/
   exists n, n ∈ memoryBlocks a /\ isFree n.2 = true /\
     size n.2 = getLargestFreeBlock a).
Proof.
  destruct (largest_fold (memoryBlocks a) 0) as (_ & Hmax & Hwit).
  split; [exact Hmax|exact Hwit].
Qed.

(** X6.  In a reachable state [allocate sz] returns an address exactly when
    the request is not zero and the largest free block is large enough: at
    least [sz] under FIRST_FIT and BEST_FIT, strictly more than [sz] under
    WORST_FIT.  Otherwise it throws, "Cannot allocate zero bytes" for a zero
    request and "No suitable memory block found" for the others, and the
    state is left as it was. *)
Theorem allocate_succeeds_iff a sz :
  reachable a ->
  let enough :=
    match strategy a with
    | WORST_FIT => sz < getLargestFreeBlock a
    | _ => sz <= getLargestFreeBlock a
    end in
  ((exists addr a', allocate sz a = Returned addr a') <-> sz <> 0 /\ enough) /\
  (~ (sz <> 0 /\ enough) ->
   allocate sz a = Thrown (if sz =? 0 then ZeroSize else NoFit) a).
Proof.
  intros Hr enough. destruct (reachable_inv _ Hr) as [Hwf _].
  destruct (N.eq_dec sz 0) as [->|Hsz].
  { split; [|done]. split; [by intros (addr & a' & H)|by intros [H _]]. }
  pose proof (findSuitableBlock_none a sz Hwf Hsz) as Hnone.
  fold enough in Hnone.
  assert (Henough : findSuitableBlock a sz = None <-> ~ enough).
  { subst enough. by destruct (strategy a). }
  clear Hnone.
  destruct (findSuitableBlock a sz) as [it|] eqn:Hf.
  - assert (He : enough).
    { subst enough. destruct (strategy a); cbv beta iota in *.
      - destruct (N.le_gt_cases sz (getLargestFreeBlock a)) as [|Hgt]; [done|].
        assert (Some it = None) by (apply Henough; lia). done.
      - destruct (N.le_gt_cases sz (getLargestFreeBlock a)) as [|Hgt]; [done|].
        assert (Some it = None) by (apply Henough; lia). done.
      - destruct (N.lt_ge_cases sz (getLargestFreeBlock a)) as [|Hge]; [done|].
        assert (Some it = None) by (apply Henough; lia). done. }
    split; [|by intros H; exfalso; apply H].
    split; [done|]. intros _.
    destruct (allocate sz a) as [addr a'| |] eqn:Ha.
    + by exists addr, a'.
    + unfold allocate in Ha. rewrite Hf in Ha.
      destruct (sz =? 0) eqn:E; [by apply N.eqb_eq in E|].
      destruct (deref _ _); [|done]. by destruct (if sz <? _ then _ else _).
    + by apply allocate_defined in Ha.
  - assert (Hne : ~ enough) by (by apply Henough).
    split.
    + split; [|by intros [_ H]]. intros (addr & a' & Ha).
      unfold allocate in Ha. rewrite Hf in Ha. by destruct (sz =? 0).
    + intros _. unfold allocate. rewrite Hf.
      by destruct (N.eqb_spec sz 0).
Qed.

Lemma allocate_succeeds_iff_witness :
  ((exists addr a', allocate 50 arena3 = Returned addr a') <->
   50 <> 0 /\ 50 <= getLargestFreeBlock arena3) /\
  (~ (50 <> 0 /\ 50 <= getLargestFreeBlock arena3) ->
   allocate 50 arena3 = Thrown NoFit arena3).
Proof.
  apply (allocate_succeeds_iff arena3 50).
  arena3_is_reachable.
Defined.

End PlacementExtras.

Section StrategyExtras.

Implicit Types (l : list node) (n : node) (a : t).

Lemma address_order s l1 x l2 e :
  contiguous s (l1 ++ x :: l2) e ->
  (forall n, n ∈ l1 -> address n.2 <= address x.2) /\
  (forall n, n ∈ l2 -> address x.2 <= address n.2).
Proof.
  intros Hc. apply contiguous_app in Hc as (m & Hc1 & Hx & Hc2). split.
  - intros n Hn. destruct (contiguous_elem _ _ _ _ Hc1 Hn). lia.
  - intros n Hn. destruct (contiguous_elem _ _ _ _ Hc2 Hn). lia.
Qed.

Lemma chosen_block a sz addr a' :
  arena_wf a -> allocate sz a = Returned addr a' ->
  exists it b, findSuitableBlock a sz = Some it /\ sz <> 0 /\
    deref (memoryBlocks a) it = Some b /\ fits sz b = true /\ address b = addr.
Proof.
  intros Hwf Ha.
  apply allocate_Returned in Ha
    as (it & l1 & b & l2 & Hl & Hn & Hfree & Hsz & Hle & Hf & -> & _); [|done].
  exists it, b. rewrite Hl, deref_here by done. unfold fits.
  by rewrite Hfree, (proj2 (N.leb_le _ _) Hle).
Qed.

Lemma deref_split_eq a it b l1 b' l2 :
  arena_wf a -> deref (memoryBlocks a) it = Some b ->
  memoryBlocks a = l1 ++ (it, b') :: l2 -> b' = b.
Proof.
  intros Hwf Hd Hl.
  assert (deref (memoryBlocks a) it = Some b') as Hd'.
  { apply deref_elem; [rewrite <- index_fst; apply Hwf|].
    rewrite Hl. apply elem_of_app. right. left. }
  congruence.
Qed.

(** X7.  Under FIRST_FIT the address that [allocate] returns is the lowest
    base address among the free blocks that can hold the request: it is the
    base address of a block of the list that is free and large enough, and
    no such block has a lower base address. *)
Theorem first_fit_returns_lowest_address a sz addr a' :
  reachable a -> strategy a = FIRST_FIT ->
  allocate sz a = Returned addr a' ->
  exists it b, (it, b) ∈ memoryBlocks a /\ address b = addr /\
    fits sz b = true /\
    forall n, n ∈ memoryBlocks a -> fits sz n.2 = true -> addr <= address n.2.
Proof.
  intros Hr Hs Ha. destruct (reachable_inv _ Hr) as [Hwf _].
  destruct (chosen_block _ _ _ _ Hwf Ha) as (it & b & Hf & Hsz & Hd & Hb & <-).
  unfold findSuitableBlock in Hf. rewrite Hs in Hf.
  destruct (List.find _ _) as [[i b']|] eqn:Hfind; [|done].
  injection Hf as ->.
  apply find_first in Hfind as (l1 & l2 & Hl & _ & Hbefore).
  pose proof (deref_split_eq _ _ _ _ _ _ Hwf Hd Hl) as ->.
  pose proof (inv_layout _ Hwf) as Hc. rewrite Hl in Hc.
  destruct (address_order _ _ _ _ _ Hc) as [_ Hafter].
  exists it, b. split; [rewrite Hl; apply elem_of_app; right; left|].
  split; [done|]. split; [done|]. intros n Hn Hfit. rewrite Hl in Hn.
  apply elem_of_app in Hn as [Hn|Hn].
  - specialize (Hbefore _ Hn). simpl in Hbefore. congruence.
  - apply elem_of_cons in Hn as [->|Hn]; [done|]. by apply Hafter.
Qed.

Lemma first_fit_returns_lowest_address_witness :
  exists it b, (it, b) ∈ memoryBlocks arena3 /\ address b = 0 /\
    fits 50 b = true /\
    forall n, n ∈ memoryBlocks arena3 -> fits 50 n.2 = true -> 0 <= address n.2.
Proof.
  apply (first_fit_returns_lowest_address arena3 50 0 arena4).
  - arena3_is_reachable.
  - reflexivity.
  - vm_compute. reflexivity.
Defined.

(** X8.  Under BEST_FIT the block that [allocate] takes is a smallest one
    among the free blocks that can hold the request, and among those of that
    size the one at the lowest address: the address returned is the base
    address of a block of the list that is free and large enough, no free
    block that is large enough is smaller, and none of the same size has a
    lower base address. *)
Theorem best_fit_returns_tightest_block a sz addr a' :
  reachable a -> strategy a = BEST_FIT ->
  allocate sz a = Returned addr a' ->
  exists it b, (it, b) ∈ memoryBlocks a /\ address b = addr /\
    fits sz b = true /\
    forall n, n ∈ memoryBlocks a -> fits sz n.2 = true ->
      size b <= size n.2 /\ (size n.2 = size b -> addr <= address n.2).
Proof.
  intros Hr Hs Ha. destruct (reachable_inv _ Hr) as [Hwf _].
  destruct (chosen_block _ _ _ _ Hwf Ha) as (it & b & Hf & Hsz & Hd & Hb & <-).
  unfold findSuitableBlock in Hf. rewrite Hs in Hf.
  pose proof (best_fit_scan sz _ (block_sizes_bounded _ Hwf) Hsz) as H.
  rewrite Hf in H. destruct H as (l1 & b' & l2 & Hl & _ & _ & H1 & H2).
  pose proof (deref_split_eq _ _ _ _ _ _ Hwf Hd Hl) as ->.
  pose proof (inv_layout _ Hwf) as Hc. rewrite Hl in Hc.
  destruct (address_order _ _ _ _ _ Hc) as [_ Hafter].
  exists it, b. split; [rewrite Hl; apply elem_of_app; right; left|].
  split; [done|]. split; [done|]. intros n Hn Hfit. rewrite Hl in Hn.
  apply elem_of_app in Hn as [Hn|Hn].
  - specialize (H1 _ Hn Hfit). split; lia.
  - apply elem_of_cons in Hn as [->|Hn]; [done|].
    split; [by apply H2|]. intros _. by apply Hafter.
Qed.

Lemma best_fit_returns_tightest_block_witness :
  exists it b,
    (it, b) ∈ memoryBlocks (setAllocationStrategy BEST_FIT arena3) /\
    address b = 0 /\ fits 50 b = true /\
    forall n, n ∈ memoryBlocks (setAllocationStrategy BEST_FIT arena3) ->
      fits 50 n.2 = true ->
      size b <= size n.2 /\ (size n.2 = size b -> 0 <= address n.2).
Proof.
  apply (best_fit_returns_tightest_block
           (setAllocationStrategy BEST_FIT arena3) 50 0
           (final (allocate 50 (setAllocationStrategy BEST_FIT arena3)) arena3)).
  - apply reach_setAllocationStrategy. arena3_is_reachable.
  - reflexivity.
  - vm_compute. reflexivity.
Defined.

(** X9.  Under WORST_FIT the block that [allocate] takes is a largest one
    among the free blocks that can hold the request, and among those of that
    size the one at the lowest address: the address returned is the base
    address of a block of the list that is free and strictly larger than the
    request, no free block that is large enough is larger, and none of the
    same size has a lower base address. *)
Theorem worst_fit_returns_largest_block a sz addr a' :
  reachable a -> strategy a = WORST_FIT ->
  allocate sz a = Returned addr a' ->
  exists it b, (it, b) ∈ memoryBlocks a /\ address b = addr /\
    fits sz b = true /\ sz < size b /\
    forall n, n ∈ memoryBlocks a -> fits sz n.2 = true ->
      size n.2 <= size b /\ (size n.2 = size b -> addr <= address n.2).
Proof.
  intros Hr Hs Ha. destruct (reachable_inv _ Hr) as [Hwf _].
  destruct (chosen_block _ _ _ _ Hwf Ha) as (it & b & Hf & Hsz & Hd & Hb & <-).
  destruct (worst_fit_selects _ _ _ Hwf Hs Hf)
    as (l1 & b' & l2 & Hl & _ & Hlt & H1 & H2).
  pose proof (deref_split_eq _ _ _ _ _ _ Hwf Hd Hl) as ->.
  pose proof (inv_layout _ Hwf) as Hc. rewrite Hl in Hc.
  destruct (address_order _ _ _ _ _ Hc) as [_ Hafter].
  exists it, b. split; [rewrite Hl; apply elem_of_app; right; left|].
  split; [done|]. split; [done|]. split; [done|]. intros n Hn Hfit. rewrite Hl in Hn.
  apply elem_of_app in Hn as [Hn|Hn].
  - specialize (H1 _ Hn Hfit). split; lia.
  - apply elem_of_cons in Hn as [->|Hn]; [done|].
    split; [by apply H2|]. intros _. by apply Hafter.
Qed.

Lemma worst_fit_returns_largest_block_witness :
  exists it b,
    (it, b) ∈ memoryBlocks (setAllocationStrategy WORST_FIT arena3) /\
    address b = 300 /\ fits 50 b = true /\ 50 < size b /\
    forall n, n ∈ memoryBlocks (setAllocationStrategy WORST_FIT arena3) ->
      fits 50 n.2 = true ->
      size n.2 <= size b /\ (size n.2 = size b -> 300 <= address n.2).
Proof.
  apply (worst_fit_returns_largest_block
           (setAllocationStrategy WORST_FIT arena3) 50 300
           (final (allocate 50 (setAllocationStrategy WORST_FIT arena3)) arena3)).
  - apply reach_setAllocationStrategy. arena3_is_reachable.
  - reflexivity.
  - vm_compute. reflexivity.
Defined.

(** X10.  Coalescing is idempotent: a second pass of [mergeFreeBlocks] changes
    nothing, whatever the state. *)
Theorem mergeFreeBlocks_idempotent a :
  mergeFreeBlocks (mergeFreeBlocks a) = mergeFreeBlocks a.
Proof.
  apply mergeFreeBlocks_id. unfold mergeFreeBlocks.
  destruct (memoryBlocks a) as [|it rest] eqn:Hl; [by rewrite Hl|].
  pose proof (merge_from_naf it rest (addressMap a)).
  by destruct (merge_from it rest (addressMap a)).
Qed.

End StrategyExtras.

Section Order.

Implicit Types (l rest : list node) (it n : node) (m : gmap N iterator) (a : t).

Lemma merge_from_positive it rest m :
  total_bytes (it :: rest) < two64 ->
  Forall (fun n : node => 0 < size n.2) (it :: rest) ->
  Forall (fun n : node => 0 < size n.2) (merge_from it rest m).1.
Proof.
  revert it m. induction rest as [|nx rest IH]; intros it m Hb Hp; [done|].
  apply Forall_cons in Hp as [Hit Hp]. pose proof Hp as Hp'.
  apply Forall_cons in Hp' as [Hnx Hrest].
  cbn [merge_from]. cbn [total_bytes foldr] in Hb. fold (total_bytes rest) in Hb.
  destruct (isFree it.2 && isFree nx.2).
  - apply IH.
    + cbn [total_bytes foldr snd set_size size]. fold (total_bytes rest).
      rewrite add64_small by lia. lia.
    + apply Forall_cons. split; [|done]. cbn [snd set_size size].
      rewrite add64_small by lia. lia.
  - pose proof (IH nx m) as Hn.
    destruct (merge_from nx rest m) as [l m']. cbn [fst] in *.
    apply Forall_cons. split; [done|]. apply Hn; [|done].
    cbn [total_bytes foldr]. fold (total_bytes rest). lia.
Qed.

Lemma reachable_positive a :
  reachable a -> totalMemorySize a <> 0 ->
  Forall (fun n : node => 0 < size n.2) (memoryBlocks a).
Proof.
  induction 1 as [sz strat Hsz|a sz a' Hr IH H|a addr a' Hr IH H|a strat _ IH];
    intros Hne.
  - apply Forall_singleton. simpl in *. lia.
  - destruct (reachable_inv _ Hr) as [Hwf _].
    destruct (allocate sz a) as [ad s|e s|] eqn:Ha; simpl in H; [| |done]; subst s.
    + apply allocate_Returned in Ha
        as (it & l1 & b & l2 & Hl & Hn & Hfree & Hsz & Hle & _ & _ & ->); [|done].
      unfold allocated in *.
      assert (Hp : Forall (fun n : node => 0 < size n.2) (l1 ++ (it, b) :: l2)).
      { rewrite <- Hl. apply IH. by destruct (sz <? size b). }
      apply Forall_app in Hp as [Hp1 Hp2]. apply Forall_cons in Hp2 as [Hpb Hp2].
      destruct (N.ltb_spec sz (size b)); cbn [memoryBlocks with_blocks];
        apply Forall_app; (split; [done|]).
      * apply Forall_cons. split; [simpl; lia|].
        apply Forall_cons. split; [simpl; lia|done].
      * by apply Forall_cons.
    + apply allocate_Thrown in Ha as ->. by apply IH.
  - destruct (reachable_inv _ Hr) as [Hwf _].
    destruct (deallocate addr a) as [[] s|e s|] eqn:Hd; simpl in H; [| |done];
      subst s.
    + destruct (addressMap a !! addr) as [it|] eqn:Hm; cycle 1.
      { unfold deallocate in Hd. by rewrite Hm in Hd. }
      destruct (lookup_split _ _ _ Hwf Hm) as (l1 & b & l2 & Hl & Hn & _).
      rewrite (deallocate_eval _ _ _ _ _ _ Hm Hl Hn) in Hd. injection Hd as <-.
      rewrite mergeFreeBlocks_totalMemorySize in Hne. cbn [with_blocks totalMemorySize] in Hne.
      pose proof (reflag_wf _ _ _ _ _ true Hwf Hl) as Hwf1.
      pose proof (contiguous_total _ _ _ (inv_layout _ Hwf1)) as Ht.
      pose proof (inv_bound _ Hwf1) as Hb.
      cbn [with_blocks memoryBlocks totalMemorySize] in Ht, Hb.
      assert (Hp : Forall (fun n : node => 0 < size n.2)
                     (l1 ++ (it, set_isFree true b) :: l2)).
      { specialize (IH Hne). rewrite Hl in IH.
        apply Forall_app in IH as [Hp1 Hp2]. apply Forall_cons in Hp2 as [Hpb Hp2].
        apply Forall_app. split; [done|]. by apply Forall_cons. }
      unfold mergeFreeBlocks. cbn [with_blocks memoryBlocks addressMap next_iterator].
      destruct (l1 ++ (it, set_isFree true b) :: l2) as [|x r] eqn:E; [done|].
      pose proof (merge_from_positive x r (addressMap a)) as Hmp.
      destruct (merge_from x r (addressMap a)) as [l m']. cbn [fst memoryBlocks] in *.
      apply Hmp; [lia|done].
    + apply deallocate_Thrown in Hd as (_ & -> & _). by apply IH.
  - by apply IH.
Qed.

Lemma contiguous_sorted s l e :
  contiguous s l e -> Forall (fun n : node => 0 < size n.2) l ->
  StronglySorted N.lt (map (fun n : node => address n.2) l) /\
  Forall (fun x => s <= x) (map (fun n : node => address n.2) l).
Proof.
  revert s. induction l as [|n l IH]; intros s Hc Hp; simpl.
  { split; constructor. }
  destruct Hc as [Ha Hc]. apply Forall_cons in Hp as [Hn Hp].
  destruct (IH _ Hc Hp) as [Hs Hge]. split.
  - constructor; [done|]. eapply Forall_impl; [exact Hge|]. simpl. lia.
  - constructor; [lia|]. eapply Forall_impl; [exact Hge|]. simpl. lia.
Qed.

(** X11.  In every reachable state of an arena of non-zero size, every block
    has a positive size and the blocks are in strictly increasing order of
    base address. *)
Theorem blocks_strictly_ordered a :
  reachable a -> totalMemorySize a <> 0 ->
  Forall (fun n : node => 0 < size n.2) (memoryBlocks a) /\
  StronglySorted N.lt (map (fun n : node => address n.2) (memoryBlocks a)).
Proof.
  intros Hr Hne. pose proof (reachable_positive _ Hr Hne) as Hp.
  split; [done|]. destruct (reachable_inv _ Hr) as [Hwf _].
  by destruct (contiguous_sorted _ _ _ (inv_layout _ Hwf) Hp).
Qed.

Lemma blocks_strictly_ordered_witness :
  Forall (fun n : node => 0 < size n.2) (memoryBlocks arena3) /\
  StronglySorted N.lt (map (fun n : node => address n.2) (memoryBlocks arena3)).
Proof.
  apply (blocks_strictly_ordered arena3).
  - arena3_is_reachable.
  - vm_compute. discriminate.
Defined.

End Order.

(** * Sorted ranges, map entries and sums *)

Section Sorting.

Context {A : Type} (comp : A -> A -> bool).

Lemma sort_insert_elem (x y : A) (k : list A) :
  y ∈ sort_insert comp x k <-> y = x \/ y ∈ k.
Proof.
  induction k as [|z k IH]; simpl.
  { rewrite list_elem_of_singleton. rewrite elem_of_nil. tauto. }
  destruct (comp z x).
  - rewrite !elem_of_cons, IH. tauto.
  - rewrite !elem_of_cons. tauto.
Qed.

Lemma std_sort_elem (y : A) (k : list A) : y ∈ std_sort comp k <-> y ∈ k.
Proof.
  induction k as [|z k IH]; [done|]. unfold std_sort in *. cbn [foldr].
  rewrite sort_insert_elem, elem_of_cons, IH. tauto.
Qed.

Lemma sort_insert_length (x : A) (k : list A) :
  length (sort_insert comp x k) = S (length k).
Proof.
  induction k as [|z k IH]; [done|]. simpl.
  destruct (comp z x); simpl; by rewrite ?IH.
Qed.

Lemma std_sort_length (k : list A) : length (std_sort comp k) = length k.
Proof.
  induction k as [|z k IH]; [done|]. unfold std_sort in *. cbn [foldr].
  by rewrite sort_insert_length, IH.
Qed.

(** The first element of a sorted range is not preceded by any other, when
    the comparison is the strict part of a total preorder on keys. *)
Lemma sort_insert_head (key : A -> N) (x : A) (k : list A) :
  (forall a b, comp a b = (key b <? key a)) ->
  (forall y, head k = Some y -> forall z, z ∈ k -> key z <= key y) ->
  forall y, head (sort_insert comp x k) = Some y ->
  forall z, z ∈ sort_insert comp x k -> key z <= key y.
Proof.
  intros Hcomp Hk y Hy z Hz. apply sort_insert_elem in Hz.
  destruct k as [|w k]; simpl in Hy.
  { injection Hy as <-. destruct Hz as [->|Hz]; [lia|]. by apply elem_of_nil in Hz. }
  rewrite Hcomp in Hy. specialize (Hk w eq_refl).
  destruct (N.ltb_spec (key x) (key w)); simpl in Hy; injection Hy as <-.
  - destruct Hz as [->|Hz]; [lia|by apply Hk].
  - destruct Hz as [->|Hz]; [lia|]. specialize (Hk z Hz). lia.
Qed.

Lemma std_sort_head (key : A -> N) (k : list A) :
  (forall a b, comp a b = (key b <? key a)) ->
  forall y, head (std_sort comp k) = Some y ->
  forall z, z ∈ k -> key z <= key y.
Proof.
  intros Hcomp y Hy z Hz. apply std_sort_elem in Hz. revert y Hy z Hz.
  induction k as [|w k IH]; [done|]. unfold std_sort in *. cbn [foldr].
  by apply sort_insert_head.
Qed.

Lemma sort_insert_sorted (key : A -> N) (x : A) (k : list A) :
  (forall a b, comp a b = (key b <? key a)) ->
  StronglySorted (fun a b => key b <= key a) k ->
  StronglySorted (fun a b => key b <= key a) (sort_insert comp x k).
Proof.
  intros Hcomp. induction k as [|y k IH]; intros Hk; simpl.
  { repeat constructor. }
  apply StronglySorted_inv in Hk as [Hk Hy]. rewrite Hcomp.
  destruct (N.ltb_spec (key x) (key y)) as [Hlt|Hge].
  - constructor; [by apply IH|]. apply Forall_forall. intros z Hz.
    apply sort_insert_elem in Hz as [->|Hz]; [lia|].
    by apply (proj1 (Forall_forall _ _) Hy).
  - constructor; [by constructor|]. apply Forall_cons_2; [done|].
    apply Forall_forall. intros z Hz.
    pose proof (proj1 (Forall_forall _ _) Hy z Hz). simpl in *. lia.
Qed.

Lemma std_sort_sorted (key : A -> N) (k : list A) :
  (forall a b, comp a b = (key b <? key a)) ->
  StronglySorted (fun a b => key b <= key a) (std_sort comp k).
Proof.
  intros Hcomp. induction k as [|y k IH]; [constructor|].
  unfold std_sort in *. cbn [foldr]. by apply sort_insert_sorted.
Qed.

Lemma sorted_app_order (R : A -> A -> Prop) (k1 k2 : list A) :
  StronglySorted R (k1 ++ k2) ->
  forall a b, a ∈ k1 -> b ∈ k2 -> R a b.
Proof.
  induction k1 as [|y k1 IH]; intros Hs a b Ha Hb.
  { by apply elem_of_nil in Ha. }
  cbn [app] in Hs. apply StronglySorted_inv in Hs as [Hs Hy].
  apply elem_of_cons in Ha as [->|Ha]; [|by apply IH].
  apply (proj1 (Forall_forall _ _) Hy). apply elem_of_app. by right.
Qed.

End Sorting.

Section Entries.

Context {V : Type}.

Lemma entries_elem (m : gmap N V) (k : N) (v : V) :
  (k, v) ∈ entries m <-> m !! k = Some v.
Proof. unfold entries. by rewrite std_sort_elem, elem_of_map_to_list. Qed.

Lemma entries_nil (m : gmap N V) : entries m = [] <-> m = ∅.
Proof.
  unfold entries. rewrite <- map_to_list_empty_iff. split.
  - intros H. apply (f_equal length) in H. rewrite std_sort_length in H.
    by apply nil_length_inv.
  - by intros ->.
Qed.

End Entries.

Section SortingPermutation.

Context {A : Type} (comp : A -> A -> bool).

Lemma sort_insert_perm (x : A) (k : list A) : sort_insert comp x k ≡ₚ x :: k.
Proof.
  induction k as [|y k IH]; [done|]. simpl. destruct (comp y x); [|done].
  rewrite IH. apply Permutation_swap.
Qed.

Lemma std_sort_perm (k : list A) : std_sort comp k ≡ₚ k.
Proof.
  induction k as [|y k IH]; [done|]. unfold std_sort in *. cbn [foldr].
  by rewrite sort_insert_perm, IH.
Qed.

End SortingPermutation.

Section Sums.

Context {A : Type} (g : A -> N).

Lemma sum_of_perm (k1 k2 : list A) : k1 ≡ₚ k2 -> sum_of g k1 = sum_of g k2.
Proof.
  induction 1 as [|e k1 k2 _ IH|e1 e2 k|k1 k2 k3 _ IH1 _ IH2]; simpl; lia.
Qed.

Lemma sum_of_cons (e : A) (k : list A) : sum_of g (e :: k) = g e + sum_of g k.
Proof. reflexivity. Qed.

Lemma sum_of_app (k1 k2 : list A) :
  sum_of g (k1 ++ k2) = sum_of g k1 + sum_of g k2.
Proof. induction k1 as [|e k1 IH]; simpl; [done|]. rewrite IH. lia. Qed.

Lemma sum_of_take_le (n : nat) (k : list A) : sum_of g (take n k) <= sum_of g k.
Proof.
  rewrite <- (take_drop n k) at 2. rewrite sum_of_app. lia.
Qed.

Lemma wrap_add_l a b : wrap (wrap a + b) = wrap (a + b).
Proof. unfold wrap. by rewrite N.Div0.add_mod_idemp_l. Qed.

Lemma fold_add64_sum (k : list A) : forall acc,
  fold_left (fun total e => add64 total (g e)) k (wrap acc)
  = wrap (acc + sum_of g k).
Proof.
  induction k as [|e k IH]; intros acc; cbn [fold_left sum_of foldr].
  { by rewrite N.add_0_r. }
  unfold add64 at 2. rewrite wrap_add_l, IH. f_equal. fold (sum_of g k). lia.
Qed.

End Sums.

(** * Further properties of the profiler *)

Section ProfilerExtras.

Import MemoryProfiler.

Implicit Types (h : list AllocationRecord) (r : AllocationRecord) (p : t).

Lemma deactivate_length addr now h :
  length (deactivate addr now h).1 = length h.
Proof.
  induction h as [|r h IH]; simpl; [done|].
  destruct ((address r =? addr) && isActive r); [done|].
  destruct (deactivate addr now h). simpl in *. by rewrite IH.
Qed.

Lemma recordDeallocation_history_length addr now p :
  length (allocationHistory (recordDeallocation addr now p))
  = length (allocationHistory p).
Proof.
  unfold recordDeallocation.
  pose proof (deactivate_length addr now (allocationHistory p)) as H.
  destruct (deactivate addr now (allocationHistory p)) as [h o].
  by destruct o.
Qed.

Lemma recordDeallocation_sizeFrequency addr now p :
  sizeFrequency (recordDeallocation addr now p) = sizeFrequency p.
Proof.
  unfold recordDeallocation.
  destruct (deactivate addr now (allocationHistory p)) as [h o].
  by destruct o.
Qed.

Lemma recordAllocation_sizeFrequency sz addr pool now p :
  sizeFrequency (recordAllocation sz addr pool now p)
  = increment sz (sizeFrequency p).
Proof. unfold recordAllocation. by destruct (10000 <? _). Qed.

Lemma recordAllocation_history sz addr pool now p :
  let record := mkRecord sz addr now time_point_default true pool in
  allocationHistory (recordAllocation sz addr pool now p)
  = if 10000 <? N.of_nat (length (allocationHistory p ++ [record]))
    then tail (allocationHistory p ++ [record])
    else allocationHistory p ++ [record].
Proof. unfold recordAllocation. cbn. by destruct (10000 <? _). Qed.

(** X12.  [recordAllocation] keeps the history within its cap: on a history
    of at most 10000 records the new record becomes the last one, and when
    the history already holds 10000 records the oldest one is dropped. *)
Theorem recordAllocation_caps_history sz addr pool now p :
  N.of_nat (length (allocationHistory p)) <= 10000 ->
  let record := mkRecord sz addr now time_point_default true pool in
  let h' := allocationHistory (recordAllocation sz addr pool now p) in
  N.of_nat (length h') <= 10000 /\ last h' = Some record /\
  (N.of_nat (length (allocationHistory p)) < 10000 ->
   h' = allocationHistory p ++ [record]) /\
  (N.of_nat (length (allocationHistory p)) = 10000 ->
   h' = tail (allocationHistory p) ++ [record]).
Proof.
  intros Hlen record h'. subst h'. rewrite recordAllocation_history.
  fold record. rewrite length_app. cbn [length].
  destruct (N.ltb_spec 10000 (N.of_nat (length (allocationHistory p) + 1)))
    as [Hfull|Hroom].
  - assert (N.of_nat (length (allocationHistory p)) = 10000) as Heq by lia.
    destruct (allocationHistory p) as [|r0 h]; [simpl in Heq; lia|].
    cbn [app tail]. cbn [length] in Heq.
    split; [rewrite length_app; cbn [length]; lia|].
    split; [apply last_snoc|]. split; [cbn [length]; lia|done].
  - split; [rewrite length_app; cbn [length]; lia|]. split; [apply last_snoc|].
    split; [done|]. lia.
Qed.

Lemma recordAllocation_caps_history_witness :
  N.of_nat (length (allocationHistory (recordAllocation 8 100 0 3 profiler2)))
  <= 10000 /\
  last (allocationHistory (recordAllocation 8 100 0 3 profiler2))
  = Some (mkRecord 8 100 3 time_point_default true 0) /\
  (N.of_nat (length (allocationHistory profiler2)) < 10000 ->
   allocationHistory (recordAllocation 8 100 0 3 profiler2)
   = allocationHistory profiler2
     ++ [mkRecord 8 100 3 time_point_default true 0]) /\
  (N.of_nat (length (allocationHistory profiler2)) = 10000 ->
   allocationHistory (recordAllocation 8 100 0 3 profiler2)
   = tail (allocationHistory profiler2)
     ++ [mkRecord 8 100 3 time_point_default true 0]).
Proof.
  apply (recordAllocation_caps_history 8 100 0 3 profiler2).
  vm_compute. discriminate.
Defined.

Lemma profiler_run_snoc calls c :
  profiler_run (calls ++ [c]) = profiler_step (profiler_run calls) c.
Proof. unfold profiler_run. by rewrite fold_left_app. Qed.

Lemma filter_snoc {A} (f : A -> bool) (k : list A) x :
  List.filter f (k ++ [x]) = List.filter f k ++ (if f x then [x] else []).
Proof. by rewrite List.filter_app. Qed.

Lemma history_length_run calls :
  N.of_nat (length (allocationHistory (profiler_run calls)))
  = N.min (N.of_nat (length (List.filter is_allocation calls))) 10000.
Proof.
  induction calls as [|c calls IH] using rev_ind; [done|].
  rewrite profiler_run_snoc, filter_snoc. destruct c as [sz addr pool now|addr now].
  - cbn [profiler_step is_allocation]. rewrite recordAllocation_history.
    cbv zeta. rewrite !length_app. cbn [length].
    destruct (N.ltb_spec 10000
                (N.of_nat (length (allocationHistory (profiler_run calls)) + 1))).
    + destruct (allocationHistory (profiler_run calls)) as [|r0 h] eqn:E.
      { cbn [length] in *. lia. }
      cbn [app tail]. rewrite length_app. cbn [length] in *. lia.
    + rewrite length_app. cbn [length]. lia.
  - cbn [profiler_step is_allocation].
    rewrite recordDeallocation_history_length, app_nil_r. done.
Qed.

(** X13.  After any sequence of calls on a fresh profiler the history holds
    the last 10000 allocations at most: its length is the number of
    [recordAllocation] calls, capped at 10000, and no [recordDeallocation]
    removes a record. *)
Theorem history_length_after_calls calls :
  N.of_nat (length (allocationHistory (profiler_run calls)))
  = N.min (N.of_nat (length (List.filter is_allocation calls))) 10000.
Proof. apply history_length_run. Qed.

Lemma sizeFrequency_after_calls calls sz :
  N.of_nat (length calls) < two64 ->
  sizeFrequency (profiler_run calls) !! sz
  = match length (List.filter (is_allocation_of sz) calls) with
    | O => None
    | S k => Some (N.of_nat (S k))
    end.
Proof.
  induction calls as [|c calls IH] using rev_ind; intros Hb; [done|].
  rewrite length_app in Hb. cbn [length] in Hb.
  rewrite profiler_run_snoc, filter_snoc, length_app.
  pose proof (List.filter_length_le (is_allocation_of sz) calls) as Hle.
  destruct c as [sz' addr pool now|addr now].
  - cbn [profiler_step is_allocation_of].
    rewrite recordAllocation_sizeFrequency. unfold increment.
    destruct (N.eqb_spec sz' sz) as [->|Hne].
    + rewrite lookup_insert_eq, IH by lia. cbn [length].
      destruct (length (List.filter (is_allocation_of sz) calls)) as [|k] eqn:E.
      * change (default 0 None) with 0. by rewrite add64_small by done.
      * change (default 0 (Some (N.of_nat (S k)))) with (N.of_nat (S k)).
        rewrite add64_small by lia.
        replace (S k + 1)%nat with (S (S k)) by lia. f_equal. lia.
    + rewrite lookup_insert_ne by done. rewrite IH by lia.
      cbn [length]. by rewrite Nat.add_0_r.
  - cbn [profiler_step is_allocation_of length].
    rewrite recordDeallocation_sizeFrequency, IH by lia. by rewrite Nat.add_0_r.
Qed.

(** X14.  The size frequencies count every allocation ever recorded: after
    any sequence of calls on a fresh profiler the frequency of a size is the
    number of [recordAllocation] calls with that size, whatever was evicted
    from the history or deallocated since (a size never recorded has no
    entry). *)
Theorem sizeFrequency_counts_all_allocations calls sz :
  N.of_nat (length calls) < two64 ->
  sizeFrequency (profiler_run calls) !! sz
  = match length (List.filter (is_allocation_of sz) calls) with
    | O => None
    | S k => Some (N.of_nat (S k))
    end.
Proof. apply sizeFrequency_after_calls. Qed.

Lemma sizeFrequency_counts_all_allocations_witness :
  sizeFrequency (profiler_run calls4) !! 8
  = match length (List.filter (is_allocation_of 8) calls4) with
    | O => None
    | S k => Some (N.of_nat (S k))
    end.
Proof.
  apply (sizeFrequency_counts_all_allocations calls4 8).
  reflexivity.
Defined.

End ProfilerExtras.

Section ProfilerMetrics.

Import MemoryProfiler.

Implicit Types (h : list AllocationRecord) (r : AllocationRecord) (p : t).

Lemma successful_fold h : forall acc,
  acc + N.of_nat (length h) < two64 ->
  fold_left
    (fun n record =>
       if isActive record
          || negb (Z.eqb (deallocationTime record) time_point_default)
       then add64 n 1 else n) h acc
  = acc + N.of_nat (length (List.filter counted_successful h)).
Proof.
  induction h as [|r h IH]; intros acc Hb; cbn [fold_left List.filter length].
  { lia. }
  cbn [length] in Hb. unfold counted_successful at 1.
  pose proof (List.filter_length_le counted_successful h) as Hle.
  destruct (isActive r || negb (Z.eqb (deallocationTime r) time_point_default)).
  - rewrite add64_small by lia. rewrite IH by lia. cbn [length]. lia.
  - rewrite IH by lia. lia.
Qed.

Lemma getPerformanceMetrics_hitRate allocator p :
  let total := length (allocationHistory p) in
  let ok := length (List.filter counted_successful (allocationHistory p)) in
  let m := getPerformanceMetrics allocator p in
  N.of_nat total < two64 ->
  failedAllocations m = N.of_nat (total - ok) /\
  match total with
  | O => hitRate m = NaN
  | S _ =>
      hitRate m = Fin (inject_Z (Z.of_nat ok) / inject_Z (Z.of_nat total)) /\
      dle (Fin 0) (hitRate m) = true /\ dle (hitRate m) (Fin 1) = true
  end.
Proof.
  intros total ok m Hb. subst m. unfold getPerformanceMetrics.
  cbn [failedAllocations hitRate]. unfold getTotalAllocations. fold total.
  rewrite successful_fold by (fold total; lia). fold ok.
  assert (ok <= total)%nat as Hle by apply List.filter_length_le.
  rewrite N.add_0_l. split.
  { rewrite sub64_small by lia. lia. }
  destruct total as [|n] eqn:E.
  { replace ok with 0%nat by lia. reflexivity. }
  rewrite <- E in *. unfold of_size_t. rewrite !nat_N_Z.
  unfold ddiv. destruct (Qeq_bool (inject_Z (Z.of_nat total)) 0) eqn:Hz.
  { apply Qeq_bool_iff in Hz. unfold Qeq in Hz. simpl in Hz. lia. }
  split; [done|].
  assert (0 < inject_Z (Z.of_nat total))%Q as Hpos.
  { unfold Qlt. simpl. lia. }
  unfold dle, dlt. rewrite !negb_involutive. split.
  - apply Qle_bool_iff. apply Qle_shift_div_l; [done|].
    rewrite Qmult_0_l. unfold Qle. simpl. lia.
  - apply Qle_bool_iff. apply Qle_shift_div_r; [done|].
    rewrite Qmult_1_l. unfold Qle. simpl. lia.
Qed.

(** X15.  The hit rate of [getPerformanceMetrics] is the share of history
    records that are active or carry a deallocation time other than the
    epoch; [failedAllocations] counts the others.  On an empty history the
    division is 0/0 and the hit rate is NaN; otherwise it is a finite number
    between 0 and 1. *)
Theorem hitRate_is_share_of_successful allocator p :
  let total := length (allocationHistory p) in
  let ok := length (List.filter counted_successful (allocationHistory p)) in
  let m := getPerformanceMetrics allocator p in
  N.of_nat total < two64 ->
  failedAllocations m = N.of_nat (total - ok) /\
  match total with
  | O => hitRate m = NaN
  | S _ =>
      hitRate m = Fin (inject_Z (Z.of_nat ok) / inject_Z (Z.of_nat total)) /\
      dle (Fin 0) (hitRate m) = true /\ dle (hitRate m) (Fin 1) = true
  end.
Proof. apply getPerformanceMetrics_hitRate. Qed.

Lemma hitRate_is_share_of_successful_witness :
  failedAllocations (getPerformanceMetrics arena3 (profiler_run calls4))
  = N.of_nat
      (length (allocationHistory (profiler_run calls4))
       - length (List.filter counted_successful
                   (allocationHistory (profiler_run calls4)))) /\
  match length (allocationHistory (profiler_run calls4)) with
  | O => hitRate (getPerformanceMetrics arena3 (profiler_run calls4)) = NaN
  | S _ =>
      hitRate (getPerformanceMetrics arena3 (profiler_run calls4))
      = Fin (inject_Z
               (Z.of_nat
                  (length (List.filter counted_successful
                             (allocationHistory (profiler_run calls4)))))
             / inject_Z
                 (Z.of_nat (length (allocationHistory (profiler_run calls4))))) /\
      dle (Fin 0) (hitRate (getPerformanceMetrics arena3 (profiler_run calls4)))
      = true /\
      dle (hitRate (getPerformanceMetrics arena3 (profiler_run calls4))) (Fin 1)
      = true
  end.
Proof.
  apply (hitRate_is_share_of_successful arena3 (profiler_run calls4)).
  reflexivity.
Defined.

Lemma determineOptimalStrategy_table_eq pattern :
  determineOptimalStrategy pattern
  = match size_variance pattern with
    | None => None
    | Some variance =>
        Some
          (if dlt variance (Fin 1000) then BEST_FIT
           else if dlt (averageLifetime pattern) (Fin 1000) then FIRST_FIT
           else if (5 <? length (hotSpots pattern))%nat then WORST_FIT
           else FIRST_FIT)
    end.
Proof.
  unfold determineOptimalStrategy. fold (size_variance pattern).
  destruct (size_variance pattern) as [variance|]; [|done].
  destruct (dlt variance (Fin 1000)),
    (dlt (averageLifetime pattern) (Fin 1000)),
    (5 <? length (hotSpots pattern))%nat; reflexivity.
Qed.

(** X16.  The scores of [determineOptimalStrategy] reduce to a decision
    table: BEST_FIT when the size variance is below 1000; otherwise FIRST_FIT,
    except that long-lived allocations (average lifetime not below 1000) with
    more than five hot spots give WORST_FIT.  The result is undefined only
    when [commonSizes[0]] is read from an empty vector. *)
Theorem determineOptimalStrategy_decision_table pattern :
  determineOptimalStrategy pattern
  = match size_variance pattern with
    | None => None
    | Some variance =>
        Some
          (if dlt variance (Fin 1000) then BEST_FIT
           else if dlt (averageLifetime pattern) (Fin 1000) then FIRST_FIT
           else if (5 <? length (hotSpots pattern))%nat then WORST_FIT
           else FIRST_FIT)
    end.
Proof. apply determineOptimalStrategy_table_eq. Qed.

End ProfilerMetrics.

Section ProfilerPrediction.

Import MemoryProfiler.

Implicit Types (p : t).

Lemma size_variance_defined pattern c0 cs :
  commonSizes pattern = c0 :: cs -> exists v, size_variance pattern = Some v.
Proof.
  intros Hc. unfold size_variance. rewrite Hc.
  generalize (Fin 0). induction (entries (sizeDistribution pattern)) as [|e k IH].
  { intros v. by exists v. }
  intros v. cbn [fold_left]. apply IH.
Qed.

Lemma distribution_fold (total : N) (k : list (N * N)) : forall (m : gmap N double) sz,
  (fold_left
     (fun (m : gmap N double) (e : N * N) =>
        <[ e.1 := ddiv (of_size_t e.2) (of_size_t total) ]> m) k m) !! sz = None
  <-> m !! sz = None /\ forall f, (sz, f) ∉ k.
Proof.
  induction k as [|[s f] k IH]; intros m sz; cbn [fold_left].
  { split; [intros H; split; [done|]; intros f Hf; by apply elem_of_nil in Hf|tauto]. }
  rewrite IH. cbn [fst snd]. destruct (decide (s = sz)) as [->|Hne].
  - rewrite lookup_insert_eq. split; [by intros [? _]|].
    intros [_ H]. exfalso. apply (H f). left.
  - rewrite lookup_insert_ne by done. split; intros [Hm H]; (split; [done|]).
    + intros f' Hf. apply elem_of_cons in Hf as [Hf|Hf]; [congruence|by apply (H f')].
    + intros f' Hf. apply (H f'). by right.
Qed.

Lemma sizeDistribution_lookup_None p sz :
  sizeDistribution (analyzePatterns p) !! sz = None
  <-> sizeFrequency p !! sz = None.
Proof.
  unfold analyzePatterns.
  destruct (fold_left _ (entries (lifetimeDistribution p)) _) as [totalLifetime count].
  cbn [sizeDistribution]. rewrite distribution_fold, lookup_empty. split.
  - intros [_ H]. destruct (sizeFrequency p !! sz) as [f|] eqn:E; [|done].
    exfalso. apply (H f). by rewrite std_sort_elem, entries_elem.
  - intros H. split; [done|]. intros f Hf.
    rewrite std_sort_elem, entries_elem in Hf. congruence.
Qed.

Lemma commonSizes_head p :
  head (commonSizes (analyzePatterns p))
  = fst <$> head (std_sort (fun a b : N * N => b.2 <? a.2)
                    (entries (sizeFrequency p))).
Proof.
  unfold analyzePatterns.
  destruct (fold_left _ (entries (lifetimeDistribution p)) _) as [totalLifetime count].
  cbn [commonSizes]. by destruct (std_sort _ _).
Qed.

Lemma size_variance_analyzePatterns p :
  exists v, size_variance (analyzePatterns p) = Some v.
Proof.
  destruct (commonSizes (analyzePatterns p)) as [|c0 cs] eqn:Hc.
  - assert (sizeDistribution (analyzePatterns p) = ∅) as Hd.
    { apply map_eq. intros sz. rewrite lookup_empty.
      apply sizeDistribution_lookup_None.
      pose proof (commonSizes_head p) as Hh. rewrite Hc in Hh.
      destruct (std_sort _ (entries (sizeFrequency p))) as [|e k] eqn:Hs; [|done].
      apply (f_equal length) in Hs. rewrite std_sort_length in Hs.
      apply nil_length_inv, entries_nil in Hs. by rewrite Hs. }
    unfold size_variance. rewrite (proj2 (entries_nil _) Hd). by exists (Fin 0).
  - by apply (size_variance_defined _ c0 cs).
Qed.

(** X17.  [predictNextAllocation] is defined on every profiler:
    [determineOptimalStrategy] reads [commonSizes[0]] only when some size has
    been recorded.  The predicted next size is a recorded size of maximal
    frequency, and it is left unset exactly when no allocation was ever
    recorded. *)
Theorem predictNextAllocation_most_frequent_size p :
  exists prediction,
    predictNextAllocation p = Some prediction /\
    match nextLikelySize prediction with
    | Some sz =>
        exists f, sizeFrequency p !! sz = Some f /\
          forall sz' f', sizeFrequency p !! sz' = Some f' -> f' <= f
    | None => sizeFrequency p = ∅
    end.
Proof.
  unfold predictNextAllocation.
  destruct (size_variance_analyzePatterns p) as [v Hv].
  rewrite determineOptimalStrategy_table_eq, Hv.
  eexists. split; [reflexivity|]. cbn [nextLikelySize].
  rewrite commonSizes_head.
  destruct (std_sort _ (entries (sizeFrequency p))) as [|[sz f] k] eqn:Hs.
  - apply (f_equal length) in Hs. rewrite std_sort_length in Hs.
    by apply nil_length_inv, entries_nil in Hs.
  - cbn [head fmap option_fmap option_map fst].
    assert ((sz, f) ∈ entries (sizeFrequency p)) as Hin.
    { apply (std_sort_elem (fun a b : N * N => b.2 <? a.2)). rewrite Hs. left. }
    exists f. split; [by apply entries_elem|]. intros sz' f' Hf'.
    apply entries_elem in Hf'.
    apply (std_sort_head (fun a b : N * N => b.2 <? a.2) snd
             (entries (sizeFrequency p)) (fun _ _ => eq_refl) (sz, f)
             ltac:(by rewrite Hs) (sz', f') Hf').
Qed.

(** X18.  [shouldCreatePoolForSize] answers false for every size that was
    never recorded, whatever the threshold (also the threshold 0). *)
Theorem shouldCreatePoolForSize_unseen_size p sz threshold :
  sizeFrequency p !! sz = None ->
  shouldCreatePoolForSize sz threshold p = Some false.
Proof.
  intros H. unfold shouldCreatePoolForSize.
  by rewrite (proj2 (sizeDistribution_lookup_None p sz) H).
Qed.

Lemma shouldCreatePoolForSize_unseen_size_witness :
  shouldCreatePoolForSize 32 0 (profiler_run calls4) = Some false.
Proof.
  apply (shouldCreatePoolForSize_unseen_size (profiler_run calls4) 32 0).
  vm_compute. reflexivity.
Defined.

End ProfilerPrediction.

Section ProfilerConfidence.

Import MemoryProfiler.

Implicit Types (p : t) (m : gmap N N).

Lemma increment_sum m sz :
  default 0 (m !! sz) + 1 < two64 ->
  sum_of snd (map_to_list (increment sz m)) = sum_of snd (map_to_list m) + 1.
Proof.
  intros Hb. unfold increment. rewrite add64_small by done.
  destruct (m !! sz) as [f|] eqn:E.
  - rewrite <- insert_delete_eq.
    rewrite (sum_of_perm _ _ _
               (map_to_list_insert (delete sz m) sz _ (lookup_delete_eq _ _))).
    rewrite <- (sum_of_perm _ _ _ (map_to_list_delete _ _ _ E)).
    rewrite !sum_of_cons. cbn [snd]. change (default 0 (Some f)) with f. lia.
  - rewrite (sum_of_perm _ _ _ (map_to_list_insert _ _ _ E)).
    rewrite sum_of_cons. cbn [snd]. change (default 0 None) with 0. lia.
Qed.

Lemma frequency_le_calls calls sz f :
  N.of_nat (length calls) < two64 ->
  sizeFrequency (profiler_run calls) !! sz = Some f ->
  0 < f <= N.of_nat (length calls).
Proof.
  intros Hb Hf. rewrite sizeFrequency_after_calls in Hf by done.
  pose proof (List.filter_length_le (is_allocation_of sz) calls) as Hle.
  destruct (length (List.filter (is_allocation_of sz) calls)); [done|].
  injection Hf as <-. lia.
Qed.

Lemma frequency_total calls :
  N.of_nat (length calls) < two64 ->
  sum_of snd (map_to_list (sizeFrequency (profiler_run calls)))
  = N.of_nat (length (List.filter is_allocation calls)).
Proof.
  induction calls as [|c calls IH] using rev_ind; intros Hb; [done|].
  rewrite length_app in Hb. cbn [length] in Hb.
  rewrite profiler_run_snoc, filter_snoc, length_app.
  destruct c as [sz addr pool now|addr now]; cbn [profiler_step is_allocation].
  - rewrite recordAllocation_sizeFrequency, increment_sum.
    { rewrite IH by lia. cbn [length]. lia. }
    destruct (sizeFrequency (profiler_run calls) !! sz) as [f|] eqn:E.
    + apply frequency_le_calls in E; [|lia].
      change (default 0 (Some f)) with f. lia.
    + change (default 0 None) with 0. unfold two64. lia.
  - rewrite recordDeallocation_sizeFrequency, IH by lia. cbn [length]. lia.
Qed.

Lemma common_fold m (k : list (N * N)) :
  (forall e, e ∈ k -> m !! e.1 = Some e.2) ->
  forall acc,
    fold_left
      (fun acc sz =>
         match m !! sz with
         | Some f => add64 acc f
         | None => acc
         end)
      (map fst k) acc
    = fold_left (fun total (e : N * N) => add64 total e.2) k acc.
Proof.
  induction k as [|e k IH]; intros Hk acc; [done|]. cbn [map fold_left].
  rewrite (Hk e) by left. apply IH. intros e' He'. apply Hk. by right.
Qed.

Lemma commonSizes_eq p :
  commonSizes (analyzePatterns p)
  = map fst (take 5 (std_sort (fun a b : N * N => b.2 <? a.2)
                       (entries (sizeFrequency p)))).
Proof.
  unfold analyzePatterns.
  by destruct (fold_left _ (entries (lifetimeDistribution p)) _).
Qed.

Lemma common_sum m (k : list (N * N)) :
  (forall e, e ∈ k -> m !! e.1 = Some e.2) ->
  sum_of (fun sz => default 0 (m !! sz)) (map fst k) = sum_of snd k.
Proof.
  induction k as [|e k IH]; intros Hk; [done|]. cbn [map].
  rewrite !sum_of_cons, (Hk e) by left. rewrite IH; [done|].
  intros e' He'. apply Hk. by right.
Qed.

Lemma calculatePatternConfidence_cons sizes p :
  sizes <> [] ->
  calculatePatternConfidence sizes p
  = ddiv
      (of_size_t
         (fold_left
            (fun acc sz =>
               match sizeFrequency p !! sz with
               | Some f => add64 acc f
               | None => acc
               end)
            sizes 0))
      (of_size_t
         (fold_left (fun sum (pair : N * N) => add64 sum pair.2)
            (entries (sizeFrequency p)) 0)).
Proof. by destruct sizes. Qed.

(** X19.  The confidence of a prediction is the share of all recorded
    allocations that have one of the common sizes: after any sequence of
    calls on a fresh profiler it is 0 when no allocation was recorded, and
    otherwise the sum of the frequencies of the common sizes over the number
    of allocations recorded.  The common sizes are at most five distinct
    recorded sizes, none less frequent than a size left out.  The confidence
    is therefore a finite number between 0 and 1, and the block count
    [max(5, confidence * 20)] that [optimizePools] derives from it is defined
    and lies between 5 and 20. *)
Theorem confidence_is_a_share calls :
  N.of_nat (length calls) < two64 ->
  exists prediction q n,
    predictNextAllocation (profiler_run calls) = Some prediction /\
    confidence prediction = Fin q /\
    q = (if recorded_allocations calls =? 0 then 0
         else inject_Z
                (Z.of_N
                   (sum_of (frequency (profiler_run calls))
                      (commonSizes (analyzePatterns (profiler_run calls)))))
              / inject_Z (Z.of_N (recorded_allocations calls)))%Q /\
    (length (commonSizes (analyzePatterns (profiler_run calls))) <= 5)%nat /\
    NoDup (commonSizes (analyzePatterns (profiler_run calls))) /\
    (forall sz sz',
       sz ∈ commonSizes (analyzePatterns (profiler_run calls)) ->
       sz' ∉ commonSizes (analyzePatterns (profiler_run calls)) ->
       0 < frequency (profiler_run calls) sz /\
       frequency (profiler_run calls) sz'
       <= frequency (profiler_run calls) sz) /\
    (0 <= q <= 1)%Q /\
    to_size_t (dmul (confidence prediction) (Fin 20)) = Some n /\
    5 <= N.max 5 n <= 20.
Proof.
  intros Hb. set (p := profiler_run calls).
  set (sorted := std_sort (fun a b : N * N => b.2 <? a.2)
                   (entries (sizeFrequency p))).
  assert (sorted ≡ₚ map_to_list (sizeFrequency p)) as Hperm.
  { unfold sorted, entries. by rewrite !std_sort_perm. }
  assert (forall e, e ∈ sorted -> sizeFrequency p !! e.1 = Some e.2) as Hlookup.
  { intros [sz f] He. apply entries_elem.
    by apply (std_sort_elem (fun a b : N * N => b.2 <? a.2)). }
  assert (commonSizes (analyzePatterns p) = map fst (take 5 sorted)) as Hsizes
    by apply commonSizes_eq.
  pose proof (frequency_total calls Hb) as Htotal. fold p in Htotal.
  fold (recorded_allocations calls) in Htotal.
  pose proof (List.filter_length_le is_allocation calls) as Hlen.
  assert (recorded_allocations calls < two64) as Hrec.
  { unfold recorded_allocations. lia. }
  set (common := sum_of (frequency p) (commonSizes (analyzePatterns p))).
  assert (common = sum_of snd (take 5 sorted)) as Hcommon.
  { unfold common. rewrite Hsizes. apply common_sum.
    intros e He. apply Hlookup. by apply subseteq_take in He. }
  assert (common <= recorded_allocations calls) as Hle.
  { rewrite Hcommon, <- Htotal, <- (sum_of_perm snd _ _ Hperm).
    apply sum_of_take_le. }
  assert (sorted = [] -> recorded_allocations calls = 0) as Hnil.
  { intros E. rewrite <- Htotal, <- (sum_of_perm snd _ _ Hperm), E. done. }
  assert (sorted <> [] -> 0 < recorded_allocations calls) as Hcons.
  { intros E. destruct sorted as [|[sz f] k] eqn:Hsorted; [done|].
    pose proof (Hlookup (sz, f) ltac:(left)) as Hf.
    apply frequency_le_calls in Hf; [|done].
    rewrite <- Htotal, <- (sum_of_perm snd _ _ Hperm), sum_of_cons.
    cbn [snd] in *. lia. }
  assert (exists q,
             calculatePatternConfidence (commonSizes (analyzePatterns p)) p
             = Fin q /\
             q = (if recorded_allocations calls =? 0 then 0
                  else inject_Z (Z.of_N common)
                       / inject_Z (Z.of_N (recorded_allocations calls)))%Q /\
             (0 <= q <= 1)%Q) as (q & Hq & Hshare & Hq0 & Hq1).
  { assert (sorted = [] \/ sorted <> []) as [E|E]
      by (destruct sorted; [by left|by right]).
    { rewrite (Hnil E), Hsizes, E. exists 0%Q. split; [done|]. split; [done|].
      split; apply Qle_bool_iff; reflexivity. }
    specialize (Hcons E).
    rewrite calculatePatternConfidence_cons
      by (rewrite Hsizes; by destruct sorted).
    rewrite Hsizes.
    rewrite common_fold by (intros e He; apply Hlookup;
                            by apply subseteq_take in He).
    change 0 with (wrap 0) at 1 2.
    rewrite !(fold_add64_sum snd), !N.add_0_l.
    rewrite (sum_of_perm snd (entries (sizeFrequency p)) _
               (std_sort_perm _ (map_to_list (sizeFrequency p)))).
    rewrite Htotal, <- Hcommon. rewrite !wrap_small by lia.
    destruct (N.eqb_spec (recorded_allocations calls) 0) as [Hz|_]; [lia|].
    unfold of_size_t, ddiv.
    destruct (Qeq_bool (inject_Z (Z.of_N (recorded_allocations calls))) 0)
      eqn:Hz.
    { apply Qeq_bool_iff in Hz. unfold Qeq in Hz. simpl in Hz. lia. }
    eexists. split; [reflexivity|]. split; [reflexivity|].
    assert (0 < inject_Z (Z.of_N (recorded_allocations calls)))%Q as HposQ
      by (unfold Qlt; simpl; lia).
    split.
    - apply Qle_shift_div_l; [done|]. rewrite Qmult_0_l. unfold Qle. simpl. lia.
    - apply Qle_shift_div_r; [done|]. rewrite Qmult_1_l. unfold Qle. simpl. lia. }
  unfold predictNextAllocation.
  destruct (size_variance_analyzePatterns p) as [v Hv].
  rewrite determineOptimalStrategy_table_eq, Hv.
  eexists _, q, _. split; [reflexivity|]. cbn [confidence]. rewrite Hq.
  split; [done|]. split; [done|].
  split. { rewrite Hsizes, length_map, length_take. lia. }
  split.
  { rewrite Hsizes. apply (sublist_NoDup _ (map fst sorted)).
    - change (map fst sorted) with (sorted.*1). rewrite Hperm.
      apply NoDup_fst_map_to_list.
    - apply fmap_sublist, sublist_take. }
  split.
  { intros sz sz' Hin Hout. rewrite Hsizes in Hin, Hout.
    apply list_elem_of_fmap in Hin as ([sz0 f] & Heq & Hin). cbn [fst] in Heq.
    subst sz0. pose proof (Hlookup _ (subseteq_take _ _ _ Hin)) as Hf.
    cbn [fst snd] in Hf. unfold frequency. fold p. rewrite Hf.
    change (default 0 (Some f)) with f.
    split; [by apply (frequency_le_calls calls sz f Hb)|].
    destruct (sizeFrequency p !! sz') as [f'|] eqn:Hf';
      [|change (default 0 None) with 0; lia].
    change (default 0 (Some f')) with f'.
    assert ((sz', f') ∈ sorted) as Hin'.
    { apply (std_sort_elem (fun a b : N * N => b.2 <? a.2)).
      by apply entries_elem. }
    rewrite <- (take_drop 5 sorted) in Hin'.
    apply elem_of_app in Hin' as [Hin'|Hin'].
    { exfalso. apply Hout. apply list_elem_of_fmap. by exists (sz', f'). }
    pose proof (std_sort_sorted (fun a b : N * N => b.2 <? a.2) snd
                  (entries (sizeFrequency p)) (fun _ _ => eq_refl)) as Hsorted.
    fold sorted in Hsorted. rewrite <- (take_drop 5 sorted) in Hsorted.
    apply (sorted_app_order _ _ _ Hsorted (sz, f) (sz', f') Hin Hin'). }
  split; [done|].
  unfold dmul, to_size_t.
  assert (0 <= q * 20)%Q as H0.
  { apply Qmult_le_0_compat; [done|]. by apply Qle_bool_iff. }
  assert (q * 20 <= 20)%Q as H20.
  { rewrite <- (Qmult_1_l 20) at 2. apply Qmult_le_compat_r; [done|].
    by apply Qle_bool_iff. }
  rewrite (proj2 (Qle_bool_iff _ _) H0).
  pose proof (Qfloor_resp_le _ _ H0) as Hf0.
  pose proof (Qfloor_resp_le _ _ H20) as Hf20.
  change (Qfloor 0) with 0%Z in Hf0. change (Qfloor 20) with 20%Z in Hf20.
  assert ((0 <=? Qfloor (q * 20))%Z && (Qfloor (q * 20) <? Z.of_N two64)%Z = true)
    as ->.
  { apply andb_true_iff. rewrite Z.leb_le, Z.ltb_lt. unfold two64. lia. }
  split; [reflexivity|]. lia.
Qed.

Lemma confidence_is_a_share_witness :
  exists prediction q n,
    predictNextAllocation (profiler_run calls4) = Some prediction /\
    confidence prediction = Fin q /\
    q = (if recorded_allocations calls4 =? 0 then 0
         else inject_Z
                (Z.of_N
                   (sum_of (frequency (profiler_run calls4))
                      (commonSizes (analyzePatterns (profiler_run calls4)))))
              / inject_Z (Z.of_N (recorded_allocations calls4)))%Q /\
    (length (commonSizes (analyzePatterns (profiler_run calls4))) <= 5)%nat /\
    NoDup (commonSizes (analyzePatterns (profiler_run calls4))) /\
    (forall sz sz',
       sz ∈ commonSizes (analyzePatterns (profiler_run calls4)) ->
       sz' ∉ commonSizes (analyzePatterns (profiler_run calls4)) ->
       0 < frequency (profiler_run calls4) sz /\
       frequency (profiler_run calls4) sz'
       <= frequency (profiler_run calls4) sz) /\
    (0 <= q <= 1)%Q /\
    to_size_t (dmul (confidence prediction) (Fin 20)) = Some n /\
    5 <= N.max 5 n <= 20.
Proof.
  apply (confidence_is_a_share calls4).
  reflexivity.
Defined.

End ProfilerConfidence.

(** * Further properties of the leak detector *)

Section LeakDetectorExtras.

Import MemoryLeakDetector.

Implicit Types (d : t) (k : list (N * AllocationInfo)).

Lemma getCurrentlyAllocated_sum d :
  getCurrentlyAllocated d
  = wrap (sum_of (fun e => size e.2) (map_to_list (activeAllocations d))).
Proof.
  unfold getCurrentlyAllocated. change 0 with (wrap 0) at 1.
  rewrite (fold_add64_sum (fun e : N * AllocationInfo => size e.2)), N.add_0_l.
  f_equal. apply sum_of_perm, std_sort_perm.
Qed.

Lemma record_then_unrecord_eq d addr sz file line now :
  recordDeallocation addr (recordAllocation addr sz file line now d)
  = mkDetector (delete addr (activeAllocations d))
      (allocationHistory d ++ [(addr, mkInfo sz now captureCallStack line file)])
      (cerr d).
Proof.
  unfold recordDeallocation, recordAllocation. cbn.
  by rewrite lookup_insert_eq, delete_insert_eq.
Qed.

(** X20.  Recording an allocation and then its deallocation leaves no
    active entry for the address and reports nothing on [cerr]; only the
    history keeps the allocation.  An entry that was already active for the
    same address is overwritten by the allocation and so dropped as well. *)
Theorem record_then_unrecord d addr sz file line now :
  recordDeallocation addr (recordAllocation addr sz file line now d)
  = mkDetector (delete addr (activeAllocations d))
      (allocationHistory d ++ [(addr, mkInfo sz now captureCallStack line file)])
      (cerr d).
Proof. apply record_then_unrecord_eq. Qed.

(** X21.  The detector reports every second deallocation of an address:
    whatever the state, after one [recordDeallocation] of an address another
    one changes nothing but the log, to which it appends the address. *)
Theorem double_deallocation_is_reported d addr :
  let d' := recordDeallocation addr d in
  activeAllocations d' !! addr = None /\
  recordDeallocation addr d'
  = mkDetector (activeAllocations d') (allocationHistory d') (cerr d' ++ [addr]).
Proof.
  assert (activeAllocations (recordDeallocation addr d) !! addr = None) as H.
  { unfold recordDeallocation.
    destruct (activeAllocations d !! addr) eqn:E; cbn; [|done].
    apply lookup_delete_eq. }
  cbv zeta. split; [done|].
  unfold recordDeallocation at 1. by rewrite H.
Qed.

(** X22.  [getCurrentlyAllocated] follows the tracked allocations: recording
    an allocation at an untracked address adds its size (modulo 2^64), and
    recording the deallocation gives the former total back. *)
Theorem getCurrentlyAllocated_tracks d addr sz file line now :
  activeAllocations d !! addr = None ->
  let d' := recordAllocation addr sz file line now d in
  getCurrentlyAllocated d' = add64 (getCurrentlyAllocated d) sz /\
  hasLeaks d' = true /\
  getCurrentlyAllocated (recordDeallocation addr d') = getCurrentlyAllocated d.
Proof.
  intros Hnone d'. subst d'. split; [|split].
  - rewrite !getCurrentlyAllocated_sum. unfold recordAllocation.
    cbn [activeAllocations].
    rewrite (sum_of_perm _ _ _ (map_to_list_insert _ _ _ Hnone)).
    cbn [sum_of foldr snd size]. unfold add64. rewrite wrap_add_l.
    f_equal. apply N.add_comm.
  - unfold hasLeaks, recordAllocation. cbn [activeAllocations].
    rewrite bool_decide_eq_false_2; [done|]. apply insert_non_empty.
  - rewrite record_then_unrecord_eq. rewrite !getCurrentlyAllocated_sum.
    cbn [activeAllocations]. by rewrite delete_id.
Qed.

Lemma getCurrentlyAllocated_tracks_witness :
  getCurrentlyAllocated (recordAllocation 0 16 "main.cpp" 12 5 new)
  = add64 (getCurrentlyAllocated new) 16 /\
  hasLeaks (recordAllocation 0 16 "main.cpp" 12 5 new) = true /\
  getCurrentlyAllocated
    (recordDeallocation 0 (recordAllocation 0 16 "main.cpp" 12 5 new))
  = getCurrentlyAllocated new.
Proof.
  apply (getCurrentlyAllocated_tracks new 0 16 "main.cpp" 12 5).
  reflexivity.
Defined.

End LeakDetectorExtras.

(** * Further properties of the controller *)

Section ControllerExtras.

Import AdaptiveMemoryAllocator.

Lemma allocate_Thrown_what a sz e a' :
  MemoryAllocator.allocate sz a = Thrown e a' ->
  e = if sz =? 0 then ZeroSize else NoFit.
Proof.
  unfold MemoryAllocator.allocate. destruct (sz =? 0); [congruence|].
  destruct (findSuitableBlock a sz); [|congruence].
  destruct (deref _ _); [|done].
  by destruct (if sz <? size m then _ else _).
Qed.

Lemma allocate_in_arena a sz addr a' :
  reachable a -> MemoryAllocator.allocate sz a = Returned addr a' ->
  addr + sz <= totalMemorySize a /\ totalMemorySize a < two64.
Proof.
  intros Hr Ha. destruct (reachable_inv _ Hr) as [Hwf _].
  apply allocate_Returned in Ha
    as (it & l1 & b & l2 & Hl & _ & _ & _ & Hle & _ & -> & _); [|done].
  destruct (block_bound a (it, b) Hwf) as [Hb Ht].
  { rewrite Hl. apply elem_of_app. right. left. }
  cbn [snd] in Hb. lia.
Qed.

Lemma mul64_small a b : a * b < two64 -> mul64 a b = a * b.
Proof. apply wrap_small. Qed.

(** X23.  [createMemoryPool] in a reachable arena, for a pool whose size
    [blockSize * blockCount] does not overflow: it never runs into undefined
    behaviour; a failure of the arena is thrown to the caller with the
    controller unchanged (nothing is swallowed); otherwise the arena block
    is taken and, unless its base address is 0, one pool is appended whose
    [blockCount] slots are [blockSize] apart from the base address, all free,
    inside the block.  With base address 0 the block stays allocated and no
    pool is created. *)
Theorem createMemoryPool_outcomes c bs bc :
  reachable (base c) -> bs * bc < two64 ->
  match createMemoryPool bs bc c with
  | Returned _ c' =>
      exists baseAddress a',
        MemoryAllocator.allocate (bs * bc) (base c) = Returned baseAddress a' /\
        baseAddress + bs * bc <= totalMemorySize (base c) /\
        c' = mkController a' (profiler c) (adaptiveMode c)
               (if baseAddress =? 0 then memoryPools c
                else memoryPools c ++
                     [mkPool bs
                        (map (fun i => baseAddress + N.of_nat i * bs)
                           (seq 0 (N.to_nat bc)))
                        bc 0])
               (params c)
  | Thrown e c' => c' = c /\ e = (if bs * bc =? 0 then ZeroSize else NoFit)
  | Undefined => False
  end.
Proof.
  intros Hr Hb. unfold createMemoryPool, bind, on_base.
  rewrite mul64_small by done.
  destruct (MemoryAllocator.allocate (bs * bc) (base c)) as [addr a'|e a'|] eqn:Ha.
  - destruct (allocate_in_arena _ _ _ _ Hr Ha) as [Hin Ht].
    cbn beta iota zeta. unfold ret, modify, set_memoryPools, set_base.
    destruct (addr =? 0) eqn:E; cbn beta iota;
      exists addr, a'; (split; [done|]); (split; [done|]); rewrite E; [done|].
    cbn [base profiler adaptiveMode memoryPools params]. do 3 f_equal.
    f_equal. apply map_ext_in. intros i Hi. apply in_seq in Hi.
    assert (N.of_nat i * bs <= bs * bc) as Hle.
    { rewrite (N.mul_comm bs bc). apply N.mul_le_mono_r. lia. }
    rewrite mul64_small by lia. apply add64_small. lia.
  - cbn beta iota. split; [|by apply (allocate_Thrown_what _ _ _ _ Ha)].
    apply allocate_Thrown in Ha as ->. by destruct c.
  - destruct (reachable_inv _ Hr) as [Hwf _].
    by apply (allocate_defined _ (bs * bc)) in Hwf.
Qed.

Lemma createMemoryPool_outcomes_witness :
  match createMemoryPool 64 5 (this program1) with
  | Returned _ c' =>
      exists baseAddress a',
        MemoryAllocator.allocate (64 * 5) (base (this program1))
        = Returned baseAddress a' /\
        baseAddress + 64 * 5 <= totalMemorySize (base (this program1)) /\
        c' = mkController a' (profiler (this program1))
               (adaptiveMode (this program1))
               (if baseAddress =? 0 then memoryPools (this program1)
                else memoryPools (this program1) ++
                     [mkPool 64
                        (map (fun i => baseAddress + N.of_nat i * 64)
                           (seq 0 (N.to_nat 5)))
                        5 0])
               (params (this program1))
  | Thrown e c' =>
      c' = this program1 /\ e = (if 64 * 5 =? 0 then ZeroSize else NoFit)
  | Undefined => False
  end.
Proof.
  apply (createMemoryPool_outcomes (this program1) 64 5).
  - apply reach_allocate with (a := MemoryAllocator.new 4096 FIRST_FIT) (sz := 16);
      [apply reach_new; reflexivity|vm_compute; reflexivity].
  - reflexivity.
Defined.

(** X24.  Without adaptive mode [allocate] is the arena's [allocate] with
    book-keeping: a failure is thrown with the whole program state unchanged
    (neither the profiler nor the leak detector records the attempt), and a
    success is recorded by both and counted as one operation; the strategy is
    never adapted, whatever the operation count. *)
Theorem allocate_without_adaptive_mode w sz now :
  adaptiveMode (this w) = false ->
  match MemoryAllocator.allocate sz (base (this w)) with
  | Returned addr a' =>
      allocate sz now w
      = Returned addr
          (mkProgram
             (mkController a'
                (MemoryProfiler.recordAllocation sz addr 0 now (profiler (this w)))
                false (memoryPools (this w))
                (set_operations
                   (add64 (operationsSinceLastAdaptation (params (this w))) 1)
                   (params (this w))))
             (MemoryLeakDetector.recordAllocation addr sz FILE LINE now
                (leakDetector w)))
  | Thrown e _ => allocate sz now w = Thrown e w
  | Undefined => allocate sz now w = Undefined
  end.
Proof.
  destruct w as [[a p m pools ps] d]. cbn [this adaptiveMode base]. intros ->.
  unfold allocate. cbn [this adaptiveMode].
  unfold bind, on_this, on_base. cbn [this base].
  destruct (MemoryAllocator.allocate sz a) as [addr a'|e a'|] eqn:Ha.
  - unfold set_base, modify, set_profiler, set_params, adaptStrategy,
      RECORD_ALLOCATION, on_leakDetector, modify, ret.
    cbn [base profiler adaptiveMode memoryPools params this leakDetector negb
         adaptationInterval operationsSinceLastAdaptation set_operations].
    by destruct (_ <=? _).
  - apply allocate_Thrown in Ha as ->. reflexivity.
  - reflexivity.
Qed.

Lemma allocate_without_adaptive_mode_witness :
  match
    MemoryAllocator.allocate 64
      (base (this (mkProgram (set_adaptiveMode false (this program1))
                     (leakDetector program1))))
  with
  | Returned addr a' =>
      allocate 64 7
        (mkProgram (set_adaptiveMode false (this program1))
           (leakDetector program1))
      = Returned addr
          (mkProgram
             (mkController a'
                (MemoryProfiler.recordAllocation 64 addr 0 7
                   (profiler (this program1)))
                false (memoryPools (this program1))
                (set_operations
                   (add64 (operationsSinceLastAdaptation (params (this program1))) 1)
                   (params (this program1))))
             (MemoryLeakDetector.recordAllocation addr 64 FILE LINE 7
                (leakDetector program1)))
  | Thrown e _ =>
      allocate 64 7
        (mkProgram (set_adaptiveMode false (this program1))
           (leakDetector program1))
      = Thrown e
          (mkProgram (set_adaptiveMode false (this program1))
             (leakDetector program1))
  | Undefined =>
      allocate 64 7
        (mkProgram (set_adaptiveMode false (this program1))
           (leakDetector program1))
      = Undefined
  end.
Proof.
  apply (allocate_without_adaptive_mode
           (mkProgram (set_adaptiveMode false (this program1))
              (leakDetector program1)) 64 7).
  reflexivity.
Defined.

(** X25.  When no pool claims the address and the address is not the base
    of a block of the (reachable) arena, [deallocate] throws
    [InvalidAddressException] with the controller unchanged; the leak
    detector has already processed the address by then. *)
Theorem deallocate_invalid_address w addr now :
  reachable (base (this w)) ->
  deallocate_loop addr (memoryPools (this w)) = Some None ->
  addr ∉ (index (memoryBlocks (base (this w)))).*2 ->
  deallocate addr now w
  = Thrown InvalidAddress
      (mkProgram (this w)
         (MemoryLeakDetector.recordDeallocation addr (leakDetector w))).
Proof.
  intros Hr Hloop Hout. apply (deallocate_throws_iff _ _ Hr) in Hout.
  destruct w as [[a p m pools ps] d]. cbn [this base memoryPools leakDetector] in *.
  unfold deallocate, bind, RECORD_DEALLOCATION, on_leakDetector, modify.
  cbn [this memoryPools]. rewrite Hloop.
  unfold on_this, bind, on_base. cbn [this base]. by rewrite Hout.
Qed.

Lemma deallocate_invalid_address_witness :
  deallocate 50 9 program1
  = Thrown InvalidAddress
      (mkProgram (this program1)
         (MemoryLeakDetector.recordDeallocation 50 (leakDetector program1))).
Proof.
  apply (deallocate_invalid_address program1 50 9).
  - apply reach_allocate with (a := MemoryAllocator.new 4096 FIRST_FIT) (sz := 16);
      [apply reach_new; reflexivity|vm_compute; reflexivity].
  - reflexivity.
  - intros H. apply list_elem_of_In in H. vm_compute in H.
    intuition discriminate.
Defined.

Lemma utilization_low (u t : N) :
  t <> 0 ->
  dlt (ddiv (of_size_t u) (of_size_t t)) (Fin (2 # 10)) = (5 * u <? t).
Proof.
  intros Ht. unfold of_size_t, ddiv.
  destruct (Qeq_bool (inject_Z (Z.of_N t)) 0) eqn:Hz.
  { apply Qeq_bool_iff in Hz. unfold Qeq in Hz. simpl in Hz. lia. }
  unfold dlt. assert (0 < inject_Z (Z.of_N t))%Q as Hpos.
  { unfold Qlt. simpl. lia. }
  destruct (N.ltb_spec (5 * u) t) as [Hlt|Hge].
  - apply negb_true_iff. destruct (Qle_bool _ _) eqn:E; [|done].
    apply Qle_bool_iff in E.
    apply (Qmult_le_compat_r _ _ (inject_Z (Z.of_N t))) in E;
      [|by apply Qlt_le_weak].
    rewrite (Qmult_comm (_ / _)), Qmult_div_r in E.
    + unfold Qle, Qmult, inject_Z in E. cbn [Qnum Qden] in E. lia.
    + intros H. rewrite H in Hpos. by apply Qlt_irrefl in Hpos.
  - apply negb_false_iff, Qle_bool_iff. apply Qle_shift_div_l; [done|].
    unfold Qle, Qmult, inject_Z. cbn [Qnum Qden]. lia.
Qed.

(** X26.  The pools that survive [updatePoolUtilization] followed by
    [cleanupUnusedPools] are exactly those with a non-zero [totalBlocks] of
    which at least a fifth is in use, and they survive unchanged; every other
    pool is removed, whether or not slots of it are still handed out. *)
Theorem underused_pools_are_removed c :
  memoryPools (cleanupUnusedPools (updatePoolUtilization c))
  = List.filter
      (fun pool =>
         negb (totalBlocks pool =? 0)
         && (totalBlocks pool <=? 5 * usedBlocks pool))
      (memoryPools c).
Proof.
  unfold cleanupUnusedPools, updatePoolUtilization, set_memoryPools.
  cbn [memoryPools]. induction (memoryPools c) as [|pool pools IH]; [done|].
  cbn [map List.filter]. rewrite IH. clear IH.
  destruct (N.eqb_spec (totalBlocks pool) 0) as [Hz|Hnz].
  - cbn [negb andb].
    by destruct (dlt _ _); cbn [totalBlocks]; rewrite ?Hz.
  - rewrite (utilization_low _ _ Hnz). cbn [negb andb]. rewrite N.leb_antisym.
    destruct (5 * usedBlocks pool <? totalBlocks pool); cbn [totalBlocks negb].
    + done.
    + by destruct (N.eqb_spec (totalBlocks pool) 0).
Qed.

(** X27.  A slot taken from a pool that keeps at least one other free slot
    comes back to the same pool: [allocateFromPool] hands out the last free
    slot of the first pool (when that pool is large enough for the request),
    and if the slot lies in the range that [deallocate] computes from the
    first free slot, the loop of [deallocate] puts it back and the pools are
    exactly as before. *)
Theorem pool_slot_round_trip pool rest sz s0 s1 ss :
  freeBlocks pool = s0 :: s1 :: ss ->
  sz <= blockSize pool ->
  usedBlocks pool + 1 < two64 ->
  let addr := List.last (s1 :: ss) 0 in
  s0 <= addr < add64 s0 (mul64 (totalBlocks pool) (blockSize pool)) ->
  exists pool',
    allocateFromPool_loop sz (pool :: rest) = Some (addr, pool' :: rest) /\
    freeBlocks pool' = s0 :: removelast (s1 :: ss) /\
    usedBlocks pool' = usedBlocks pool + 1 /\
    deallocate_loop addr (pool' :: rest) = Some (Some (pool :: rest)).
Proof.
  intros Hfree Hsz Hused addr [Hlo Hhi].
  cbn [allocateFromPool_loop]. rewrite Hfree.
  rewrite (proj2 (N.leb_le _ _) Hsz). rewrite bool_decide_eq_false_2 by done.
  cbn [andb negb]. change (List.last (s0 :: s1 :: ss) 0) with addr.
  change (removelast (s0 :: s1 :: ss)) with (s0 :: removelast (s1 :: ss)).
  rewrite add64_small by done.
  eexists. split; [reflexivity|]. split; [done|]. split; [done|].
  cbn [deallocate_loop freeBlocks totalBlocks blockSize usedBlocks].
  rewrite (proj2 (N.leb_le _ _) Hlo), (proj2 (N.ltb_lt _ _) Hhi). cbn [andb].
  rewrite sub64_small by lia. do 3 f_equal.
  replace (usedBlocks pool + 1 - 1) with (usedBlocks pool) by lia.
  change ((s0 :: removelast (s1 :: ss)) ++ [addr])
    with (s0 :: (removelast (s1 :: ss) ++ [List.last (s1 :: ss) 0])).
  rewrite <- app_removelast_last by done. rewrite <- Hfree. by destruct pool.
Qed.

Lemma pool_slot_round_trip_witness :
  exists pool',
    allocateFromPool_loop 64 [mkPool 64 [16; 80; 144; 208; 272] 5 0]
    = Some (272, [pool']) /\
    freeBlocks pool' = [16; 80; 144; 208] /\
    usedBlocks pool' = 0 + 1 /\
    deallocate_loop 272 [pool']
    = Some (Some [mkPool 64 [16; 80; 144; 208; 272] 5 0]).
Proof.
  apply (pool_slot_round_trip (mkPool 64 [16; 80; 144; 208; 272] 5 0) [] 64
           16 80 [144; 208; 272]).
  - reflexivity.
  - vm_compute. discriminate.
  - reflexivity.
  - vm_compute. split; [discriminate|reflexivity].
Defined.

Lemma scale_tenths (x k : N) :
  x * k / 10 < two64 ->
  scale x (Fin (Z.of_N k # 10)) = Some (x * k / 10).
Proof.
  intros Hx. unfold scale, of_size_t, dmul, to_size_t.
  assert (Qle_bool 0 (inject_Z (Z.of_N x) * (Z.of_N k # 10)) = true) as ->.
  { apply Qle_bool_iff. unfold Qle, Qmult, inject_Z. cbn [Qnum Qden]. lia. }
  unfold Qfloor, Qmult, inject_Z. cbn [Qnum Qden].
  change (Z.pos (1 * 10)) with 10%Z.
  assert (0 <= Z.of_N x * Z.of_N k / 10 < Z.of_N two64)%Z as [H1 H2].
  { split; [apply Z.div_pos; lia|].
    rewrite <- N2Z.inj_mul. rewrite <- (N2Z.inj_div _ 10). lia. }
  apply Z.leb_le in H1. apply Z.ltb_lt in H2. rewrite H1, H2. cbn [andb].
  f_equal. rewrite <- N2Z.inj_mul. rewrite <- (N2Z.inj_div _ 10).
  apply N2Z.id.
Qed.

Lemma scale_tenths_le (x k : N) :
  x < two64 -> k <= 10 ->
  scale x (Fin (Z.of_N k # 10)) = Some (x * k / 10).
Proof.
  intros Hx Hk. apply scale_tenths.
  assert (x * k / 10 <= x); [|lia].
  apply N.Div0.div_le_upper_bound. nia.
Qed.

(** X28.  [adjustParameters] has no lower bound on the adaptation interval:
    whenever the average time between allocations is not above 1000
    microseconds the interval is cut to eight tenths (rounded down), so it
    falls to 0 over repeated adaptations; the pool creation threshold is cut
    to nine tenths when more than 100 allocations count as failed.  The call
    is defined, and touches nothing but the parameters. *)
Theorem adjustParameters_shrinks_interval c :
  let metrics := MemoryProfiler.getPerformanceMetrics (base c) (profiler c) in
  adaptationInterval (params c) < two64 ->
  poolCreationThreshold (params c) < two64 ->
  dgt (MemoryProfiler.averageAllocationTime metrics) (Fin 1000) = false ->
  exists c',
    adjustParameters c = Returned tt c' /\
    (adaptationInterval (params c') = adaptationInterval (params c) * 8 / 10) /\
    (poolCreationThreshold (params c')
     = if 100 <? MemoryProfiler.failedAllocations metrics
       then poolCreationThreshold (params c) * 9 / 10
       else poolCreationThreshold (params c)) /\
    (operationsSinceLastAdaptation (params c')
     = operationsSinceLastAdaptation (params c)) /\
    base c' = base c /\ profiler c' = profiler c /\
    memoryPools c' = memoryPools c /\ adaptiveMode c' = adaptiveMode c.
Proof.
  intros metrics Hi Hp Havg. unfold adjustParameters.
  fold metrics. rewrite Havg.
  change (Fin (8 # 10)) with (Fin (Z.of_N 8 # 10)).
  change (Fin (9 # 10)) with (Fin (Z.of_N 9 # 10)).
  rewrite !scale_tenths_le by (done || lia).
  destruct (100 <? MemoryProfiler.failedAllocations metrics);
    eexists; (split; [reflexivity|]); by destruct c.
Qed.

Lemma adjustParameters_shrinks_interval_witness :
  exists c',
    adjustParameters (this program1) = Returned tt c' /\
    (adaptationInterval (params c')
     = adaptationInterval (params (this program1)) * 8 / 10) /\
    (poolCreationThreshold (params c')
     = if 100 <? MemoryProfiler.failedAllocations
                   (MemoryProfiler.getPerformanceMetrics (base (this program1))
                      (profiler (this program1)))
       then poolCreationThreshold (params (this program1)) * 9 / 10
       else poolCreationThreshold (params (this program1))) /\
    (operationsSinceLastAdaptation (params c')
     = operationsSinceLastAdaptation (params (this program1))) /\
    base c' = base (this program1) /\ profiler c' = profiler (this program1) /\
    memoryPools c' = memoryPools (this program1) /\
    adaptiveMode c' = adaptiveMode (this program1).
Proof.
  apply (adjustParameters_shrinks_interval (this program1)).
  - reflexivity.
  - reflexivity.
  - vm_compute. reflexivity.
Defined.







End ControllerExtras.

Section FreshController.

Import AdaptiveMemoryAllocator.

(** X29.  The first pool requested from a freshly constructed controller is
    never created: the arena hands out the block at address 0, which
    [createMemoryPool] takes for a failure.  The call returns normally, the
    block of [blockSize * blockCount] bytes stays allocated in the arena, and
    no pool can serve from it. *)
Theorem createMemoryPool_on_fresh_controller total bs bc :
  total < two64 -> bs * bc <> 0 -> bs * bc <= total ->
  exists c',
    createMemoryPool bs bc (new total) = Returned tt c' /\
    memoryPools c' = [] /\
    (O, mkBlock 0 (bs * bc) false) ∈ memoryBlocks (base c') /\
    getTotalFreeMemory (base c') = total - bs * bc.
Proof.
  intros Ht Hnz Hle. unfold createMemoryPool, bind, on_base.
  rewrite mul64_small by lia. cbn [new base].
  destruct (new_inv total FIRST_FIT Ht) as [Hwf _].
  assert (findSuitableBlock (MemoryAllocator.new total FIRST_FIT) (bs * bc)
          = Some O) as Hfind.
  { unfold findSuitableBlock, MemoryAllocator.new, fits. cbn.
    by rewrite (proj2 (N.leb_le _ _) Hle). }
  rewrite (allocate_eval _ _ O (mkBlock 0 total true) [] []
             Hwf Hnz Hfind eq_refl ltac:(apply not_elem_of_nil) Hle).
  cbn [address N.eqb]. unfold ret, set_base. eexists. split; [reflexivity|].
  cbn [memoryPools base]. split; [done|].
  unfold allocated, getTotalFreeMemory. cbn [size address N.add].
  destruct (N.ltb_spec (bs * bc) total) as [Hlt|Hge];
    cbn [with_blocks memoryBlocks app fold_left snd isFree size].
  - split; [left|]. apply add64_small. lia.
  - assert (bs * bc = total) as -> by lia. split; [left|]. lia.
Qed.

Lemma createMemoryPool_on_fresh_controller_witness :
  exists c',
    createMemoryPool 64 5 (new 4096) = Returned tt c' /\
    memoryPools c' = [] /\
    (O, mkBlock 0 (64 * 5) false) ∈ memoryBlocks (base c') /\
    getTotalFreeMemory (base c') = 4096 - 64 * 5.
Proof.
  apply (createMemoryPool_on_fresh_controller 4096 64 5).
  - reflexivity.
  - discriminate.
  - vm_compute. discriminate.
Defined.

End FreshController.
